(** * Test200126: the authenticated-session cache and the retry helpers

    A shallow embedding of
      - fixtures/auth.fixture.ts  (isAuthStateStale, clearAuthState,
        setupAuthState, the [page] and [authenticatedContext] fixtures),
      - pages/login.page.ts       (LoginPage.loginWithCredentials),
      - utils/helpers.ts          (fillWithRetry, retryUntil).

    The TypeScript code is effectful: it reads and writes the file system,
    reads the clock and the process environment, and drives a browser.
    It is embedded in a state-and-exception monad over an explicit [World];
    every call that leaves the program (node's fs, Playwright, a callback)
    is appended to a log kept in the world, together with what it
    produced, and may raise as an oracle of the environment says. *)

From Stdlib Require Import ZArith Lia List Ascii String QArith Qround.
From stdpp Require Import base option list strings gmap pretty.

Local Open Scope string_scope.
Local Open Scope Z_scope.
Local Open Scope list_scope.

(** ** Data *)

(** A path, as its list of segments under the root. *)
Abbreviation Path := (list string).

(** The serialized browser state: an opaque blob. *)
Abbreviation Blob := string.

(** An entry of the file system; [mtimeMs] is [fs.Stats.mtimeMs].  Times
    are counted in milliseconds, as integers. *)
Inductive Node :=
| File (mtime : Z) (content : Blob)
| Dir (mtime : Z).

Definition mtimeMs (n : Node) : Z :=
  match n with File t _ => t | Dir t => t end.

Definition isFile (o : option Node) : bool :=
  match o with Some (File _ _) => true | _ => false end.

(** A Playwright page: the context it lives in and its number. *)
Record Page := mkPage { page_context : nat; page_no : nat }.

(** A Playwright locator. *)
Inductive Locator :=
| Css (selector : string)
| ByText (text : string).

(** The calls that leave the program. *)
Inductive Op :=
| ExistsSync (p : Path)
| StatSync (p : Path)
| UnlinkSync (p : Path)
| MkdirSync (p : Path)
| NewContext (storageState : option Path)
| ContextNewPage (c : nat)
| ContextClose (c : nat)
| ContextStorageState (c : nat) (p : Path)
| PageGoto (pg : Page) (url : string)
| PageWaitForLoadState (pg : Page) (state : string)
| LocatorFill (pg : Page) (l : Locator) (v : string)
| LocatorClick (pg : Page) (l : Locator)
| PageFill (pg : Page) (selector v : string) (timeout : Z)
| PageInputValue (pg : Page) (selector : string)
| PageWaitForTimeout (pg : Page) (ms : Z)
| Action
| Condition
| SetTimeout (ms : Z)
| Use (c : nat) (pg : option Page)
| Invoke (fn : string).

(** What a logged call produced. *)
Inductive Res :=
| Rejected
| Done
| Bool (b : bool)
| Num (z : Z)
| Str (s : string).

(** What [throw] carries: an [Error] object built by this code, or
    whatever an outside call raised. *)
Inductive error :=
| JsError (message : string)
| Thrown (op : Op).

(** The world the program runs in: the file system, the clock
    ([Date.now()]), [process.env], the open browser contexts with the
    storage state they were opened from, the next fresh identifier, and the
    log of the outside calls so far.  The clock does not move during a run;
    time passing between runs is a change of [now]. *)
Record World := mkWorld {
  fs : gmap Path Node;
  now : Z;
  process_env : gmap string string;
  contexts : gmap nat (option Blob);
  next_id : nat;
  trace : list (Op * Res)
}.

Definition set_fs (f : gmap Path Node → gmap Path Node) (w : World) : World :=
  mkWorld (f (fs w)) (now w) (process_env w) (contexts w) (next_id w) (trace w).

Definition set_now (t : Z) (w : World) : World :=
  mkWorld (fs w) t (process_env w) (contexts w) (next_id w) (trace w).

Definition set_contexts (f : gmap nat (option Blob) → gmap nat (option Blob))
    (w : World) : World :=
  mkWorld (fs w) (now w) (process_env w) (f (contexts w)) (next_id w) (trace w).

Definition bump_id (w : World) : World :=
  mkWorld (fs w) (now w) (process_env w) (contexts w) (S (next_id w)) (trace w).

Definition log (op : Op) (r : Res) (w : World) : World :=
  mkWorld (fs w) (now w) (process_env w) (contexts w) (next_id w)
          (trace w ++ [(op, r)]).

(** How far a write that raises had got: it raised before anything was
    done on disk, or after the directories of the path were made, or after
    the file was opened, which empties it, with the first [k] characters
    written. *)
Inductive Progress :=
| NotStarted
| DirsMade
| Written (k : nat).

(** The environment's choices: which outside call raises, what the
    value-returning ones answer, and how far a write that raises had got.
    Each may depend on the whole history. *)
Record Env := mkEnv {
  throws : Op → World → bool;
  conditionValue : World → bool;
  inputValue : Page → string → World → string;
  captureState : nat → World → Blob;
  testPassed : World → bool;
  writeProgress : Op → World → Progress
}.

(** ** The monad *)

Definition M (A : Type) : Type := World → (error + A) * World.

Definition ret {A} (a : A) : M A := fun w => (inr a, w).

Definition throw {A} (e : error) : M A := fun w => (inl e, w).

#[global] Instance M_bind : MBind M := fun A B (k : A → M B) (m : M A) w =>
  match m w with
  | (inr a, w1) => k a w1
  | (inl e, w1) => (inl e, w1)
  end.

(** [try { m } catch { h }]: the handler runs in the state the body left. *)
Definition try_catch {A} (m : M A) (h : error → M A) : M A :=
  fun w => match m w with
           | (inr a, w1) => (inr a, w1)
           | (inl e, w1) => h e w1
           end.

(** [try { m } finally { f }]: [f] always runs; when it raises, its error
    replaces the outcome of [m]. *)
Definition try_finally {A} (m : M A) (f : M unit) : M A :=
  fun w => match m w with
           | (r, w1) => match f w1 with
                        | (inr _, w2) => (r, w2)
                        | (inl e, w2) => (inl e, w2)
                        end
           end.

(** An outside call: logged, and raising when the oracle says so. *)
Definition outside {A} (E : Env) (op : Op)
    (body : World → (error + A) * World) : M A :=
  fun w => if throws E op w
           then (inl (Thrown op), log op Rejected w)
           else body w.

(** ** Paths *)

(** [path.join]: the segments are concatenated and normalized. *)
Definition normalize_step (acc : Path) (seg : string) : Path :=
  if String.eqb seg ".." then removelast acc
  else if String.eqb seg "." then acc
  else acc ++ [seg].

Definition path_join (base : Path) (segs : list string) : Path :=
  fold_left normalize_step segs (fold_left normalize_step base []).

(** [path.dirname] *)
Definition path_dirname (p : Path) : Path := removelast p.

(** The non-empty prefixes of a path, shortest first: the directories
    [mkdirSync(p, { recursive: true })] walks through. *)
Definition prefixes (p : Path) : list Path :=
  map (fun n => take n p) (seq 1 (length p)).

(** [x || EmptyString] on a value read from [process.env]. *)
Definition or_empty (o : option string) : string :=
  match o with
  | Some s => s
  | None => EmptyString
  end.

(** JavaScript's [!s] on a string: true exactly for the empty string. *)
Definition falsy (s : string) : bool :=
  match s with
  | EmptyString => true
  | _ => false
  end.

(** ** Numbers *)

(** A JavaScript [number] that bounds a loop is modelled as a rational: it
    may be negative, zero, an integer or a fraction (2.5, say).  The loop
    variable, which starts at 0 and is incremented, is an integer.  On
    integers and fractions below 2^53, where a loop can get, the
    comparisons and [x - 1] are exact in JavaScript as they are here.
    [NaN] and the infinities are not covered. *)

(** [i < x] *)
Definition num_lt (i : Z) (x : Q) : bool := negb (Qle_bool x (inject_Z i)).

(** [i === x] *)
Definition num_eq (i : Z) (x : Q) : bool := Qeq_bool (inject_Z i) x.

(** ** node's fs, the clock, the environment and Playwright *)

Section Outside.

Context (E : Env).

(** [fs.existsSync(p)] never raises: an access error reads as [false]. *)
Definition existsSync (p : Path) : M bool := fun w =>
  let b := negb (throws E (ExistsSync p) w) && bool_decide (is_Some (fs w !! p)) in
  (inr b, log (ExistsSync p) (Bool b) w).

(** [fs.statSync(p)] raises when there is no entry or on an access error. *)
Definition statSync (p : Path) : M Node :=
  outside E (StatSync p) (fun w =>
    match fs w !! p with
    | Some n => (inr n, log (StatSync p) (Num (mtimeMs n)) w)
    | None => (inl (Thrown (StatSync p)), log (StatSync p) Rejected w)
    end).

(** [fs.unlinkSync(p)] removes a file; it raises when there is none, when
    the entry is a directory, or on an access error. *)
Definition unlinkSync (p : Path) : M unit :=
  outside E (UnlinkSync p) (fun w =>
    if isFile (fs w !! p)
    then (inr tt, log (UnlinkSync p) Done (set_fs (delete p) w))
    else (inl (Thrown (UnlinkSync p)), log (UnlinkSync p) Rejected w)).

Definition mkdir_one (t : Z) (m : gmap Path Node) (q : Path) : gmap Path Node :=
  match m !! q with
  | Some _ => m
  | None => <[q := Dir t]> m
  end.

(** [fs.mkdirSync(p, { recursive: true })] creates [p] and its missing
    ancestors; it raises when a file is in the way or on an access error. *)
Definition mkdirSync (p : Path) : M unit :=
  outside E (MkdirSync p) (fun w =>
    if existsb (fun q => isFile (fs w !! q)) (prefixes p)
    then (inl (Thrown (MkdirSync p)), log (MkdirSync p) Rejected w)
    else (inr tt, log (MkdirSync p) Done
                    (set_fs (fun m => fold_left (mkdir_one (now w)) (prefixes p) m) w))).

(** [Date.now()] *)
Definition Date_now : M Z := fun w => (inr (now w), w).

(** [process.env.NAME] *)
Definition getenv (name : string) : M (option string) :=
  fun w => (inr (process_env w !! name), w).

(** [browser.newContext(options)]: with [storageState: p] the file at [p]
    is read, and the call raises when it cannot be. *)
Definition newContext (storageState : option Path) : M nat :=
  outside E (NewContext storageState) (fun w =>
    let c := next_id w in
    let opened (b : option Blob) :=
      (inr c, log (NewContext storageState) (Num (Z.of_nat c))
                (bump_id (set_contexts (insert c b) w))) in
    match storageState with
    | None => opened None
    | Some p =>
        match fs w !! p with
        | Some (File _ b) => opened (Some b)
        | _ => (inl (Thrown (NewContext storageState)),
                log (NewContext storageState) Rejected w)
        end
    end).

(** [context.newPage()] *)
Definition newPage (c : nat) : M Page :=
  outside E (ContextNewPage c) (fun w =>
    (inr (mkPage c (next_id w)),
     log (ContextNewPage c) (Num (Z.of_nat (next_id w))) (bump_id w))).

(** [context.close()] *)
Definition closeContext (c : nat) : M unit :=
  outside E (ContextClose c) (fun w =>
    (inr tt, log (ContextClose c) Done (set_contexts (delete c) w))).

(** Whether the directories above [p] can be made: no file sits where a
    directory is needed. *)
Definition canMkdir (m : gmap Path Node) (p : Path) : bool :=
  negb (existsb (fun q => isFile (m !! q)) (prefixes (path_dirname p))).

(** Whether the file at [p] can be written: the directories above it can
    be made and [p] is not a directory. *)
Definition canWrite (m : gmap Path Node) (p : Path) : bool :=
  canMkdir m p && match m !! p with Some (Dir _) => false | _ => true end.

(** The directories above [p], made where they are missing. *)
Definition withDirs (t : Z) (p : Path) (m : gmap Path Node) : gmap Path Node :=
  fold_left (mkdir_one t) (prefixes (path_dirname p)) m.

#[global] Arguments withDirs : simpl never.

(** [context.storageState({ path: p })].  Playwright captures the state,
    makes the directories above [p] where they are missing (an error of this
    step is ignored), and writes the serialized state to [p] with
    [fs.writeFile], which opens the file, empties it and writes: the write
    is not atomic.  The call raises when the file cannot be written, and
    when the oracle says so: the capture failed, or the write failed on its
    way and what it had written is left in the file. *)
Definition storageState (c : nat) (p : Path) : M unit := fun w =>
  let op := ContextStorageState c p in
  let state := captureState E c w in
  let dirs_made := if canMkdir (fs w) p then set_fs (withDirs (now w) p) w else w in
  let written (b : Blob) :=
    set_fs (fun m => <[p := File (now w) b]> (withDirs (now w) p m)) w in
  if throws E op w then
    (inl (Thrown op),
     log op Rejected
       match writeProgress E op w with
       | NotStarted => w
       | DirsMade => dirs_made
       | Written k =>
           if canWrite (fs w) p then written (substring 0 k state) else dirs_made
       end)
  else if canWrite (fs w) p
  then (inr tt, log op Done (written state))
  else (inl (Thrown op), log op Rejected dirs_made).

(** A page or locator action with no result the program looks at. *)
Definition act (op : Op) : M unit :=
  outside E op (fun w => (inr tt, log op Done w)).

(** [page.inputValue(selector)] *)
Definition pageInputValue (pg : Page) (selector : string) : M string :=
  outside E (PageInputValue pg selector) (fun w =>
    let v := inputValue E pg selector w in
    (inr v, log (PageInputValue pg selector) (Str v) w)).

(** The [condition] callback of [retryUntil]. *)
Definition condition : M bool :=
  outside E Condition (fun w =>
    let b := conditionValue E w in
    (inr b, log Condition (Bool b) w)).

(** [new Promise(resolve => setTimeout(resolve, ms))]: never rejects. *)
Definition sleep (ms : Z) : M unit :=
  fun w => (inr tt, log (SetTimeout ms) Done w).

(** Playwright's [use(value)]: it hands the fixture value to the test and
    resolves once the test body is over, whether the body passed, failed or
    was stopped by the timeout; the runner keeps the verdict and resumes the
    fixture for its teardown.  It does not reject. *)
Definition use (c : nat) (pg : option Page) : M unit :=
  fun w => (inr tt, log (Use c pg) (Bool (testPassed E w)) w).

(** A call counter: the entry into a function of this program. *)
Definition entered (fn : string) : M unit :=
  fun w => (inr tt, log (Invoke fn) Done w).

End Outside.

(** ** pages/login.page.ts *)

Module LoginPage.

Definition dq : string := String "034"%char EmptyString.

Definition data_test (name : string) : Locator :=
  Css (String.append "[data-test="
        (String.append dq (String.append name (String.append dq "]")))).

Definition url : string := "https://www.saucedemo.com/".

Definition inputLogin : Locator := data_test "username".
Definition inputPassword : Locator := data_test "password".
Definition btnLogin : Locator := data_test "login-button".
Definition swagLabs : Locator := ByText "Swag Labs".

Section Methods.

Context (E : Env).

(** [BasePage.navigate] then [BasePage.waitForPageLoad] with its default
    state. *)
Definition navigateToPage (page : Page) : M unit :=
  act E (PageGoto page url);;
  act E (PageWaitForLoadState page "domcontentloaded").

Definition loginWithCredentials (page : Page) : M unit :=
  u ← getenv "TEST_USER_ADMIN_USERNAME";
  let username := or_empty u in
  p ← getenv "TEST_USER_ADMIN_PASSWORD";
  let password := or_empty p in
  if falsy username || falsy password
  then throw (JsError "Credentials not found in environment variables")
  else
    act E (LocatorFill page inputPassword password);;
    act E (LocatorClick page inputLogin);;
    act E (LocatorClick page btnLogin);;
    act E (LocatorClick page swagLabs);;
    act E (PageWaitForLoadState page "networkidle").

End Methods.

End LoginPage.

(** ** fixtures/auth.fixture.ts *)

Section Fixture.

Context (E : Env) (__dirname : Path).

Definition STORAGE_STATE_PATH : Path :=
  path_join __dirname [".."; ".auth"; "user.json"].

Definition AUTH_STATE_MAX_AGE_MS : Z := 60 * 60 * 1000.

Definition isAuthStateStale : M bool :=
  try_catch
    (ex ← existsSync E STORAGE_STATE_PATH;
     if negb ex then ret true
     else
       stats ← statSync E STORAGE_STATE_PATH;
       t ← Date_now;
       let ageMs := t - mtimeMs stats in
       ret (AUTH_STATE_MAX_AGE_MS <? ageMs))
    (fun _ : error => ret true).

Definition clearAuthState : M unit :=
  try_catch
    (ex ← existsSync E STORAGE_STATE_PATH;
     if (ex : bool) then unlinkSync E STORAGE_STATE_PATH else ret tt)
    (fun _ : error => ret tt).

(** [setupAuthState], lines 333 to 344: the login procedure proper. *)
Definition loginProcedure (page : Page) : M unit :=
  LoginPage.navigateToPage E page;;
  username ← getenv "TEST_USER_ADMIN_USERNAME";
  act E (LocatorFill page LoginPage.inputLogin (or_empty username));;
  password ← getenv "TEST_USER_ADMIN_PASSWORD";
  act E (LocatorFill page LoginPage.inputPassword (or_empty password));;
  act E (LocatorClick page LoginPage.btnLogin);;
  act E (PageWaitForLoadState page "networkidle").

(** [setupAuthState], lines 346 to 353: the state is persisted. *)
Definition persistState (page : Page) : M unit :=
  let authDir := path_dirname STORAGE_STATE_PATH in
  ex ← existsSync E authDir;
  (if negb ex then mkdirSync E authDir else ret tt);;
  storageState E (page_context page) STORAGE_STATE_PATH.

Definition setupAuthState (page : Page) : M unit :=
  entered "setupAuthState";;
  loginProcedure page;;
  persistState page.

(** The test of both fixtures,
    [!fs.existsSync(STORAGE_STATE_PATH) || isAuthStateStale()]. *)
Definition missingOrStale : M bool :=
  ex ← existsSync E STORAGE_STATE_PATH;
  if negb ex then ret true else isAuthStateStale.

(** The block both fixtures start with (the spec's [ensureFresh]). *)
Definition ensureFresh : M unit :=
  stale ← missingOrStale;
  if (stale : bool) then
    clearAuthState;;
    setupContext ← newContext E None;
    setupPage ← newPage E setupContext;
    try_finally (setupAuthState setupPage) (closeContext E setupContext)
  else ret tt.

(** The [page] fixture. *)
Definition page_fixture : M unit :=
  ensureFresh;;
  context ← newContext E (Some STORAGE_STATE_PATH);
  page ← newPage E context;
  use E context (Some page);;
  closeContext E context.

(** The [authenticatedContext] fixture. *)
Definition authenticatedContext_fixture : M unit :=
  ensureFresh;;
  context ← newContext E (Some STORAGE_STATE_PATH);
  use E context None;;
  closeContext E context.

End Fixture.

(** ** utils/helpers.ts *)

Section Helpers.

Context (E : Env).

(** The loop of [fillWithRetry] with the loop variable at [i]: the test
    [i < retries], the body, [i++].  [fuel] bounds the number of
    iterations. *)
Fixpoint fillWithRetry_from (page : Page) (selector value : string)
    (retries : Q) (fuel : nat) (i : Z) : M unit :=
  match fuel with
  | O => ret tt
  | S fuel' =>
      if num_lt i retries then
        filled ←
          try_catch
            (act E (PageFill page selector value 5000);;
             currentValue ← pageInputValue E page selector;
             ret (String.eqb currentValue value))
            (fun error : error =>
               if num_eq i (retries - 1)%Q then throw error
               else act E (PageWaitForTimeout page 1000);; ret false);
        if (filled : bool) then ret tt
        else fillWithRetry_from page selector value retries fuel' (i + 1)
      else ret tt
  end.

(** The integers from 0 that are below [retries]: the first
    [Qceiling retries] of them when [retries] is positive, none otherwise.
    The loop cannot run more often. *)
Definition attempts (retries : Q) : nat := Z.to_nat (Qceiling retries).

Definition fillWithRetry (page : Page) (selector value : string)
    (retries : Q) : M unit :=
  fillWithRetry_from page selector value retries (attempts retries) 0.

Definition not_met (maxRetries : Z) : string :=
  String.append "Condition not met after "
    (String.append (pretty maxRetries) " retries").

(** The loop of [retryUntil], with [n] iterations left and the loop
    variable at [i], and the [throw] after it. *)
Fixpoint retryUntil_from (maxRetries retryDelay : Z) (n : nat) (i : Z)
    : M unit :=
  match n with
  | O => throw (JsError (not_met maxRetries))
  | S n' =>
      act E Action;;
      met ← condition E;
      if (met : bool) then ret tt
      else
        (if i <? maxRetries - 1 then sleep retryDelay else ret tt);;
        retryUntil_from maxRetries retryDelay n' (i + 1)
  end.

Definition retryUntil (maxRetries retryDelay : Z) : M unit :=
  retryUntil_from maxRetries retryDelay (Z.to_nat maxRetries) 0.

End Helpers.

(** ** Sample environments and worlds *)

(** An environment in which no outside call raises, the field reads back
    ["typed"], the captured state is ["session"] and the test passes. *)
Definition calm : Env :=
  mkEnv (fun _ _ => false) (fun _ => false) (fun _ _ _ => "typed")
        (fun _ _ => "session") (fun _ => true)
        (fun _ _ => NotStarted).

(** An environment like [calm], except that every [unlinkSync] raises. *)
Definition locked : Env :=
  mkEnv (fun op _ => match op with UnlinkSync _ => true | _ => false end)
        (fun _ => false) (fun _ _ _ => "typed")
        (fun _ _ => "session") (fun _ => true)
        (fun _ _ => NotStarted).

(** An environment like [calm], except that every click raises and the
    test fails. *)
Definition stuck : Env :=
  mkEnv (fun op _ => match op with LocatorClick _ _ => true | _ => false end)
        (fun _ => false) (fun _ _ _ => "typed")
        (fun _ _ => "session") (fun _ => false)
        (fun _ _ => NotStarted).

(** An environment like [calm], except that the test fails. *)
Definition failing : Env :=
  mkEnv (fun _ _ => false) (fun _ => false) (fun _ _ _ => "typed")
        (fun _ _ => "session") (fun _ => false)
        (fun _ _ => NotStarted).


(** An environment like [calm], except that the write of the state
    raises after three characters. *)
Definition cut : Env :=
  mkEnv (fun op _ => match op with ContextStorageState _ _ => true | _ => false end)
        (fun _ => false) (fun _ _ _ => "typed")
        (fun _ _ => "session") (fun _ => true)
        (fun _ _ => Written 3).

(** The directory of the fixture module in the samples. *)
Definition here : Path := ["project"; "fixtures"].

(** A world with no state file, at time [5000]. *)
Definition bare : World := mkWorld ∅ 5000 ∅ ∅ 0 [].

(** A world whose state file was written at [t0], seen at time [t]. *)
Definition saved (t0 t : Z) : World :=
  mkWorld {[ STORAGE_STATE_PATH here := File t0 "old" ]} t ∅ ∅ 0 [].

(** A world whose state path is a directory, stamped [t0], seen at [t]. *)
Definition blocked (t0 t : Z) : World :=
  mkWorld {[ STORAGE_STATE_PATH here := Dir t0 ]} t ∅ ∅ 0 [].

(** A world with the project directory, the state directory in it and,
    there, the state file written at [t0], seen at time [t]. *)
Definition settled (t0 t : Z) : World :=
  mkWorld {[ ["project"] := Dir 0;
             ["project"; ".auth"] := Dir t0;
             ["project"; ".auth"; "user.json"] := File t0 "old" ]} t ∅ ∅ 0 [].

(** The same with a directory where the state file should be. *)
Definition occupied (t0 t : Z) : World :=
  mkWorld {[ ["project"] := Dir 0;
             ["project"; ".auth"] := Dir t0;
             ["project"; ".auth"; "user.json"] := Dir t0 ]} t ∅ ∅ 0 [].

(** A world with no state file, in which a regular file sits where the
    state directory should be. *)
Definition walled : World :=
  mkWorld {[ ["project"] := Dir 0;
             ["project"; ".auth"] := File 0 "notes" ]} 5000 ∅ ∅ 0 [].

(** ** Specification-side definitions *)

(** The spec's [isStale(path, maxAge, now)], on the entry found at the
    path: stale when there is none or when it is older than [maxAge]. *)
Definition isStale (entry : option Node) (maxAge t : Z) : bool :=
  match entry with
  | None => true
  | Some n => maxAge <? t - mtimeMs n
  end.

(** An access error met by the staleness check: by [existsSync], or by
    [statSync] after it. *)
Definition accessDenied (E : Env) (p : Path) (w : World) : bool :=
  throws E (ExistsSync p) w ||
  throws E (StatSync p) (log (ExistsSync p) (Bool true) w).

(** Whether [clearAuthState] gets to remove the entry at [p]: it is seen,
    it is a file, and [unlinkSync] meets no access error. *)
Definition unlinked (E : Env) (p : Path) (w : World) : bool :=
  negb (throws E (ExistsSync p) w) && isFile (fs w !! p) &&
  negb (throws E (UnlinkSync p) (log (ExistsSync p) (Bool true) w)).


(** The calls that do not hand anything to a test. *)
Definition notUse (op : Op) : bool :=
  match op with
  | Use _ _ => false
  | _ => true
  end.

(** The log of the [page] fixture from the moment it opens the context
    it hands out: the context [c] is opened from the state file at [p], the
    page [k] is opened in it, the test runs with verdict [v], and [c] is
    closed with outcome [rc]. *)
Definition page_run (p : Path) (c k : nat) (v rc : Res) : list (Op * Res) :=
  [ (NewContext (Some p), Num (Z.of_nat c));
    (ContextNewPage c, Num (Z.of_nat k));
    (Use c (Some (mkPage c k)), v);
    (ContextClose c, rc) ].

(** The same for the [authenticatedContext] fixture. *)
Definition context_run (p : Path) (c : nat) (v rc : Res) : list (Op * Res) :=
  [ (NewContext (Some p), Num (Z.of_nat c));
    (Use c None, v);
    (ContextClose c, rc) ].

(** The log of a regeneration from the moment the setup context [c] is
    opened: the page [k], the calls [l] of [setupAuthState] after its
    entry, and the closing of [c]. *)
Definition setup_run (c k : nat) (l : list (Op * Res)) (rc : Res)
    : list (Op * Res) :=
  [ (NewContext None, Num (Z.of_nat c));
    (ContextNewPage c, Num (Z.of_nat k));
    (Invoke "setupAuthState", Done) ] ++ l ++ [ (ContextClose c, rc) ].

(** A value was handed to a test. *)
Definition used (l : list (Op * Res)) : Prop :=
  Exists (fun ev => notUse ev.1 = false) l.

(** The runs of [ensureFresh], case by case. *)
Inductive ensureFresh_run (E : Env) (d : Path) (w : World)
    : (error + unit) * World → Prop :=
| run_fresh w1 :
    missingOrStale E d w = (inr false, w1) →
    ensureFresh_run E d w (inr tt, w1)
| run_no_context w1 w2 e w3 :
    missingOrStale E d w = (inr true, w1) →
    clearAuthState E d w1 = (inr tt, w2) →
    newContext E None w2 = (inl e, w3) →
    ensureFresh_run E d w (inl e, w3)
| run_no_page w1 w2 c w3 e w4 :
    missingOrStale E d w = (inr true, w1) →
    clearAuthState E d w1 = (inr tt, w2) →
    newContext E None w2 = (inr c, w3) →
    newPage E c w3 = (inl e, w4) →
    ensureFresh_run E d w (inl e, w4)
| run_setup w1 w2 c w3 pg w4 r w5 rc w6 :
    missingOrStale E d w = (inr true, w1) →
    clearAuthState E d w1 = (inr tt, w2) →
    newContext E None w2 = (inr c, w3) →
    newPage E c w3 = (inr pg, w4) →
    page_context pg = c →
    setupAuthState E d pg w4 = (r, w5) →
    closeContext E c w5 = (rc, w6) →
    ensureFresh_run E d w
      (match rc with inl e => inl e | inr _ => r end, w6).

(** The invariant of the cache directory: the only file under the
    directory of the state path is the one at the state path. *)
Definition one_state_file (d : Path) (w : World) : Prop :=
  ∀ q, path_dirname (STORAGE_STATE_PATH d) `prefix_of` q →
       isFile (fs w !! q) = true → q = STORAGE_STATE_PATH d.

(** The operations of the session cache. *)
Inductive CacheOp :=
| IsStale
| Invalidate
| Regenerate (page : Page)
| EnsureFresh
| AcquirePage
| AcquireContext.

(** The world an operation of the cache leaves, however it ends. *)
Definition run_op (E : Env) (d : Path) (o : CacheOp) (w : World) : World :=
  match o with
  | IsStale => (isAuthStateStale E d w).2
  | Invalidate => (clearAuthState E d w).2
  | Regenerate page => (setupAuthState E d page w).2
  | EnsureFresh => (ensureFresh E d w).2
  | AcquirePage => (page_fixture E d w).2
  | AcquireContext => (authenticatedContext_fixture E d w).2
  end.

(** The log of [n] attempts of [fillWithRetry] in which [fill] went
    through and the field read back something other than [value]. *)
Inductive failed_fills (page : Page) (selector value : string)
    : nat → list (Op * Res) → Prop :=
| failed_fills_nil : failed_fills page selector value 0 []
| failed_fills_cons n s l :
    s ≠ value →
    failed_fills page selector value n l →
    failed_fills page selector value (S n)
      ((PageFill page selector value 5000, Done) ::
       (PageInputValue page selector, Str s) :: l).

(** The log of [n] attempts of [retryUntil], the first of them with the
    loop variable at [i], in each of which the action went through and the
    condition was false. *)
Fixpoint failed_attempts (maxRetries retryDelay : Z) (n : nat) (i : Z)
    : list (Op * Res) :=
  match n with
  | O => []
  | S n' =>
      [(Action, Done); (Condition, Bool false)] ++
      (if i <? maxRetries - 1 then [(SetTimeout retryDelay, Done)] else []) ++
      failed_attempts maxRetries retryDelay n' (i + 1)
  end.

(** How [retryUntil] ends when it may make [n] attempts: its outcome, the
    number of failed attempts before, and the log of the last, unfinished
    attempt. *)
Inductive retry_outcome (maxRetries : Z) (n : nat)
    : error + unit → nat → list (Op * Res) → Prop :=
| retry_met k :
    (k < n)%nat →
    retry_outcome maxRetries n (inr tt) k
      [(Action, Done); (Condition, Bool true)]
| retry_exhausted :
    retry_outcome maxRetries n (inl (JsError (not_met maxRetries))) n []
| retry_action_raised k :
    (k < n)%nat →
    retry_outcome maxRetries n (inl (Thrown Action)) k [(Action, Rejected)]
| retry_condition_raised k :
    (k < n)%nat →
    retry_outcome maxRetries n (inl (Thrown Condition)) k
      [(Action, Done); (Condition, Rejected)].

(** The calls to [setupAuthState] recorded in a log. *)
Definition isLogin (ev : Op * Res) : bool :=
  match ev.1 with
  | Invoke fn => String.eqb fn "setupAuthState"
  | _ => false
  end.

Definition logins (tr : list (Op * Res)) : nat :=
  length (List.filter isLogin tr).

(** ** Relations between the world before and after a computation *)

(** [steps R m]: whatever [m] does, and however it ends, the world it
    leaves is [R]-related to the one it started in. *)
Definition steps (R : relation World) {A} (m : M A) : Prop :=
  ∀ w, R w (m w).2.

(** The log only grows, and by calls that satisfy [P]. *)
Definition logged (P : Op → bool) : relation World := fun w w' =>
  ∃ l, trace w' = trace w ++ l ∧ Forall (fun ev => P ev.1 = true) l.

(** Nothing but the log changes. *)
Definition only_logs : relation World := fun w w' =>
  fs w' = fs w ∧ now w' = now w ∧ process_env w' = process_env w ∧
  contexts w' = contexts w ∧ next_id w' = next_id w.

(** The clock and the process environment stay as they are. *)
Definition same_clock : relation World := fun w w' =>
  now w' = now w ∧ process_env w' = process_env w.

(** The number of recorded calls to [setupAuthState] stays as it is. *)
Definition same_logins : relation World := fun w w' =>
  logins (trace w') = logins (trace w).

(** At most the entry at [p] has been removed. *)
Definition removes_at_most (p : Path) : relation World := fun w w' =>
  fs w' = fs w ∨ fs w' = delete p (fs w).

(** Away from [p] every entry is as it was, except that a missing
    directory may have been created; at [p] the entry is as it was, is
    gone, or is a file written in between, which holds a captured state
    or, when the write raised, the beginning of one. *)
Definition touches_only (E : Env) (p : Path) : relation World := fun w w' =>
  now w' = now w ∧
  (∀ q, q ≠ p →
     fs w' !! q = fs w !! q ∨
     (fs w !! q = None ∧ fs w' !! q = Some (Dir (now w)))) ∧
  (fs w' !! p = fs w !! p ∨ fs w' !! p = None ∨
   ∃ c w0 k,
     fs w' !! p = Some (File (now w) (substring 0 k (captureState E c w0)))).

(** The files and the clock stay as they are. *)
Definition same_files : relation World := fun w w' =>
  fs w' = fs w ∧ now w' = now w.

(** [m] raises nothing but what an outside call raised: no [Error] of this
    program's own. *)
Definition raises_outside_only {A} (m : M A) : Prop :=
  ∀ w e w', m w = (inl e, w') → ∃ op, e = Thrown op.

(** No outside call raises. *)
Definition cooperative (E : Env) : Prop := ∀ op w, throws E op w = false.

(** Nothing on disk stands in the way of persisting the state: the state
    path is not a directory, and no file sits where a directory of the
    path is needed. *)
Definition unobstructed (d : Path) (w : World) : Prop :=
  (∀ t, fs w !! STORAGE_STATE_PATH d ≠ Some (Dir t)) ∧
  (∀ q, q ∈ prefixes (path_dirname (STORAGE_STATE_PATH d)) →
        isFile (fs w !! q) = false).

(** Whether a log hands a value to a test is decidable. *)
#[local] Instance used_dec (l : list (Op * Res)) : Decision (used l).
Proof. unfold used. apply _. Defined.

(** ** More of the code: pages/addremovecart.page.ts *)

Module AddRemoveCartPage.

Definition url : string := "https://www.saucedemo.com/inventory.html".

Definition btn : Locator := LoginPage.data_test "add-to-cart-sauce-labs-backpack".
Definition btn1 : Locator := LoginPage.data_test "remove-sauce-labs-backpack".
Definition btn2 : Locator := LoginPage.data_test "add-to-cart-sauce-labs-bike-light".
Definition btn3 : Locator := LoginPage.data_test "remove-sauce-labs-bike-light".

Section Methods.

Context (E : Env).

Definition navigateToPage (page : Page) : M unit :=
  act E (PageGoto page url);;
  act E (PageWaitForLoadState page "domcontentloaded").

Definition loginWithCredentials (page : Page) : M unit :=
  u ← getenv "TEST_USER_ADMIN_USERNAME";
  let username := or_empty u in
  p ← getenv "TEST_USER_ADMIN_PASSWORD";
  let password := or_empty p in
  if falsy username || falsy password
  then throw (JsError "Credentials not found in environment variables")
  else
    act E (LocatorClick page btn);;
    act E (LocatorClick page btn1);;
    act E (LocatorClick page btn2);;
    act E (LocatorClick page btn3);;
    act E (PageWaitForLoadState page "networkidle").

End Methods.

End AddRemoveCartPage.

(** ** More specification-side definitions *)

(** [process.env] lacks a credential, or holds an empty one. *)
Definition credentialsMissing (w : World) : bool :=
  falsy (or_empty (process_env w !! "TEST_USER_ADMIN_USERNAME")) ||
  falsy (or_empty (process_env w !! "TEST_USER_ADMIN_PASSWORD")).

(** The log of a sequence of page actions awaited one after the other:
    each goes through, up to the first that raises, if any does. *)
Inductive acts_log : list Op → error + unit → list (Op * Res) → Prop :=
| acts_done : acts_log [] (inr tt) []
| acts_raised op ops : acts_log (op :: ops) (inl (Thrown op)) [(op, Rejected)]
| acts_next op ops r l :
    acts_log ops r l → acts_log (op :: ops) r ((op, Done) :: l).

(** The page actions of [LoginPage.loginWithCredentials], in order. *)
Definition loginPage_actions (page : Page) (password : string) : list Op :=
  [ LocatorFill page LoginPage.inputPassword password;
    LocatorClick page LoginPage.inputLogin;
    LocatorClick page LoginPage.btnLogin;
    LocatorClick page LoginPage.swagLabs;
    PageWaitForLoadState page "networkidle" ].

(** The page actions of [AddRemoveCartPage.loginWithCredentials]. *)
Definition cartPage_actions (page : Page) : list Op :=
  [ LocatorClick page AddRemoveCartPage.btn;
    LocatorClick page AddRemoveCartPage.btn1;
    LocatorClick page AddRemoveCartPage.btn2;
    LocatorClick page AddRemoveCartPage.btn3;
    PageWaitForLoadState page "networkidle" ].

(** A call that fills a field. *)
Definition isFill (op : Op) : bool :=
  match op with
  | LocatorFill _ _ _ | PageFill _ _ _ _ => true
  | _ => false
  end.

(** An environment like [calm], with both credentials set. *)
Definition signedIn : World :=
  mkWorld ∅ 5000
    {[ "TEST_USER_ADMIN_USERNAME" := "standard_user";
       "TEST_USER_ADMIN_PASSWORD" := "secret_sauce" ]} ∅ 0 [].

(** One attempt of [fillWithRetry] after which the loop goes on: the field
    read back something else, or [fill] or [inputValue] raised and the wait
    of one second went through. *)
Inductive fill_miss (page : Page) (selector value : string)
    : list (Op * Res) → Prop :=
| miss_differs s :
    s ≠ value →
    fill_miss page selector value
      [ (PageFill page selector value 5000, Done);
        (PageInputValue page selector, Str s) ]
| miss_fill_raised :
    fill_miss page selector value
      [ (PageFill page selector value 5000, Rejected);
        (PageWaitForTimeout page 1000, Done) ]
| miss_read_raised :
    fill_miss page selector value
      [ (PageFill page selector value 5000, Done);
        (PageInputValue page selector, Rejected);
        (PageWaitForTimeout page 1000, Done) ].

(** [retries] is an integer: only then is some attempt the one with the
    loop variable at [retries - 1]. *)
Definition whole (retries : Q) : bool :=
  Qeq_bool (inject_Z (Qceiling retries)) retries.

(** How [fillWithRetry] ends when it may make [n] attempts: its outcome,
    the number of attempts after which the loop went on, and the log of the
    attempt it ends in.  When [retries] is an integer ([integral]) an error
    of the last attempt is raised again; when it is a fraction no attempt is
    the last in that sense, and the error of the last attempt is swallowed
    like the others, followed by a wait. *)
Inductive fill_end (page : Page) (selector value : string)
    (integral : bool) (n : nat)
    : error + unit → nat → list (Op * Res) → Prop :=
| fill_ok k :
    (k < n)%nat →
    fill_end page selector value integral n (inr tt) k
      [ (PageFill page selector value 5000, Done);
        (PageInputValue page selector, Str value) ]
| fill_none :
    n = 0%nat → fill_end page selector value integral n (inr tt) 0 []
| fill_gave_up s :
    s ≠ value → (0 < n)%nat →
    fill_end page selector value integral n (inr tt) (pred n)
      [ (PageFill page selector value 5000, Done);
        (PageInputValue page selector, Str s) ]
| fill_last_raised :
    integral = true → (0 < n)%nat →
    fill_end page selector value integral n
      (inl (Thrown (PageFill page selector value 5000))) (pred n)
      [ (PageFill page selector value 5000, Rejected) ]
| read_last_raised :
    integral = true → (0 < n)%nat →
    fill_end page selector value integral n
      (inl (Thrown (PageInputValue page selector))) (pred n)
      [ (PageFill page selector value 5000, Done);
        (PageInputValue page selector, Rejected) ]
| fill_last_swallowed :
    integral = false → (0 < n)%nat →
    fill_end page selector value integral n (inr tt) (pred n)
      [ (PageFill page selector value 5000, Rejected);
        (PageWaitForTimeout page 1000, Done) ]
| read_last_swallowed :
    integral = false → (0 < n)%nat →
    fill_end page selector value integral n (inr tt) (pred n)
      [ (PageFill page selector value 5000, Done);
        (PageInputValue page selector, Rejected);
        (PageWaitForTimeout page 1000, Done) ]
| wait_raised_after_fill k :
    (if integral then S k < n else k < n)%nat →
    fill_end page selector value integral n
      (inl (Thrown (PageWaitForTimeout page 1000))) k
      [ (PageFill page selector value 5000, Rejected);
        (PageWaitForTimeout page 1000, Rejected) ]
| wait_raised_after_read k :
    (if integral then S k < n else k < n)%nat →
    fill_end page selector value integral n
      (inl (Thrown (PageWaitForTimeout page 1000))) k
      [ (PageFill page selector value 5000, Done);
        (PageInputValue page selector, Rejected);
        (PageWaitForTimeout page 1000, Rejected) ].

(** An environment like [calm], except that every [page.fill] raises. *)
Definition frozen : Env :=
  mkEnv (fun op _ => match op with PageFill _ _ _ _ => true | _ => false end)
        (fun _ => false) (fun _ _ _ => "typed")
        (fun _ _ => "session") (fun _ => true)
        (fun _ _ => NotStarted).

(** A directory found at [p] is still there. *)
Definition keeps_dir (p : Path) (t : Z) : relation World := fun w w' =>
  fs w !! p = Some (Dir t) → fs w' !! p = Some (Dir t).

(** The identifiers of the open contexts are below the next fresh one. *)
Definition fresh_ids (w : World) : Prop :=
  ∀ c, is_Some (contexts w !! c) → (c < next_id w)%nat.

(** The open contexts are the same, and identifiers are only consumed. *)
Definition same_contexts : relation World := fun w w' =>
  contexts w' = contexts w ∧ (next_id w ≤ next_id w')%nat.

(** Fresh identifiers stay fresh, and identifiers are only consumed. *)
Definition ids_ok : relation World := fun w w' =>
  (fresh_ids w → fresh_ids w') ∧ (next_id w ≤ next_id w')%nat.

(** An environment like [calm], except that every [newPage] raises. *)
Definition pageless : Env :=
  mkEnv (fun op _ => match op with ContextNewPage _ => true | _ => false end)
        (fun _ => false) (fun _ _ _ => "typed")
        (fun _ _ => "session") (fun _ => true)
        (fun _ _ => NotStarted).

(** [m] raises nothing but what an outside call satisfying [P] raised. *)
Definition raises_in (P : Op → bool) {A} (m : M A) : Prop :=
  ∀ w e w', m w = (inl e, w') → ∃ op, e = Thrown op ∧ P op = true.

(** The calls other than [context.newPage()] and [context.close()]. *)
Definition notScopeCall (op : Op) : bool :=
  match op with
  | ContextNewPage _ | ContextClose _ => false
  | _ => true
  end.

(** ** More of the code: clearAuthStates *)

(** [array.forEach(f)] with a callback that may raise. *)
Fixpoint forEach {A} (f : A → M unit) (l : list A) : M unit :=
  match l with
  | [] => ret tt
  | x :: rest => f x;; forEach f rest
  end.

Section ClearAuthStates.

(** [readdir m p] stands for the names [fs.readdirSync(p)] answers on the
    file system [m], in the order it answers them. *)
Context (E : Env) (readdir : gmap Path Node → Path → list string)
        (__dirname : Path).

(** [fs.readdirSync(p)] raises when [p] is not a directory or on an access
    error.  [Op] has no constructor of its own for it: it is logged under
    its name. *)
Definition readdirSync (p : Path) : M (list string) :=
  outside E (Invoke "fs.readdirSync") (fun w =>
    match fs w !! p with
    | Some (Dir _) =>
        (inr (readdir (fs w) p), log (Invoke "fs.readdirSync") Done w)
    | _ =>
        (inl (Thrown (Invoke "fs.readdirSync")),
         log (Invoke "fs.readdirSync") Rejected w)
    end).

(** The callback of [files.forEach] in [clearAuthStates]. *)
Definition clearAuthStates_each (authDir : Path) (file : string) : M unit :=
  let filePath := path_join authDir [file] in
  stats ← statSync E filePath;
  if isFile (Some stats) then unlinkSync E filePath else ret tt.

Definition clearAuthStates : M unit :=
  let authDir := path_join __dirname [".."; ".auth"] in
  ex ← existsSync E authDir;
  if (ex : bool) then
    files ← readdirSync authDir;
    forEach (clearAuthStates_each authDir) files
  else ret tt.

End ClearAuthStates.

(** A name [readdirSync] can answer: neither ["."] nor [".."]. *)
Definition plain (name : string) : Prop := name ≠ "." ∧ name ≠ "..".

(** [names] lists the entries directly under [dir] in [m], each once. *)
Definition lists_children (names : list string) (m : gmap Path Node)
    (dir : Path) : Prop :=
  NoDup names ∧ Forall plain names ∧
  ∀ name, name ∈ names ↔ is_Some (m !! (dir ++ [name])).

(** A listing for the samples: the state file alone. *)
Definition only_user_json (m : gmap Path Node) (p : Path) : list string :=
  ["user.json"].

(** A world with the state directory and the state file in it. *)
Definition housed (t0 t : Z) : World :=
  mkWorld {[ path_dirname (STORAGE_STATE_PATH here) := Dir t0;
             STORAGE_STATE_PATH here := File t0 "old" ]} t ∅ ∅ 0 [].

(** ** More of the code: formatDate (utils/helpers.ts) and isAuthenticated *)

(** The string methods the two functions call, on strings of one-byte
    characters. *)
Module JsString.

(** [s.substring(n)]. *)
Fixpoint skip (n : nat) (s : string) : string :=
  match n, s with
  | S n', String _ s' => skip n' s'
  | _, _ => s
  end.

(** [s.startsWith(pattern)]. *)
Fixpoint startsWith (pattern s : string) : bool :=
  match pattern, s with
  | EmptyString, _ => true
  | String a pattern', String b s' => Ascii.eqb a b && startsWith pattern' s'
  | String _ _, EmptyString => false
  end.

(** [s.padStart(targetLength, c)] for a filler [c] of one character: [s]
    itself when it is long enough. *)
Definition padStart (targetLength : nat) (c : ascii) (s : string) : string :=
  string_of_list_ascii (replicate (targetLength - String.length s)%nat c) +:+ s.

(** [s.replace(pattern, replacement)] for a string pattern: only the first
    occurrence, from the left, is replaced.  The special patterns of a
    replacement string all start with a dollar sign, which the replacements
    of [formatDate] (decimal numbers) do not hold. *)
Fixpoint replace (pattern replacement s : string) : string :=
  if startsWith pattern s
  then replacement +:+ skip (String.length pattern) s
  else match s with
       | EmptyString => EmptyString
       | String c s' => String c (replace pattern replacement s')
       end.

(** [s.includes(pattern)]. *)
Fixpoint includes (pattern s : string) : bool :=
  startsWith pattern s ||
  match s with
  | EmptyString => false
  | String _ s' => includes pattern s'
  end.

End JsString.

(** The local-time fields of a valid [Date]: the year, the month counted
    from 0, the day of the month. *)
Record JsDate := { getFullYear : Z; getMonth : Z; getDate : Z }.

(** [String(n)] of an integer [n] is its decimal writing, [pretty n]. *)
Definition formatDate (date : JsDate) (format : string) : string :=
  let year := getFullYear date in
  let month := JsString.padStart 2 "0" (pretty (getMonth date + 1)) in
  let day := JsString.padStart 2 "0" (pretty (getDate date)) in
  JsString.replace "DD" day
    (JsString.replace "MM" month
       (JsString.replace "YYYY" (pretty year) format)).

(** [isAuthenticated], as a function of what [page.url()] gave: [None] when
    it raised, which the [catch] turns into [false]. *)
Definition isAuthenticated (currentUrl : option string) : bool :=
  match currentUrl with
  | Some currentUrl =>
      negb (JsString.includes "/https://www.saucedemo.com/" currentUrl)
  | None => false
  end.

(** The string [s] does not hold the character [c]. *)
Fixpoint lacks (c : ascii) (s : string) : bool :=
  match s with
  | EmptyString => true
  | String a s' => negb (Ascii.eqb c a) && lacks c s'
  end.

(** ** The monad's combinators, step by step *)

Section Steps.

Context (R : relation World) `{!PreOrder R}.

Lemma steps_ret {A} (a : A) : steps R (ret a).
Proof. intros w. reflexivity. Qed.

Lemma steps_throw {A} (e : error) : steps R (@throw A e).
Proof. intros w. reflexivity. Qed.

Lemma steps_bind {A B} (m : M A) (k : A → M B) :
  steps R m → (∀ a, steps R (k a)) → steps R (m ≫= k).
Proof.
  intros Hm Hk w. unfold mbind, M_bind.
  specialize (Hm w). destruct (m w) as [[e|a] w1]; simpl in *; [done|].
  etransitivity; [exact Hm | apply Hk].
Qed.

Lemma steps_try_catch {A} (m : M A) (h : error → M A) :
  steps R m → (∀ e, steps R (h e)) → steps R (try_catch m h).
Proof.
  intros Hm Hh w. unfold try_catch.
  specialize (Hm w). destruct (m w) as [[e|a] w1]; simpl in *; [|done].
  etransitivity; [exact Hm | apply Hh].
Qed.

Lemma steps_try_finally {A} (m : M A) (f : M unit) :
  steps R m → steps R f → steps R (try_finally m f).
Proof.
  intros Hm Hf w. unfold try_finally.
  specialize (Hm w). destruct (m w) as [r w1]; simpl in *.
  specialize (Hf w1). destruct (f w1) as [[e|[]] w2]; simpl in *;
    etransitivity; eauto.
Qed.

End Steps.

(** Splits a goal [steps R m] along the structure of [m]; what is left
    are the outside calls. *)
Ltac steps_split :=
  repeat
    (first
       [ apply steps_ret
       | apply steps_throw
       | apply steps_bind
       | apply steps_try_catch
       | apply steps_try_finally
       | match goal with
         | |- steps _ (if ?b then _ else _) => destruct b
         | |- steps _ (match ?o with _ => _ end) => destruct o
         end
       | progress cbv zeta ];
     try typeclasses eauto; intros).

#[local] Instance logged_preorder (P : Op → bool) : PreOrder (logged P).
Proof.
  split.
  - intros w. exists []. by rewrite app_nil_r.
  - intros w1 w2 w3 (l1 & H1 & F1) (l2 & H2 & F2). exists (l1 ++ l2).
    split; [by rewrite H2, H1, app_assoc | by apply Forall_app].
Qed.

#[local] Instance only_logs_preorder : PreOrder only_logs.
Proof.
  split.
  - by intros w.
  - intros w1 w2 w3 (?&?&?&?&?) (?&?&?&?&?). unfold only_logs. naive_solver congruence.
Qed.

#[local] Instance same_clock_preorder : PreOrder same_clock.
Proof.
  split.
  - by intros w.
  - intros w1 w2 w3 [??] [??]. unfold same_clock. naive_solver congruence.
Qed.

#[local] Instance same_logins_preorder : PreOrder same_logins.
Proof.
  split.
  - by intros w.
  - intros w1 w2 w3 ??. unfold same_logins in *. congruence.
Qed.

#[local] Instance removes_at_most_preorder (p : Path) : PreOrder (removes_at_most p).
Proof.
  split.
  - intros w. by left.
  - intros w1 w2 w3 [H1|H1] [H2|H2]; unfold removes_at_most; rewrite H2, H1;
      rewrite ?delete_delete_eq; auto.
Qed.

#[local] Instance touches_only_preorder (E : Env) (p : Path) :
  PreOrder (touches_only E p).
Proof.
  split.
  - intros w. split; [done|]. split; auto.
  - intros w1 w2 w3 (N1 & F1 & P1) (N2 & F2 & P2).
    split; [congruence|]. split.
    + intros q Hq. specialize (F1 q Hq). specialize (F2 q Hq).
      rewrite N1 in F2.
      destruct F1 as [F1|[F1 F1']], F2 as [F2|[F2 F2']]; try congruence.
      * left. congruence.
      * right. split; congruence.
      * right. split; congruence.
    + rewrite N1 in P2.
      destruct P2 as [P2|[P2|(c & w0 & k & P2)]];
        [rewrite P2; exact P1|auto|right; right; eauto].
Qed.

(** ** The state path and its directory *)

Lemma STORAGE_STATE_PATH_eq (d : Path) :
  STORAGE_STATE_PATH d =
    removelast (fold_left normalize_step d []) ++ [".auth"; "user.json"].
Proof.
  unfold STORAGE_STATE_PATH, path_join. simpl.
  unfold normalize_step at 1 2 3. simpl. by rewrite <- app_assoc.
Qed.

Lemma authDir_eq (d : Path) :
  path_dirname (STORAGE_STATE_PATH d) =
    removelast (fold_left normalize_step d []) ++ [".auth"].
Proof.
  rewrite STORAGE_STATE_PATH_eq. unfold path_dirname.
  rewrite removelast_app by done. done.
Qed.

Lemma prefixes_length (p q : Path) :
  q ∈ prefixes p → (length q ≤ length p)%nat.
Proof.
  unfold prefixes. intros (n & -> & _)%list_elem_of_fmap.
  rewrite length_take. lia.
Qed.

Lemma STORAGE_STATE_PATH_not_prefix (d : Path) :
  STORAGE_STATE_PATH d ∉ prefixes (path_dirname (STORAGE_STATE_PATH d)).
Proof.
  intros H%prefixes_length. revert H.
  rewrite authDir_eq, STORAGE_STATE_PATH_eq, !length_app. simpl. lia.
Qed.

Lemma not_prefix_of_dirname (p : Path) : p ∉ prefixes (path_dirname p).
Proof.
  destruct p as [|a p]; [by intros ?%elem_of_nil|].
  intros H%prefixes_length. revert H. unfold path_dirname.
  assert (a :: p ≠ []) as Hne by done. revert Hne.
  generalize (a :: p). intros l Hl.
  destruct (exists_last Hl) as (l' & x & ->).
  rewrite removelast_last, length_app. simpl. lia.
Qed.

(** ** What [mkdirSync] does to the file system *)

Lemma mkdir_all_lookup (t : Z) (l : list Path) (m : gmap Path Node) (q : Path) :
  fold_left (mkdir_one t) l m !! q =
    match m !! q with
    | Some n => Some n
    | None => if bool_decide (q ∈ l) then Some (Dir t) else None
    end.
Proof.
  revert m. induction l as [|a l IH]; intros m; simpl.
  - by destruct (m !! q).
  - rewrite IH. unfold mkdir_one.
    destruct (decide (q = a)) as [->|Hne].
    + destruct (m !! a) eqn:Ha; [by rewrite Ha|].
      rewrite lookup_insert_eq. by rewrite bool_decide_eq_true_2 by left.
    + assert (bool_decide (q ∈ a :: l) = bool_decide (q ∈ l)) as ->.
      { apply bool_decide_ext. rewrite elem_of_cons.
        split; [intros [?|?]; [congruence|done] | auto]. }
      destruct (m !! a) eqn:Ha; [done|].
      by rewrite lookup_insert_ne.
Qed.

(** What [storageState] does to the file system on its way. *)
Lemma withDirs_lookup (t : Z) (p : Path) (m : gmap Path Node) (q : Path) :
  withDirs t p m !! q =
    match m !! q with
    | Some n => Some n
    | None => if bool_decide (q ∈ prefixes (path_dirname p))
              then Some (Dir t) else None
    end.
Proof. apply mkdir_all_lookup. Qed.

Lemma withDirs_at (t : Z) (p : Path) (m : gmap Path Node) :
  withDirs t p m !! p = m !! p.
Proof.
  rewrite withDirs_lookup. destruct (m !! p); [done|].
  rewrite bool_decide_eq_false_2; [done|]. apply not_prefix_of_dirname.
Qed.

Lemma substring_all (s : string) : substring 0 (String.length s) s = s.
Proof. induction s as [|a s IH]; simpl; [done|]. by rewrite IH. Qed.

(** ** The outside calls, relation by relation *)

(** Opens an outside call at a world and splits on what the oracle and the
    file system say. *)
Ltac open_call :=
  intros ?;
  unfold existsSync, statSync, unlinkSync, mkdirSync, Date_now, getenv,
    newContext, newPage, closeContext, storageState, act, pageInputValue,
    condition, sleep, use, entered, outside;
  cbv beta zeta;
  repeat case_match; simpl.

Ltac logged_tac :=
  first [ reflexivity
        | eexists [_]; split; [reflexivity | by repeat constructor] ].

Ltac only_logs_tac := by repeat split.

Ltac same_logins_tac :=
  unfold same_logins, logins; simpl;
  rewrite ?List.filter_app, ?length_app; simpl; lia.

Ltac removes_tac := first [ by left | by right ].

(** ** isAuthStateStale *)

Lemma isAuthStateStale_run (E : Env) (d : Path) (w : World) :
  let p := STORAGE_STATE_PATH d in
  ∃ w', isAuthStateStale E d w =
          (inr (accessDenied E p w ||
                isStale (fs w !! p) AUTH_STATE_MAX_AGE_MS (now w)), w').
Proof.
  intros p. unfold isAuthStateStale, accessDenied, try_catch, mbind, M_bind.
  fold p. unfold existsSync, statSync, outside, Date_now, ret. simpl.
  destruct (throws E (ExistsSync p) w) eqn:He; simpl; [eauto|].
  destruct (fs w !! p) as [n|] eqn:Hp; simpl.
  - destruct (throws E (StatSync p) _) eqn:Hs; simpl; [eauto|].
    rewrite Hp. eauto.
  - rewrite orb_true_r. eauto.
Qed.

Lemma isAuthStateStale_only_logs (E : Env) (d : Path) :
  steps only_logs (isAuthStateStale E d).
Proof. unfold isAuthStateStale. steps_split; open_call; only_logs_tac. Qed.

(** C1. The staleness check never raises and changes nothing but the log.
    It answers [true] exactly when the check met an access error, or no
    entry is at the state path, or the entry is older than the maximum age.
    In particular, for a file written at [t0] and a check that meets no
    access error, the answer is [false] at every time from [t0] to [t0] plus
    the maximum age, bounds included, and [true] at every later time. *)
Theorem isAuthStateStale_correct (E : Env) (d : Path) (w : World) :
  let p := STORAGE_STATE_PATH d in
  ∃ b w',
    isAuthStateStale E d w = (inr b, w') ∧
    only_logs w w' ∧
    (b = true ↔
       accessDenied E p w = true ∨ fs w !! p = None ∨
       ∃ n, fs w !! p = Some n ∧ now w - mtimeMs n > AUTH_STATE_MAX_AGE_MS) ∧
    (∀ t0 content,
       fs w !! p = Some (File t0 content) → accessDenied E p w = false →
       (t0 ≤ now w ≤ t0 + AUTH_STATE_MAX_AGE_MS → b = false) ∧
       (now w > t0 + AUTH_STATE_MAX_AGE_MS → b = true)).
Proof.
  intros p. destruct (isAuthStateStale_run E d w) as [w' Hrun]. fold p in Hrun.
  eexists _, w'. split; [exact Hrun|]. split.
  { pose proof (isAuthStateStale_only_logs E d w) as H. by rewrite Hrun in H. }
  split.
  - rewrite orb_true_iff. unfold isStale.
    destruct (fs w !! p) as [n|]; split.
    + intros [?|H%Z.ltb_lt]; [by left|]. right; right. exists n. split; [done|lia].
    + intros [?|[[=]|(n' & [= <-] & H)]]; [by left|]. right. apply Z.ltb_lt. lia.
    + auto.
    + auto.
  - intros t0 content -> ->. simpl. split.
    + intros H. apply Z.ltb_ge. lia.
    + intros H. apply Z.ltb_lt. lia.
Qed.

Lemma isAuthStateStale_correct_witness :
  (isAuthStateStale calm here (saved 1000 (1000 + AUTH_STATE_MAX_AGE_MS))).1
    = inr false ∧
  (isAuthStateStale calm here (saved 1000 (1001 + AUTH_STATE_MAX_AGE_MS))).1
    = inr true.
Proof.
  split.
  - destruct (isAuthStateStale_correct calm here
                (saved 1000 (1000 + AUTH_STATE_MAX_AGE_MS)))
      as (b & w' & -> & _ & _ & H).
    simpl. f_equal. apply (H 1000 "old"); [reflexivity|reflexivity|].
    simpl. unfold AUTH_STATE_MAX_AGE_MS. lia.
  - destruct (isAuthStateStale_correct calm here
                (saved 1000 (1001 + AUTH_STATE_MAX_AGE_MS)))
      as (b & w' & -> & _ & _ & H).
    simpl. f_equal. apply (H 1000 "old"); [reflexivity|reflexivity|].
    simpl. unfold AUTH_STATE_MAX_AGE_MS. lia.
Defined.

(** ** clearAuthState *)

Lemma clearAuthState_run (E : Env) (d : Path) (w : World) :
  let p := STORAGE_STATE_PATH d in
  ∃ w', clearAuthState E d w = (inr tt, w') ∧
        fs w' = (if unlinked E p w then delete p (fs w) else fs w).
Proof.
  intros p. unfold clearAuthState, unlinked, try_catch, mbind, M_bind.
  fold p. unfold existsSync, unlinkSync, outside, ret. simpl.
  destruct (throws E (ExistsSync p) w) eqn:He; simpl; [eauto|].
  destruct (fs w !! p) as [[t b|t]|] eqn:Hp; simpl.
  - destruct (throws E (UnlinkSync p) _) eqn:Hu; simpl; [eauto|].
    rewrite Hp. simpl. eauto.
  - destruct (throws E (UnlinkSync p) _) eqn:Hu; simpl; [eauto|].
    rewrite Hp. simpl. eauto.
  - eauto.
Qed.

Lemma clearAuthState_removes (E : Env) (d : Path) :
  steps (removes_at_most (STORAGE_STATE_PATH d)) (clearAuthState E d).
Proof.
  intros w. destruct (clearAuthState_run E d w) as (w' & -> & Hfs). simpl.
  destruct (unlinked _ _ _); [by right | by left].
Qed.

(** C7, as amended.  [clearAuthState] never raises.  It removes the file
    at the state path when it sees one and [unlinkSync] does not fail, and
    changes nothing in the file system otherwise: an error is swallowed and
    the entry stays.  Two calls in a row never raise and touch no other
    path; as soon as one removal goes through, or no entry was there to
    begin with, nothing is left at the path, and a call that finds nothing
    changes nothing. *)
Theorem clearAuthState_total_idempotent (E : Env) (d : Path) (w : World) :
  let p := STORAGE_STATE_PATH d in
  ∃ w1 w2,
    clearAuthState E d w = (inr tt, w1) ∧
    clearAuthState E d w1 = (inr tt, w2) ∧
    fs w1 = (if unlinked E p w then delete p (fs w) else fs w) ∧
    fs w2 = (if unlinked E p w1 then delete p (fs w1) else fs w1) ∧
    (∀ q, q ≠ p → fs w2 !! q = fs w !! q) ∧
    (fs w1 !! p = None → fs w2 = fs w1) ∧
    (fs w !! p = None ∨ unlinked E p w = true ∨ unlinked E p w1 = true →
     fs w2 !! p = None).
Proof.
  intros p.
  destruct (clearAuthState_run E d w) as (w1 & H1 & F1).
  destruct (clearAuthState_run E d w1) as (w2 & H2 & F2).
  fold p in F1, F2. exists w1, w2. do 4 (split; [done|]).
  assert (fs w1 !! p = None → fs w2 = fs w1) as Hid.
  { intros Hn. rewrite F2. destruct (unlinked E p w1); [|done]. by apply delete_id. }
  split; [|split; [done|]].
  - intros q Hq. rewrite F2, F1.
    destruct (unlinked E p w1), (unlinked E p w);
      by rewrite ?lookup_delete_ne by done.
  - intros [Hn|[Hu|Hu]].
    + rewrite F2, F1. destruct (unlinked E p w1), (unlinked E p w);
        by rewrite ?lookup_delete_eq.
    + rewrite Hu in F1. rewrite Hid; rewrite F1; apply lookup_delete_eq.
    + rewrite Hu in F2. rewrite F2. apply lookup_delete_eq.
Qed.

Lemma clearAuthState_total_idempotent_witness :
  ∃ w2, (clearAuthState calm here;; clearAuthState calm here) (saved 0 5000)
          = (inr tt, w2) ∧
        fs w2 !! STORAGE_STATE_PATH here = None.
Proof.
  destruct (clearAuthState_total_idempotent calm here (saved 0 5000))
    as (w1 & w2 & H1 & H2 & _ & _ & _ & _ & H).
  exists w2. split.
  - unfold mbind, M_bind. by rewrite H1.
  - apply H. right; left. reflexivity.
Defined.

(** C7, as stated, fails: [unlinkSync] raises, the error is swallowed, and
    after two calls the old file is still at the state path. *)
Lemma clearAuthState_file_left :
  let r := (clearAuthState locked here;; clearAuthState locked here)
             (saved 0 5000) in
  r.1 = inr tt ∧ fs r.2 !! STORAGE_STATE_PATH here = Some (File 0 "old").
Proof. vm_compute. split; reflexivity. Qed.

(** ** The fixtures' test and the fresh case *)

Lemma missingOrStale_fresh (E : Env) (d : Path) (w : World) (n : Node) :
  let p := STORAGE_STATE_PATH d in
  fs w !! p = Some n →
  now w - mtimeMs n ≤ AUTH_STATE_MAX_AGE_MS →
  (∀ w0, throws E (ExistsSync p) w0 = false) →
  (∀ w0, throws E (StatSync p) w0 = false) →
  missingOrStale E d w =
    (inr false,
     log (StatSync p) (Num (mtimeMs n))
       (log (ExistsSync p) (Bool true) (log (ExistsSync p) (Bool true) w))).
Proof.
  intros p Hn Hage He Hs.
  unfold missingOrStale, isAuthStateStale, try_catch, mbind, M_bind.
  fold p. unfold existsSync, statSync, outside, Date_now, ret. simpl.
  repeat (rewrite ?He, ?Hs, ?Hn; simpl).
  assert ((AUTH_STATE_MAX_AGE_MS <? now w - mtimeMs n) = false) as ->
    by (apply Z.ltb_ge; lia).
  done.
Qed.

(** C4. When the state file is there, is no older than the maximum age,
    and the check meets no access error, [ensureFresh] returns normally
    after exactly three calls, all of them reads ([existsSync] twice and
    [statSync] once): the file system, the clock, the environment and the
    open contexts are as before, and [setupAuthState] has not been called. *)
Theorem ensureFresh_fresh (E : Env) (d : Path) (w : World) (n : Node) :
  let p := STORAGE_STATE_PATH d in
  fs w !! p = Some n →
  now w - mtimeMs n ≤ AUTH_STATE_MAX_AGE_MS →
  (∀ w0, throws E (ExistsSync p) w0 = false) →
  (∀ w0, throws E (StatSync p) w0 = false) →
  ∃ w',
    ensureFresh E d w = (inr tt, w') ∧
    only_logs w w' ∧
    fs w' !! p = Some n ∧
    trace w' = trace w ++ [(ExistsSync p, Bool true); (ExistsSync p, Bool true);
                           (StatSync p, Num (mtimeMs n))] ∧
    logins (trace w') = logins (trace w).
Proof.
  intros p Hn Hage He Hs. eexists. split.
  { unfold ensureFresh, mbind, M_bind at 1.
    rewrite (missingOrStale_fresh E d w n) by done. reflexivity. }
  split; [done|]. split; [done|]. fold p. split.
  - simpl. by rewrite <- !app_assoc.
  - same_logins_tac.
Qed.

Lemma ensureFresh_fresh_witness :
  ∃ w', ensureFresh calm here (saved 4000 5000) = (inr tt, w') ∧
        fs w' = fs (saved 4000 5000) ∧
        logins (trace w') = 0%nat.
Proof.
  destruct (ensureFresh_fresh calm here (saved 4000 5000) (File 4000 "old"))
    as (w' & H & (Hfs & _) & _ & _ & Hl).
  - reflexivity.
  - vm_compute. discriminate.
  - reflexivity.
  - reflexivity.
  - exists w'. auto.
Defined.

(** ** The whole programs, relation by relation *)

Ltac unfold_programs :=
  unfold page_fixture, authenticatedContext_fixture, ensureFresh,
    missingOrStale, isAuthStateStale, clearAuthState, setupAuthState,
    loginProcedure, persistState, LoginPage.navigateToPage.

Ltac steps_by tac := unfold_programs; steps_split; open_call; tac.

Ltac same_clock_tac := by split.

Lemma ensureFresh_same_clock (E : Env) (d : Path) :
  steps same_clock (ensureFresh E d).
Proof. steps_by same_clock_tac. Qed.

Lemma touches_log E p w op r w' :
  touches_only E p w w' → touches_only E p w (log op r w').
Proof. by intros (?&?&?). Qed.

Lemma touches_delete E p w :
  touches_only E p w (set_fs (delete p) w).
Proof.
  split; [done|]. split; simpl.
  - intros q Hq. left. by rewrite lookup_delete_ne.
  - right; left. apply lookup_delete_eq.
Qed.

Lemma touches_dirs E p w :
  touches_only E p w (set_fs (withDirs (now w) p) w).
Proof.
  split; [done|]. split; simpl.
  - intros q Hq. rewrite withDirs_lookup.
    destruct (fs w !! q); [by left|]. case_bool_decide; [by right | by left].
  - left. apply withDirs_at.
Qed.

Lemma touches_written E p w c k :
  touches_only E p w
    (set_fs (fun m => <[p := File (now w) (substring 0 k (captureState E c w))]>
                        (withDirs (now w) p m)) w).
Proof.
  split; [done|]. split; simpl.
  - intros q Hq. rewrite lookup_insert_ne by done. rewrite withDirs_lookup.
    destruct (fs w !! q); [by left|]. case_bool_decide; [by right | by left].
  - right; right. exists c, w, k. apply lookup_insert_eq.
Qed.

Lemma touches_written_all E p w c :
  touches_only E p w
    (set_fs (fun m => <[p := File (now w) (captureState E c w)]>
                        (withDirs (now w) p m)) w).
Proof.
  pose proof (touches_written E p w c (String.length (captureState E c w))) as H.
  by rewrite substring_all in H.
Qed.

Lemma touches_mkdir E d w :
  let p := STORAGE_STATE_PATH d in
  touches_only E p w
    (set_fs (fun m => fold_left (mkdir_one (now w)) (prefixes (path_dirname p)) m) w).
Proof.
  intros p. split; [done|]. split; simpl.
  - intros q Hq. rewrite mkdir_all_lookup.
    destruct (fs w !! q); [by left|]. case_bool_decide; [by right | by left].
  - left. rewrite mkdir_all_lookup.
    destruct (fs w !! p); [done|].
    rewrite bool_decide_eq_false_2; [done|]. apply STORAGE_STATE_PATH_not_prefix.
Qed.

Lemma touches_contexts E p w f : touches_only E p w (set_contexts f w).
Proof. split; [done|]. split; auto. Qed.

Lemma touches_bump E p w w' :
  touches_only E p w w' → touches_only E p w (bump_id w').
Proof. by intros (?&?&?). Qed.

Ltac touches_tac :=
  repeat first [ apply touches_log | apply touches_bump ];
  first [ reflexivity | apply touches_delete | apply touches_written
        | apply touches_written_all | apply touches_dirs
        | apply touches_mkdir | apply touches_contexts ].

Lemma ensureFresh_touches (E : Env) (d : Path) :
  steps (touches_only E (STORAGE_STATE_PATH d)) (ensureFresh E d).
Proof. steps_by touches_tac. Qed.

Lemma missingOrStale_only_logs (E : Env) (d : Path) :
  steps only_logs (missingOrStale E d).
Proof. steps_by only_logs_tac. Qed.

Lemma missingOrStale_total (E : Env) (d : Path) (w : World) :
  ∃ b w1, missingOrStale E d w = (inr b, w1).
Proof.
  unfold missingOrStale, mbind, M_bind, existsSync. simpl.
  destruct (negb _); [unfold ret; eauto|].
  destruct (isAuthStateStale_run E d (log (ExistsSync (STORAGE_STATE_PATH d))
              (Bool (negb (throws E (ExistsSync (STORAGE_STATE_PATH d)) w) &&
                     bool_decide (is_Some (fs w !! STORAGE_STATE_PATH d)))) w))
    as [w1 ->].
  eauto.
Qed.

(** Absent or too old: the test of the fixtures is true, whatever the
    oracle says. *)
Lemma missingOrStale_stale (E : Env) (d : Path) (w : World) :
  isStale (fs w !! STORAGE_STATE_PATH d) AUTH_STATE_MAX_AGE_MS (now w) = true →
  ∃ w1, missingOrStale E d w = (inr true, w1).
Proof.
  intros Hst. unfold missingOrStale, mbind, M_bind, existsSync. simpl.
  destruct (negb _); [unfold ret; eauto|].
  match goal with |- context [isAuthStateStale E d ?w0] =>
    destruct (isAuthStateStale_run E d w0) as [w1 ->]; simpl in * end.
  rewrite Hst, orb_true_r. eauto.
Qed.

Lemma ensureFresh_anatomy (E : Env) (d : Path) (w : World) :
  ensureFresh_run E d w (ensureFresh E d w).
Proof.
  destruct (missingOrStale_total E d w) as (b & w1 & H1).
  destruct b.
  - destruct (clearAuthState_run E d w1) as (w2 & H2 & _).
    destruct (newContext E None w2) as [[e|c] w3] eqn:H3.
    { replace (ensureFresh E d w) with (@inl error unit e, w3).
      - eapply run_no_context; eauto.
      - unfold ensureFresh, mbind, M_bind. by rewrite H1, H2, H3. }
    destruct (newPage E c w3) as [[e|pg] w4] eqn:H4.
    { replace (ensureFresh E d w) with (@inl error unit e, w4).
      - eapply run_no_page; eauto.
      - unfold ensureFresh, mbind, M_bind. by rewrite H1, H2, H3, H4. }
    destruct (setupAuthState E d pg w4) as [r w5] eqn:H5.
    destruct (closeContext E c w5) as [rc w6] eqn:H6.
    replace (ensureFresh E d w)
      with (match rc with inl e => inl e | inr _ => r end, w6).
    + eapply run_setup; eauto.
      revert H4. unfold newPage, outside. case_match; [done|]. by intros [= <- _].
    + unfold ensureFresh, mbind, M_bind. rewrite H1, H2, H3, H4.
      unfold try_finally. rewrite H5, H6. by destruct rc as [?|[]].
  - replace (ensureFresh E d w) with (@inr error unit tt, w1).
    + by apply run_fresh.
    + unfold ensureFresh, mbind, M_bind. by rewrite H1.
Qed.

Lemma steps_run (R : relation World) {A} (m : M A) (w w' : World) (r : error + A) :
  steps R m → m w = (r, w') → R w w'.
Proof. intros H Heq. specialize (H w). by rewrite Heq in H. Qed.

(** Chains [R] from the world a run started in to the one it left. *)
Ltac along H tac :=
  etransitivity; [eapply steps_run; [|exact H]; steps_by tac|].

(** *** The calls to [setupAuthState] *)

Lemma missingOrStale_same_logins (E : Env) (d : Path) :
  steps same_logins (missingOrStale E d).
Proof. steps_by same_logins_tac. Qed.

Lemma clearAuthState_same_logins (E : Env) (d : Path) :
  steps same_logins (clearAuthState E d).
Proof. steps_by same_logins_tac. Qed.

Lemma newContext_same_logins (E : Env) (o : option Path) :
  steps same_logins (newContext E o).
Proof. steps_by same_logins_tac. Qed.

Lemma newPage_same_logins (E : Env) (c : nat) :
  steps same_logins (newPage E c).
Proof. steps_by same_logins_tac. Qed.

Lemma closeContext_same_logins (E : Env) (c : nat) :
  steps same_logins (closeContext E c).
Proof. steps_by same_logins_tac. Qed.

Lemma use_same_logins (E : Env) (c : nat) (pg : option Page) :
  steps same_logins (use E c pg).
Proof. steps_by same_logins_tac. Qed.

Lemma loginProcedure_same_logins (E : Env) (pg : Page) :
  steps same_logins (loginProcedure E pg).
Proof. steps_by same_logins_tac. Qed.

Lemma persistState_same_logins (E : Env) (d : Path) (pg : Page) :
  steps same_logins (persistState E d pg).
Proof. steps_by same_logins_tac. Qed.

Lemma setupAuthState_run (E : Env) (d : Path) (pg : Page) (w : World) :
  setupAuthState E d pg w =
    match loginProcedure E pg (log (Invoke "setupAuthState") Done w) with
    | (inl e, w1) => (inl e, w1)
    | (inr _, w1) => persistState E d pg w1
    end.
Proof.
  unfold setupAuthState, mbind, M_bind at 1 2. simpl.
  by destruct (loginProcedure E pg _) as [[e|[]] w1].
Qed.

Lemma setupAuthState_logins (E : Env) (d : Path) (pg : Page) (w : World) :
  logins (trace (setupAuthState E d pg w).2) = S (logins (trace w)).
Proof.
  rewrite setupAuthState_run.
  set (w0 := log (Invoke "setupAuthState") Done w).
  assert (logins (trace w0) = S (logins (trace w))) as <-.
  { unfold w0, logins. simpl. rewrite List.filter_app, length_app. simpl. lia. }
  destruct (loginProcedure E pg w0) as [[e|[]] w1] eqn:H1.
  - exact (steps_run _ _ _ _ _ (loginProcedure_same_logins E pg) H1).
  - pose proof (steps_run _ _ _ _ _ (loginProcedure_same_logins E pg) H1) as L1.
    pose proof (persistState_same_logins E d pg w1) as L2.
    unfold same_logins in *. by rewrite L2.
Qed.

(** *** What a successful [persistState] leaves at the state path *)

Lemma persistState_same_clock (E : Env) (d : Path) (pg : Page) :
  steps same_clock (persistState E d pg).
Proof. steps_by same_clock_tac. Qed.

Lemma setupAuthState_same_clock (E : Env) (d : Path) (pg : Page) :
  steps same_clock (setupAuthState E d pg).
Proof. steps_by same_clock_tac. Qed.

Lemma storageState_inr (E : Env) (c : nat) (p : Path) (w w' : World) :
  storageState E c p w = (inr tt, w') →
  canWrite (fs w) p = true ∧
  fs w' = <[p := File (now w) (captureState E c w)]> (withDirs (now w) p (fs w)).
Proof.
  unfold storageState. cbv zeta. repeat case_match; try done; by intros [= <-].
Qed.

Lemma persistState_inr (E : Env) (d : Path) (pg : Page) (w w' : World) :
  persistState E d pg w = (inr tt, w') →
  ∃ w0, fs w' !! STORAGE_STATE_PATH d =
          Some (File (now w) (captureState E (page_context pg) w0)).
Proof.
  unfold persistState, mbind, M_bind. cbv zeta.
  destruct (existsSync E _ w) as [[e|ex] w1] eqn:H1; [done|].
  assert (same_clock w w1) as [N1 _].
  { eapply steps_run; [|exact H1]. steps_by same_clock_tac. }
  destruct ((if negb ex then mkdirSync E _ else ret tt) w1) as [[e|[]] w2] eqn:H2;
    [done|].
  assert (same_clock w1 w2) as [N2 _].
  { eapply steps_run; [|exact H2]. steps_by same_clock_tac. }
  intros [_ H3]%storageState_inr. exists w2.
  by rewrite H3, lookup_insert_eq, N2, N1.
Qed.

#[local] Instance same_files_preorder : PreOrder same_files.
Proof.
  split.
  - by intros w.
  - intros w1 w2 w3 [??] [??]. unfold same_files. split; congruence.
Qed.

Ltac same_files_tac := by split.

Lemma closeContext_same_files (E : Env) (c : nat) :
  steps same_files (closeContext E c).
Proof. steps_by same_files_tac. Qed.

Lemma missingOrStale_stale_true (E : Env) (d : Path) (w w1 : World) (b : bool) :
  isStale (fs w !! STORAGE_STATE_PATH d) AUTH_STATE_MAX_AGE_MS (now w) = true →
  missingOrStale E d w = (inr b, w1) → b = true.
Proof.
  intros Hst Hm. destruct (missingOrStale_stale E d w Hst) as [w1' H]. congruence.
Qed.

(** ** A regeneration that goes through *)

Lemma loginProcedure_returns (E : Env) (pg : Page) (w : World) :
  cooperative E → ∃ w', loginProcedure E pg w = (inr tt, w').
Proof.
  intros C. unfold loginProcedure, LoginPage.navigateToPage, mbind, M_bind,
    act, getenv, outside. simpl. repeat (rewrite C; simpl). eauto.
Qed.

Lemma no_file_above (m : gmap Path Node) (dir : Path) :
  (∀ q, q ∈ prefixes dir → isFile (m !! q) = false) →
  existsb (fun q => isFile (m !! q)) (prefixes dir) = false.
Proof.
  intros Hp. apply not_true_is_false. intros (q & Hin & Hq)%existsb_exists.
  apply list_elem_of_In in Hin. specialize (Hp q Hin). congruence.
Qed.

Lemma canWrite_unobstructed (m : gmap Path Node) (p : Path) :
  (∀ t, m !! p ≠ Some (Dir t)) →
  (∀ q, q ∈ prefixes (path_dirname p) → isFile (m !! q) = false) →
  canWrite m p = true.
Proof.
  intros Hd Hp. unfold canWrite, canMkdir. rewrite (no_file_above m _ Hp). simpl.
  destruct (m !! p) as [[t b|t]|]; try done. by destruct (Hd t).
Qed.

Lemma persistState_returns (E : Env) (d : Path) (pg : Page) (w : World) :
  cooperative E → unobstructed d w →
  ∃ w', persistState E d pg w = (inr tt, w').
Proof.
  intros C [Hd Hp]. unfold persistState, mbind, M_bind. cbv zeta.
  set (p := STORAGE_STATE_PATH d) in *.
  unfold existsSync at 1. simpl. rewrite C. simpl.
  set (w1 := log (ExistsSync (path_dirname p)) _ w).
  assert (∃ w2, (if negb (bool_decide (is_Some (fs w !! path_dirname p)))
                 then mkdirSync E (path_dirname p) else ret tt) w1 = (inr tt, w2) ∧
                fs w2 !! p = fs w !! p ∧
                ∀ q, q ∈ prefixes (path_dirname p) → isFile (fs w2 !! q) = false)
    as (w2 & -> & Hw2 & Hp2).
  { destruct (negb _).
    - unfold mkdirSync, outside. rewrite C.
      rewrite (no_file_above (fs w1) _ Hp).
      eexists. split; [reflexivity|]. simpl. split.
      + rewrite mkdir_all_lookup. destruct (fs w !! p); [done|].
        rewrite bool_decide_eq_false_2; [done|]. apply STORAGE_STATE_PATH_not_prefix.
      + intros q Hq. rewrite mkdir_all_lookup. specialize (Hp q Hq).
        destruct (fs w !! q); [done|]. by case_bool_decide.
    - eexists. split; [reflexivity|]. done. }
  unfold storageState. cbv zeta. rewrite C.
  rewrite canWrite_unobstructed; [eauto| |done].
  intros t. rewrite Hw2. apply Hd.
Qed.

Lemma ensureFresh_returns (E : Env) (d : Path) (w : World) :
  cooperative E → unobstructed d w →
  ∃ w', ensureFresh E d w = (inr tt, w').
Proof.
  intros C U.
  pose proof (ensureFresh_anatomy E d w) as Hr.
  inversion Hr as [w1 H1 Heq|w1 w2 e w3 H1 H2 H3 Heq
                   |w1 w2 c w3 e w4 H1 H2 H3 H4 Heq
                   |w1 w2 c w3 pg w4 r5 w5 rc w6 H1 H2 H3 H4 Hc H5 H6 Heq].
  - eauto.
  - revert H3. unfold newContext, outside. by rewrite C.
  - revert H4. unfold newPage, outside. by rewrite C.
  - assert (rc = inr tt) as ->.
    { revert H6. unfold closeContext, outside. rewrite C. by intros [= <- _]. }
    assert (r5 = inr tt) as ->; [|eauto].
    rewrite setupAuthState_run in H5.
    destruct (loginProcedure_returns E pg (log (Invoke "setupAuthState") Done w4) C)
      as [wl Hl].
    rewrite Hl in H5.
    destruct (persistState_returns E d pg wl C) as [w5' H5']; [|congruence].
    assert (same_files w2 wl) as [Fl _].
    { along H3 same_files_tac. along H4 same_files_tac.
      etransitivity; [|eapply steps_run; [|exact Hl]; steps_by same_files_tac].
      by split. }
    pose proof (steps_run _ _ _ _ _ (missingOrStale_only_logs E d) H1) as (F1 & _).
    pose proof (steps_run _ _ _ _ _ (clearAuthState_removes E d) H2) as F2.
    destruct U as [Ud Up]. unfold unobstructed. rewrite Fl.
    destruct F2 as [-> | ->]; rewrite F1.
    + done.
    + split.
      * intros t. by rewrite lookup_delete_eq.
      * intros q Hq. destruct (decide (q = STORAGE_STATE_PATH d)) as [->|Hne].
        -- by rewrite lookup_delete_eq.
        -- rewrite lookup_delete_ne by done. by apply Up.
Qed.

(** ** Regeneration *)

Lemma newContext_inl (E : Env) (o : option Path) (w w' : World) (e : error) :
  newContext E o w = (inl e, w') → e = Thrown (NewContext o).
Proof. unfold newContext, outside. repeat case_match; by intros [= <-]. Qed.

Lemma newPage_inl (E : Env) (c : nat) (w w' : World) (e : error) :
  newPage E c w = (inl e, w') → e = Thrown (ContextNewPage c).
Proof. unfold newPage, outside. repeat case_match; by intros [= <-]. Qed.

Lemma closeContext_inl (E : Env) (c : nat) (w w' : World) (e : error) :
  closeContext E c w = (inl e, w') → e = Thrown (ContextClose c).
Proof. unfold closeContext, outside. repeat case_match; by intros [= <-]. Qed.

(** C3, as amended.  From a state that is absent or older than the
    maximum age, [ensureFresh] calls [setupAuthState] at most once, and
    exactly once unless opening the setup context or its page raised.  It
    returns normally when no outside call raises and nothing on disk is in
    the way of the state file, and whenever it returns normally it has
    called [setupAuthState] exactly once and has left at the state path a
    file stamped with the current time: the staleness check that follows,
    at once or at any time up to the maximum age later, answers [false]
    unless it meets an access error of its own. *)
Theorem ensureFresh_regenerates (E : Env) (d : Path) (w w' : World)
    (r : error + unit) :
  let p := STORAGE_STATE_PATH d in
  isStale (fs w !! p) AUTH_STATE_MAX_AGE_MS (now w) = true →
  ensureFresh E d w = (r, w') →
  (logins (trace w') ≤ S (logins (trace w)))%nat ∧
  (r ≠ inl (Thrown (NewContext None)) →
   (∀ c, r ≠ inl (Thrown (ContextNewPage c))) →
   logins (trace w') = S (logins (trace w))) ∧
  (cooperative E → unobstructed d w → r = inr tt) ∧
  (r = inr tt →
   logins (trace w') = S (logins (trace w)) ∧
   now w' = now w ∧
   (∃ content, fs w' !! p = Some (File (now w) content)) ∧
   (accessDenied E p w' = false →
    ∃ w'', isAuthStateStale E d w' = (inr false, w'')) ∧
   (∀ t, t ≤ now w + AUTH_STATE_MAX_AGE_MS →
         accessDenied E p (set_now t w') = false →
         ∃ w'', isAuthStateStale E d (set_now t w') = (inr false, w''))).
Proof.
  intros p Hst Hrun.
  cut ((logins (trace w') ≤ S (logins (trace w)))%nat ∧
       (r ≠ inl (Thrown (NewContext None)) →
        (∀ c, r ≠ inl (Thrown (ContextNewPage c))) →
        logins (trace w') = S (logins (trace w))) ∧
       (r = inr tt →
        logins (trace w') = S (logins (trace w)) ∧
        now w' = now w ∧
        (∃ content, fs w' !! p = Some (File (now w) content)) ∧
        (accessDenied E p w' = false →
         ∃ w'', isAuthStateStale E d w' = (inr false, w'')) ∧
        (∀ t, t ≤ now w + AUTH_STATE_MAX_AGE_MS →
              accessDenied E p (set_now t w') = false →
              ∃ w'', isAuthStateStale E d (set_now t w') = (inr false, w'')))).
  { intros (H1 & H2 & H3). split; [exact H1|]. split; [exact H2|].
    split; [|exact H3].
    intros C U. destruct (ensureFresh_returns E d w C U) as [w0 H0]. congruence. }
  pose proof (ensureFresh_anatomy E d w) as Hr. rewrite Hrun in Hr.
  inversion Hr as [w1 H1|w1 w2 e w3 H1 H2 H3|w1 w2 c w3 e w4 H1 H2 H3 H4
                   |w1 w2 c w3 pg w4 r5 w5 rc w6 H1 H2 H3 H4 Hc H5 H6]; subst.
  - by pose proof (missingOrStale_stale_true E d w _ _ Hst H1).
  - pose proof (steps_run _ _ _ _ _ (missingOrStale_same_logins E d) H1) as L1.
    pose proof (steps_run _ _ _ _ _ (clearAuthState_same_logins E d) H2) as L2.
    pose proof (steps_run _ _ _ _ _ (newContext_same_logins E None) H3) as L3.
    unfold same_logins in *. split; [lia|]. split; [|done].
    intros Hn _. apply newContext_inl in H3. by subst e.
  - pose proof (steps_run _ _ _ _ _ (missingOrStale_same_logins E d) H1) as L1.
    pose proof (steps_run _ _ _ _ _ (clearAuthState_same_logins E d) H2) as L2.
    pose proof (steps_run _ _ _ _ _ (newContext_same_logins E None) H3) as L3.
    pose proof (steps_run _ _ _ _ _ (newPage_same_logins E _) H4) as L4.
    unfold same_logins in *. split; [lia|]. split; [|done].
    intros _ Hn. apply newPage_inl in H4. subst e. by destruct (Hn c).
  - pose proof (steps_run _ _ _ _ _ (missingOrStale_same_logins E d) H1) as L1.
    pose proof (steps_run _ _ _ _ _ (clearAuthState_same_logins E d) H2) as L2.
    pose proof (steps_run _ _ _ _ _ (newContext_same_logins E None) H3) as L3.
    pose proof (steps_run _ _ _ _ _ (newPage_same_logins E _) H4) as L4.
    pose proof (setupAuthState_logins E d pg w4) as L5. rewrite H5 in L5.
    pose proof (steps_run _ _ _ _ _ (closeContext_same_logins E _) H6) as L6.
    unfold same_logins in *. simpl in L5.
    assert (logins (trace w') = S (logins (trace w))) as Hl by lia.
    split; [lia|]. split; [done|]. intros Hok. split; [done|].
    destruct rc as [e|[]]; [done|]. subst r5.
    pose proof (steps_run _ _ _ _ _ (ensureFresh_same_clock E d) Hrun) as [N _].
    split; [done|].
    assert (∃ content, fs w' !! p = Some (File (now w) content)) as [content Hf].
    { rewrite setupAuthState_run in H5.
      destruct (loginProcedure E pg _) as [[e|[]] wl] eqn:Hl5; [done|].
      pose proof (steps_run _ _ _ _ _ (persistState_same_clock E d pg) H5) as [N5 _].
      apply persistState_inr in H5 as [w0 H5].
      pose proof (steps_run _ _ _ _ _ (closeContext_same_files E _) H6) as [F6 N6].
      exists (captureState E (page_context pg) w0).
      rewrite F6. fold p in H5. rewrite H5. do 2 f_equal. congruence. }
    split; [eauto|].
    assert (∀ t, t ≤ now w + AUTH_STATE_MAX_AGE_MS →
              accessDenied E p (set_now t w') = false →
              ∃ w'', isAuthStateStale E d (set_now t w') = (inr false, w'')) as Hall.
    { intros t Ht Ha.
      destruct (isAuthStateStale_run E d (set_now t w')) as [w'' Hs].
      fold p in Hs. rewrite Ha in Hs. simpl in Hs. rewrite Hf in Hs. simpl in Hs.
      exists w''. rewrite Hs. do 2 f_equal. apply Z.ltb_ge. lia. }
    split; [|done].
    intros Ha. specialize (Hall (now w')).
    assert (set_now (now w') w' = w') as Heq by (by destruct w').
    rewrite Heq in Hall. apply Hall; [|done]. rewrite N. unfold AUTH_STATE_MAX_AGE_MS. lia.
Qed.

Lemma ensureFresh_regenerates_witness :
  let w' := (ensureFresh calm here bare).2 in
  logins (trace w') = 1%nat ∧
  ∃ w'', isAuthStateStale calm here w' = (inr false, w'').
Proof.
  intros w'.
  destruct (ensureFresh_regenerates calm here bare w' (ensureFresh calm here bare).1)
    as (_ & _ & Hret & H).
  - reflexivity.
  - unfold w'. by destruct (ensureFresh calm here bare).
  - assert ((ensureFresh calm here bare).1 = inr tt) as Hok.
    { apply Hret.
      - by intros op w.
      - split.
        + intros t. change (fs bare) with (∅ : gmap Path Node). by rewrite lookup_empty.
        + intros q _. change (fs bare) with (∅ : gmap Path Node). by rewrite lookup_empty. }
    destruct (H Hok) as (Hl & _ & _ & Hs & _). split; [exact Hl|].
    apply Hs. vm_compute. reflexivity.
Defined.

(** C3, as stated, fails on file system states in which the state cannot
    be persisted, though no outside call fails for a reason of its own.
    With a directory at the state path that is older than the maximum age,
    and with a regular file where the directory of the state path should
    be, the state is stale or absent, [ensureFresh] calls [setupAuthState]
    once, raises what [storageState] raised, and the staleness check right
    after it still answers [true]. *)
Lemma ensureFresh_stays_stale :
  let p := STORAGE_STATE_PATH here in
  let r1 := ensureFresh calm here (occupied 0 9000000) in
  let r2 := ensureFresh calm here walled in
  (isStale (fs (occupied 0 9000000) !! p) AUTH_STATE_MAX_AGE_MS 9000000 = true ∧
   r1.1 = inl (Thrown (ContextStorageState 0 p)) ∧
   logins (trace r1.2) = 1%nat ∧
   (isAuthStateStale calm here r1.2).1 = inr true) ∧
  (isStale (fs walled !! p) AUTH_STATE_MAX_AGE_MS 5000 = true ∧
   r2.1 = inl (Thrown (ContextStorageState 0 p)) ∧
   logins (trace r2.2) = 1%nat ∧
   (isAuthStateStale calm here r2.2).1 = inr true).
Proof. vm_compute. repeat split; reflexivity. Qed.

(** ** A login that raises *)

Lemma fixtures_after_failure (E : Env) (d : Path) (w w' : World) (e : error) :
  ensureFresh E d w = (inl e, w') →
  page_fixture E d w = (inl e, w') ∧
  authenticatedContext_fixture E d w = (inl e, w').
Proof.
  intros H. unfold page_fixture, authenticatedContext_fixture, mbind, M_bind.
  by rewrite H.
Qed.




(** ** Release of the contexts *)

Lemma newContext_inr (E : Env) (o : option Path) (w w' : World) (c : nat) :
  newContext E o w = (inr c, w') →
  trace w' = trace w ++ [(NewContext o, Num (Z.of_nat c))].
Proof.
  unfold newContext, outside. repeat case_match; try done; by intros [= <- <-].
Qed.

Lemma newPage_inr (E : Env) (c : nat) (w w' : World) (pg : Page) :
  newPage E c w = (inr pg, w') →
  page_context pg = c ∧
  trace w' = trace w ++ [(ContextNewPage c, Num (Z.of_nat (page_no pg)))].
Proof.
  unfold newPage, outside. repeat case_match; try done; by intros [= <- <-].
Qed.

Lemma closeContext_trace (E : Env) (c : nat) (w w' : World) (r : error + unit) :
  closeContext E c w = (r, w') →
  ∃ rc, trace w' = trace w ++ [(ContextClose c, rc)].
Proof.
  unfold closeContext, outside. repeat case_match; intros [= <- <-]; simpl; eauto.
Qed.

Lemma ensureFresh_notUse (E : Env) (d : Path) :
  steps (logged notUse) (ensureFresh E d).
Proof. steps_by logged_tac. Qed.

Lemma setupAuthState_trace (E : Env) (d : Path) (pg : Page) (w w' : World)
    (r : error + unit) :
  setupAuthState E d pg w = (r, w') →
  ∃ l, trace w' = trace w ++ (Invoke "setupAuthState", Done) :: l.
Proof.
  rewrite setupAuthState_run.
  set (w0 := log (Invoke "setupAuthState") Done w). intros Hrun.
  assert (∃ l, trace w' = trace w0 ++ l) as [l Hl]; [|exists l].
  - destruct (loginProcedure E pg w0) as [[e|[]] wl] eqn:Hlog.
    + injection Hrun as <- <-.
      destruct (steps_run (logged (fun _ => true)) (loginProcedure E pg) _ _ _
                  ltac:(steps_by logged_tac) Hlog) as (l & Hl & _). eauto.
    + destruct (steps_run (logged (fun _ => true)) (loginProcedure E pg) _ _ _
                  ltac:(steps_by logged_tac) Hlog) as (l1 & Hl1 & _).
      destruct (steps_run (logged (fun _ => true)) (persistState E d pg) _ _ _
                  ltac:(steps_by logged_tac) Hrun) as (l2 & Hl2 & _).
      exists (l1 ++ l2). by rewrite Hl2, Hl1, app_assoc.
  - rewrite Hl. unfold w0. simpl. by rewrite <- app_assoc.
Qed.

Lemma not_used (l : list (Op * Res)) :
  Forall (fun ev => notUse ev.1 = true) l → ¬ used l.
Proof.
  unfold used. rewrite Forall_forall, Exists_exists.
  intros F (ev & Hin & Hev). specialize (F ev Hin). congruence.
Qed.

Lemma setup_run_closed (E : Env) (d : Path) (w w' : World) (r : error + unit) :
  ensureFresh E d w = (r, w') →
  logins (trace w') ≠ logins (trace w) →
  ∃ l0 c k l rc, trace w' = trace w ++ l0 ++ setup_run c k l rc.
Proof.
  intros Hrun Hne.
  pose proof (ensureFresh_anatomy E d w) as Hr. rewrite Hrun in Hr.
  inversion Hr as [w1 H1|w1 w2 e w3 H1 H2 H3|w1 w2 c w3 e w4 H1 H2 H3 H4
                   |w1 w2 c w3 pg w4 r5 w5 rc w6 H1 H2 H3 H4 Hc H5 H6]; subst;
    pose proof (steps_run _ _ _ _ _ (missingOrStale_same_logins E d) H1) as L1.
  - done.
  - pose proof (steps_run _ _ _ _ _ (clearAuthState_same_logins E d) H2) as L2.
    pose proof (steps_run _ _ _ _ _ (newContext_same_logins E None) H3) as L3.
    unfold same_logins in *. congruence.
  - pose proof (steps_run _ _ _ _ _ (clearAuthState_same_logins E d) H2) as L2.
    pose proof (steps_run _ _ _ _ _ (newContext_same_logins E None) H3) as L3.
    pose proof (steps_run _ _ _ _ _ (newPage_same_logins E _) H4) as L4.
    unfold same_logins in *. congruence.
  - destruct (steps_run (logged (fun _ => true)) (missingOrStale E d) _ _ _
                ltac:(steps_by logged_tac) H1) as (l1 & T1 & _).
    destruct (steps_run (logged (fun _ => true)) (clearAuthState E d) _ _ _
                ltac:(steps_by logged_tac) H2) as (l2 & T2 & _).
    apply newContext_inr in H3 as T3.
    apply newPage_inr in H4 as [_ T4].
    apply setupAuthState_trace in H5 as [l5 T5].
    apply closeContext_trace in H6 as [rc' T6].
    exists (l1 ++ l2), (page_context pg), (page_no pg), l5, rc'.
    rewrite T6, T5, T4, T3, T2, T1. unfold setup_run.
    by rewrite <- !app_assoc.
Qed.

Lemma missingOrStale_false (E : Env) (d : Path) (w w1 : World) :
  missingOrStale E d w = (inr false, w1) →
  isStale (fs w !! STORAGE_STATE_PATH d) AUTH_STATE_MAX_AGE_MS (now w) = false.
Proof.
  unfold missingOrStale, mbind, M_bind, existsSync. simpl.
  destruct (negb _); [by unfold ret|].
  match goal with |- context [isAuthStateStale E d ?w0] =>
    destruct (isAuthStateStale_run E d w0) as [w2 ->]; simpl end.
  intros [= H _]. by apply orb_false_iff in H as [_ H].
Qed.

Lemma setupAuthState_inr (E : Env) (d : Path) (pg : Page) (w w' : World) :
  setupAuthState E d pg w = (inr tt, w') →
  ∃ w0, fs w' !! STORAGE_STATE_PATH d =
          Some (File (now w) (captureState E (page_context pg) w0)).
Proof.
  rewrite setupAuthState_run.
  destruct (loginProcedure E pg _) as [[e|[]] wl] eqn:Hl; [done|].
  intros [w0 H]%persistState_inr. exists w0. rewrite H. do 2 f_equal.
  by destruct (steps_run same_clock (loginProcedure E pg) _ _ _
                 ltac:(steps_by same_clock_tac) Hl) as [-> _].
Qed.

Lemma page_run_used (p : Path) (c k : nat) (v rc : Res) (l0 : list (Op * Res)) :
  used (l0 ++ page_run p c k v rc).
Proof.
  unfold used. apply Exists_app. right. unfold page_run.
  do 2 apply Exists_cons_tl. by apply Exists_cons_hd.
Qed.

Lemma context_run_used (p : Path) (c : nat) (v rc : Res) (l0 : list (Op * Res)) :
  used (l0 ++ context_run p c v rc).
Proof.
  unfold used. apply Exists_app. right. unfold context_run.
  apply Exists_cons_tl. by apply Exists_cons_hd.
Qed.

(** After [ensureFresh] has returned normally, with nothing on disk in the
    way, a file is at the state path. *)
Lemma ensureFresh_leaves_file (E : Env) (d : Path) (w w1 : World) :
  unobstructed d w →
  ensureFresh E d w = (inr tt, w1) →
  isFile (fs w1 !! STORAGE_STATE_PATH d) = true.
Proof.
  intros [Hd _] Hrun.
  pose proof (ensureFresh_anatomy E d w) as Hr. rewrite Hrun in Hr.
  inversion Hr as [w0 H1|w0 w2 e w3 H1 H2 H3|w0 w2 c w3 e w4 H1 H2 H3 H4
                   |w0 w2 c w3 pg w4 r5 w5 rc w6 H1 H2 H3 H4 Hc H5 H6]; subst.
  - pose proof (steps_run _ _ _ _ _ (missingOrStale_only_logs E d) H1) as (-> & _).
    apply missingOrStale_false in H1.
    destruct (fs w !! STORAGE_STATE_PATH d) as [[t b|t]|] eqn:Hf; try done.
    by destruct (Hd t).
  - destruct rc as [e|[]]; [done|]. subst r5.
    apply setupAuthState_inr in H5 as [w0' H5].
    pose proof (steps_run _ _ _ _ _ (closeContext_same_files E _) H6) as [F6 _].
    by rewrite F6, H5.
Qed.

(** With no outside call raising and nothing on disk in the way, both
    fixtures run to their end. *)
Lemma fixtures_return (E : Env) (d : Path) (w : World) :
  cooperative E → unobstructed d w →
  ∃ w1 w2,
    page_fixture E d w = (inr tt, w1) ∧
    authenticatedContext_fixture E d w = (inr tt, w2).
Proof.
  intros C U. destruct (ensureFresh_returns E d w C U) as [w0 H0].
  pose proof (ensureFresh_leaves_file E d w w0 U H0) as Hf.
  unfold page_fixture, authenticatedContext_fixture, mbind, M_bind. rewrite H0.
  unfold newContext, newPage, use, closeContext, outside. rewrite !C.
  destruct (fs w0 !! STORAGE_STATE_PATH d) as [[t b|t]|]; try done.
  rewrite !C. eauto.
Qed.

(** C6. Whatever the oracle says and whatever the verdict of the test,
    a run of the [page] fixture that hands a page to the test ends with the
    closing of the very context it opened for it, right after [use] has
    resolved; so does a run of the [authenticatedContext] fixture.  Neither
    fixture returns normally without having handed its value to the test
    and closed the context, and both do run to their end when no outside
    call raises and nothing on disk is in the way.  A regeneration that
    enters [setupAuthState] ends with the closing of the setup context,
    however [setupAuthState] ends. *)
Theorem fixtures_release (E : Env) (d : Path) (w : World) :
  let p := STORAGE_STATE_PATH d in
  (∀ r w', page_fixture E d w = (r, w') →
     ∃ l, trace w' = trace w ++ l ∧
          (used l → ∃ l0 c k b rc,
             l = l0 ++ page_run p c k (Bool b) rc ∧ ¬ used l0) ∧
          (r = inr tt → used l)) ∧
  (∀ r w', authenticatedContext_fixture E d w = (r, w') →
     ∃ l, trace w' = trace w ++ l ∧
          (used l → ∃ l0 c b rc,
             l = l0 ++ context_run p c (Bool b) rc ∧ ¬ used l0) ∧
          (r = inr tt → used l)) ∧
  (cooperative E → unobstructed d w →
   ∃ w1 w2,
     page_fixture E d w = (inr tt, w1) ∧
     authenticatedContext_fixture E d w = (inr tt, w2)) ∧
  (∀ r w', ensureFresh E d w = (r, w') →
     logins (trace w') ≠ logins (trace w) →
     ∃ l0 c k l rc, trace w' = trace w ++ l0 ++ setup_run c k l rc).
Proof.
  intros p. split; [|split; [|split]].
  - intros r w' Hrun. unfold page_fixture, mbind, M_bind in Hrun.
    destruct (ensureFresh E d w) as [[e|[]] w1] eqn:H1;
      destruct (steps_run _ _ _ _ _ (ensureFresh_notUse E d) H1) as (l1 & T1 & F1).
    { injection Hrun as <- <-. exists l1. split; [done|].
      split; [by intros ?%not_used|done]. }
    fold p in Hrun.
    destruct (newContext E (Some p) w1) as [[e|c] w2] eqn:H2.
    { injection Hrun as <- <-.
      destruct (steps_run (logged notUse) (newContext E (Some p)) _ _ _
                  ltac:(steps_by logged_tac) H2) as (l2 & T2 & F2).
      exists (l1 ++ l2). split; [by rewrite T2, T1, app_assoc|].
      split; [|done]. intros []%not_used. by apply Forall_app. }
    apply newContext_inr in H2 as T2.
    destruct (newPage E c w2) as [[e|pg] w3] eqn:H3.
    { injection Hrun as <- <-.
      destruct (steps_run (logged notUse) (newPage E c) _ _ _
                  ltac:(steps_by logged_tac) H3) as (l3 & T3 & F3).
      exists (l1 ++ [(NewContext (Some p), Num (Z.of_nat c))] ++ l3).
      split; [by rewrite T3, T2, T1, <- !app_assoc|].
      split; [|done]. intros []%not_used. apply Forall_app. split; [done|].
      apply Forall_app. split; [by repeat constructor|done]. }
    apply newPage_inr in H3 as [Hc T3].
    unfold use in Hrun. simpl in Hrun.
    apply closeContext_trace in Hrun as [rc T4]. simpl in T4.
    exists (l1 ++ page_run p c (page_no pg) (Bool (testPassed E w3)) rc).
    split; [|split].
    + rewrite T4, T3, T2, T1. unfold page_run. rewrite <- !app_assoc. simpl.
      do 4 f_equal. destruct pg; simpl in *. by subst.
    + intros _. exists l1, c, (page_no pg), (testPassed E w3), rc.
      split; [done|]. by apply not_used.
    + intros _. apply page_run_used.
  - intros r w' Hrun. unfold authenticatedContext_fixture, mbind, M_bind in Hrun.
    destruct (ensureFresh E d w) as [[e|[]] w1] eqn:H1;
      destruct (steps_run _ _ _ _ _ (ensureFresh_notUse E d) H1) as (l1 & T1 & F1).
    { injection Hrun as <- <-. exists l1. split; [done|].
      split; [by intros ?%not_used|done]. }
    fold p in Hrun.
    destruct (newContext E (Some p) w1) as [[e|c] w2] eqn:H2.
    { injection Hrun as <- <-.
      destruct (steps_run (logged notUse) (newContext E (Some p)) _ _ _
                  ltac:(steps_by logged_tac) H2) as (l2 & T2 & F2).
      exists (l1 ++ l2). split; [by rewrite T2, T1, app_assoc|].
      split; [|done]. intros []%not_used. by apply Forall_app. }
    apply newContext_inr in H2 as T2.
    unfold use in Hrun. simpl in Hrun.
    apply closeContext_trace in Hrun as [rc T4]. simpl in T4.
    exists (l1 ++ context_run p c (Bool (testPassed E w2)) rc).
    split; [|split].
    + rewrite T4, T2, T1. unfold context_run. by rewrite <- !app_assoc.
    + intros _. exists l1, c, (testPassed E w2), rc.
      split; [done|]. by apply not_used.
    + intros _. apply context_run_used.
  - apply fixtures_return.
  - intros r w'. apply setup_run_closed.
Qed.

Lemma fixtures_release_witness :
  let p := STORAGE_STATE_PATH here in
  (∃ l0 c k rc,
     trace (page_fixture failing here bare).2 =
       l0 ++ page_run p c k (Bool false) rc) ∧
  (∃ l0 c rc,
     trace (authenticatedContext_fixture failing here bare).2 =
       l0 ++ context_run p c (Bool false) rc) ∧
  (∃ l0 c k l rc,
     trace (ensureFresh stuck here bare).2 = l0 ++ setup_run c k l rc).
Proof.
  intros p.
  destruct (fixtures_release failing here bare) as (Hpage & Hctx & Hlive & _).
  destruct Hlive as (w1 & w2 & R1 & R2).
  { by intros op w. }
  { split.
    - intros t. change (fs bare) with (∅ : gmap Path Node). by rewrite lookup_empty.
    - intros q _. change (fs bare) with (∅ : gmap Path Node). by rewrite lookup_empty. }
  split; [|split].
  - destruct (Hpage _ _ R1) as (l & Hl & Hshape & Hused).
    destruct (Hshape (Hused eq_refl)) as (l0 & c & k & b & rc & Hs & _).
    rewrite R1. simpl in Hl |- *. rewrite Hs in Hl. exists l0, c, k, rc.
    rewrite Hl. assert (b = false) as ->; [|done].
    assert (trace (page_fixture failing here bare).2 = trace w1) as Ht
      by (by rewrite R1).
    rewrite Hl in Ht. apply (f_equal (@rev _)) in Ht.
    rewrite rev_app_distr in Ht. vm_compute in Ht. congruence.
  - destruct (Hctx _ _ R2) as (l & Hl & Hshape & Hused).
    destruct (Hshape (Hused eq_refl)) as (l0 & c & b & rc & Hs & _).
    rewrite R2. simpl in Hl |- *. rewrite Hs in Hl. exists l0, c, rc.
    rewrite Hl. assert (b = false) as ->; [|done].
    assert (trace (authenticatedContext_fixture failing here bare).2 = trace w2)
      as Ht by (by rewrite R2).
    rewrite Hl in Ht. apply (f_equal (@rev _)) in Ht.
    rewrite rev_app_distr in Ht. vm_compute in Ht. congruence.
  - destruct (fixtures_release stuck here bare) as (_ & _ & _ & Hsetup).
    destruct (Hsetup (ensureFresh stuck here bare).1 (ensureFresh stuck here bare).2)
      as (l0 & c & k & l & rc & Hs).
    + by destruct (ensureFresh stuck here bare).
    + vm_compute. discriminate.
    + by exists l0, c, k, l, rc.
Defined.

(** ** One state file *)

Lemma run_op_touches (E : Env) (d : Path) (o : CacheOp) (w : World) :
  touches_only E (STORAGE_STATE_PATH d) w (run_op E d o w).
Proof.
  destruct o; simpl.
  - revert w. change (steps (touches_only E (STORAGE_STATE_PATH d)) (isAuthStateStale E d)).
    steps_by touches_tac.
  - revert w. change (steps (touches_only E (STORAGE_STATE_PATH d)) (clearAuthState E d)).
    steps_by touches_tac.
  - revert w. change (steps (touches_only E (STORAGE_STATE_PATH d)) (setupAuthState E d page)).
    steps_by touches_tac.
  - apply ensureFresh_touches.
  - revert w. change (steps (touches_only E (STORAGE_STATE_PATH d)) (page_fixture E d)).
    steps_by touches_tac.
  - revert w. change (steps (touches_only E (STORAGE_STATE_PATH d))
                        (authenticatedContext_fixture E d)).
    steps_by touches_tac.
Qed.

Lemma touches_only_one_state_file (E : Env) (d : Path) (w w' : World) :
  touches_only E (STORAGE_STATE_PATH d) w w' →
  one_state_file d w → one_state_file d w'.
Proof.
  intros (_ & F & _) Inv q Hpre Hf.
  destruct (decide (q = STORAGE_STATE_PATH d)) as [|Hne]; [done|].
  destruct (F q Hne) as [Heq|[_ Heq]]; rewrite Heq in Hf; [|done].
  by apply Inv.
Qed.

(** Every way [storageState] ends: the whole state in the file, or an
    error, after which the entry at the path is as it was or is a file
    holding the beginning of the state. *)
Lemma storageState_run (E : Env) (c : nat) (p : Path) (w w' : World)
    (r : error + unit) :
  storageState E c p w = (r, w') →
  now w' = now w ∧
  match r with
  | inr _ =>
      trace w' = trace w ++ [(ContextStorageState c p, Done)] ∧
      fs w' !! p = Some (File (now w) (captureState E c w))
  | inl e =>
      e = Thrown (ContextStorageState c p) ∧
      (fs w' !! p = fs w !! p ∨
       ∃ k, fs w' !! p =
              Some (File (now w) (substring 0 k (captureState E c w))))
  end.
Proof.
  unfold storageState. cbv zeta.
  repeat case_match; intros [= <- <-]; simpl; (split; [done|]);
    (split; [done|]);
    first [ apply lookup_insert_eq
          | left; done
          | left; apply withDirs_at
          | right; eexists; apply lookup_insert_eq ].
Qed.

(** [persistState] up to the write: the entry at the state path is as it
    was. *)
Lemma persistState_mkdir (E : Env) (d : Path) (ex : bool) (w w' : World)
    (r : error + unit) :
  let p := STORAGE_STATE_PATH d in
  (if negb ex then mkdirSync E (path_dirname p) else ret tt) w = (r, w') →
  now w' = now w ∧ fs w' !! p = fs w !! p.
Proof.
  intros p. destruct (negb ex); unfold mkdirSync, outside, ret;
    repeat case_match; intros [= <- <-]; simpl; (split; [done|]); try done.
  rewrite mkdir_all_lookup. destruct (fs w !! p); [done|].
  rewrite bool_decide_eq_false_2; [done|]. apply STORAGE_STATE_PATH_not_prefix.
Qed.

Lemma persistState_run (E : Env) (d : Path) (pg : Page) (w w' : World)
    (r : error + unit) :
  let p := STORAGE_STATE_PATH d in
  let c := page_context pg in
  persistState E d pg w = (r, w') →
  match r with
  | inr _ =>
      ∃ w0, trace w' = trace w0 ++ [(ContextStorageState c p, Done)] ∧
            fs w' !! p = Some (File (now w) (captureState E c w0))
  | inl e =>
      fs w' !! p = fs w !! p ∨
      (e = Thrown (ContextStorageState c p) ∧
       ∃ w0 k, fs w' !! p =
                 Some (File (now w) (substring 0 k (captureState E c w0))))
  end.
Proof.
  intros p c. unfold persistState, mbind, M_bind. cbv zeta. fold p.
  destruct (existsSync E (path_dirname p) w) as [[e|ex] w1] eqn:H1; [done|].
  assert (now w1 = now w ∧ fs w1 = fs w) as [N1 F1].
  { revert H1. unfold existsSync. by intros [= _ <-]. }
  destruct ((if negb ex then mkdirSync E _ else ret tt) w1) as [[e|[]] w2] eqn:H2.
  - intros [= <- <-]. left.
    destruct (persistState_mkdir E d ex w1 w2 _ H2) as [_ F2]. fold p in F2.
    by rewrite F2, F1.
  - destruct (persistState_mkdir E d ex w1 w2 _ H2) as [N2 F2]. fold p in F2.
    intros H3. apply storageState_run in H3 as [_ H3]. fold c in H3.
    rewrite N2, N1 in H3. destruct r as [e|[]].
    + destruct H3 as [-> [H3|[k H3]]].
      * left. by rewrite H3, F2, F1.
      * right. split; [done|]. by exists w2, k.
    + destruct H3 as [T3 H3]. by exists w2.
Qed.

(** Every way [setupAuthState] ends, seen from the state path. *)
Lemma setupAuthState_ends (E : Env) (d : Path) (pg : Page) (w w' : World)
    (r : error + unit) :
  let p := STORAGE_STATE_PATH d in
  let c := page_context pg in
  setupAuthState E d pg w = (r, w') →
  match r with
  | inr _ =>
      ∃ w0, trace w' = trace w0 ++ [(ContextStorageState c p, Done)] ∧
            fs w' !! p = Some (File (now w) (captureState E c w0))
  | inl e =>
      fs w' !! p = fs w !! p ∨
      (e = Thrown (ContextStorageState c p) ∧
       ∃ w0 k, fs w' !! p =
                 Some (File (now w) (substring 0 k (captureState E c w0))))
  end.
Proof.
  intros p c. rewrite setupAuthState_run.
  destruct (loginProcedure E pg _) as [[e|[]] wl] eqn:Hl.
  - intros [= <- <-]. left.
    destruct (steps_run same_files (loginProcedure E pg) _ _ _
                ltac:(steps_by same_files_tac) Hl) as [-> _].
    done.
  - destruct (steps_run same_files (loginProcedure E pg) _ _ _
                ltac:(steps_by same_files_tac) Hl) as [Fl Nl].
    simpl in Fl, Nl.
    intros H. apply persistState_run in H. fold p c in H.
    rewrite Fl, Nl in H. exact H.
Qed.

(** C8, as amended.  Every operation of the cache, however it ends, leaves
    every path other than the state path as it was, up to directories it
    created, and leaves at the state path the entry that was there, or
    nothing, or a file written during the operation.  So the invariant that
    the state file is the only file of its directory is preserved.
    [clearAuthState] changes nothing or removes the entry at the state path.
    A [setupAuthState] that returns normally has put there a file holding
    exactly the state captured from its context when [storageState], its
    last call, was made.  One that raises has left the entry at the state
    path as it was, unless it is [storageState] that raised: then the file
    may hold the beginning of the captured state, and nothing rolls that
    back. *)
Theorem cache_keeps_one_state_file (E : Env) (d : Path) (o : CacheOp) (w : World) :
  let p := STORAGE_STATE_PATH d in
  let w' := run_op E d o w in
  touches_only E p w w' ∧
  (one_state_file d w → one_state_file d w') ∧
  (o = Invalidate → removes_at_most p w w') ∧
  (∀ page, o = Regenerate page →
     let c := page_context page in
     match (setupAuthState E d page w).1 with
     | inr _ =>
         ∃ w0, trace w' = trace w0 ++ [(ContextStorageState c p, Done)] ∧
               fs w' !! p = Some (File (now w) (captureState E c w0))
     | inl e =>
         fs w' !! p = fs w !! p ∨
         (e = Thrown (ContextStorageState c p) ∧
          ∃ w0 k, fs w' !! p =
                    Some (File (now w) (substring 0 k (captureState E c w0))))
     end).
Proof.
  intros p w'. pose proof (run_op_touches E d o w) as T.
  split; [exact T|]. split; [exact (touches_only_one_state_file E d w w' T)|]. split.
  - intros ->. apply clearAuthState_removes.
  - intros page -> c. unfold w'. simpl.
    destruct (setupAuthState E d page w) as [r w1] eqn:Hrun. simpl.
    exact (setupAuthState_ends E d page w w1 r Hrun).
Qed.

Lemma cache_keeps_one_state_file_witness :
  one_state_file here (run_op calm here EnsureFresh bare) ∧
  isFile (fs (run_op calm here EnsureFresh bare) !! STORAGE_STATE_PATH here) = true ∧
  one_state_file here (run_op cut here EnsureFresh (settled 0 5000000)).
Proof.
  split; [|split; [reflexivity|]].
  - apply (cache_keeps_one_state_file calm here EnsureFresh bare).
    intros q _ Hf. change (fs bare) with (∅ : gmap Path Node) in Hf.
    by rewrite lookup_empty in Hf.
  - apply (cache_keeps_one_state_file cut here EnsureFresh (settled 0 5000000)).
    intros q _ Hf.
    destruct (fs (settled 0 5000000) !! q) as [[t b|t]|] eqn:Hq; try done.
    unfold settled in Hq. simpl in Hq.
    rewrite !lookup_insert_Some, lookup_singleton_Some in Hq.
    by destruct Hq as [[<- [=]]|[_ [[<- [=]]|[_ [<- _]]]]].
Defined.

(** C8, as stated, fails: the regeneration does not always fully replace
    the content.  The old state file is removed, the login goes through,
    and the write of the new state (["session"]) raises after three
    characters: the fixture's block ends with that error and leaves at the
    state path a file that holds neither the old content nor the captured
    state, stamped with the current time, so that the next staleness check
    takes it for a fresh state. *)
Lemma regeneration_partial_write :
  let p := STORAGE_STATE_PATH here in
  let w := settled 0 5000000 in
  let r := ensureFresh cut here w in
  fs w !! p = Some (File 0 "old") ∧
  r.1 = inl (Thrown (ContextStorageState 0 p)) ∧
  fs r.2 !! p = Some (File 5000000 "ses") ∧
  (isAuthStateStale calm here r.2).1 = inr false.
Proof. vm_compute. repeat split; reflexivity. Qed.

(** ** Credentials *)

Lemma outside_only_ret {A} (a : A) : raises_outside_only (ret a).
Proof. by intros w e w'. Qed.

Lemma outside_only_bind {A B} (m : M A) (k : A → M B) :
  raises_outside_only m → (∀ a, raises_outside_only (k a)) →
  raises_outside_only (m ≫= k).
Proof.
  intros Hm Hk w e w'. unfold mbind, M_bind.
  destruct (m w) as [[e1|a] w1] eqn:H1.
  - intros [= <- <-]. eauto.
  - apply Hk.
Qed.

Lemma outside_only_try_catch {A} (m : M A) (h : error → M A) :
  (∀ e, raises_outside_only (h e)) → raises_outside_only (try_catch m h).
Proof.
  intros Hh w e w'. unfold try_catch.
  destruct (m w) as [[e1|a] w1]; [apply Hh|done].
Qed.

Lemma outside_only_try_finally {A} (m : M A) (f : M unit) :
  raises_outside_only m → raises_outside_only f →
  raises_outside_only (try_finally m f).
Proof.
  intros Hm Hf w e w'. unfold try_finally.
  destruct (m w) as [r w1] eqn:H1. destruct (f w1) as [[e2|[]] w2] eqn:H2.
  - intros [= <- <-]. eauto.
  - intros [= -> <-]. eauto.
Qed.

Ltac outside_only :=
  unfold_programs;
  repeat
    (first
       [ apply outside_only_ret
       | apply outside_only_bind
       | apply outside_only_try_catch
       | apply outside_only_try_finally
       | match goal with
         | |- raises_outside_only (if ?b then _ else _) => destruct b
         end
       | progress cbv zeta ];
     intros);
  intros ? ? ?;
  unfold existsSync, statSync, unlinkSync, mkdirSync, Date_now, getenv,
    newContext, newPage, closeContext, storageState, act, use, entered, outside;
  repeat case_match; intros [= <- <-]; eauto.

(** Neither fixture ever raises an error of its own making, whatever the
    credentials in the process environment: what they raise was raised by
    an outside call. *)
Lemma fixtures_raise_outside_only (E : Env) (d : Path) :
  raises_outside_only (ensureFresh E d) ∧
  raises_outside_only (page_fixture E d) ∧
  raises_outside_only (authenticatedContext_fixture E d).
Proof. repeat split; outside_only. Qed.

(** [LoginPage.loginWithCredentials], which the fixtures do not call, does
    refuse missing credentials before it touches the page. *)
Lemma loginWithCredentials_refuses (E : Env) (page : Page) (w : World) :
  falsy (or_empty (process_env w !! "TEST_USER_ADMIN_USERNAME")) = true ∨
  falsy (or_empty (process_env w !! "TEST_USER_ADMIN_PASSWORD")) = true →
  LoginPage.loginWithCredentials E page w =
    (inl (JsError "Credentials not found in environment variables"), w).
Proof.
  intros H. unfold LoginPage.loginWithCredentials, mbind, M_bind, getenv. simpl.
  destruct H as [-> | ->]; by rewrite ?orb_true_r.
Qed.

(** C2 fails on the code.  With no credentials in the process environment
    and no state file, [ensureFresh] raises nothing: it navigates to the
    login page, fills the empty string into both fields, clicks the login
    button, and persists whatever state the browser is in. *)
Theorem ensureFresh_blank_credentials :
  let page := mkPage 0 1 in
  let p := STORAGE_STATE_PATH here in
  process_env bare !! "TEST_USER_ADMIN_USERNAME" = None ∧
  process_env bare !! "TEST_USER_ADMIN_PASSWORD" = None ∧
  (ensureFresh calm here bare).1 = inr tt ∧
  trace (ensureFresh calm here bare).2 =
    [ (ExistsSync p, Bool false);
      (ExistsSync p, Bool false);
      (NewContext None, Num 0);
      (ContextNewPage 0, Num 1);
      (Invoke "setupAuthState", Done);
      (PageGoto page LoginPage.url, Done);
      (PageWaitForLoadState page "domcontentloaded", Done);
      (LocatorFill page LoginPage.inputLogin EmptyString, Done);
      (LocatorFill page LoginPage.inputPassword EmptyString, Done);
      (LocatorClick page LoginPage.btnLogin, Done);
      (PageWaitForLoadState page "networkidle", Done);
      (ExistsSync (path_dirname p), Bool false);
      (MkdirSync (path_dirname p), Done);
      (ContextStorageState 0 p, Done);
      (ContextClose 0, Done) ] ∧
  fs (ensureFresh calm here bare).2 !! p = Some (File 5000 "session").
Proof. vm_compute. repeat split; reflexivity. Qed.

(** ** fillWithRetry *)

(** The loop variable against [retries], through the number of attempts. *)
Lemma num_lt_ceiling (i : Z) (x : Q) : num_lt i x = true ↔ i < Qceiling x.
Proof.
  unfold num_lt. rewrite negb_true_iff, <- not_true_iff_false, Qle_bool_iff.
  split.
  - intros H. destruct (Z_lt_le_dec i (Qceiling x)) as [|Hle]; [done|].
    destruct H. eapply Qle_trans; [apply Qle_ceiling|]. by rewrite <- Zle_Qle.
  - intros H Hle. apply Qceiling_resp_le in Hle. rewrite Qceiling_Z in Hle. lia.
Qed.

Lemma num_eq_last (i : Z) (x : Q) :
  num_eq i (x - 1)%Q = true ↔ whole x = true ∧ i = Qceiling x - 1.
Proof.
  unfold num_eq, whole. rewrite !Qeq_bool_iff. split.
  - intros H. assert (x == inject_Z (i + 1))%Q as Hx.
    { rewrite inject_Z_plus. rewrite H. change (inject_Z 1) with 1%Q. ring. }
    rewrite (Qceiling_comp _ _ Hx), Qceiling_Z. split; [by symmetry|lia].
  - intros [Hw ->]. rewrite <- Hw at 2. unfold Z.sub.
    rewrite inject_Z_plus, inject_Z_opp. change (inject_Z 1) with 1%Q. ring.
Qed.

Lemma attempts_integer (z : Z) : attempts (inject_Z z) = Z.to_nat z.
Proof. unfold attempts. by rewrite Qceiling_Z. Qed.

Lemma attempts_none (retries : Q) :
  (retries <= 0)%Q → attempts retries = 0%nat.
Proof.
  intros H%Qceiling_resp_le. change 0%Q with (inject_Z 0) in H.
  rewrite Qceiling_Z in H. unfold attempts. lia.
Qed.

(** The fuel of [fillWithRetry] is enough: with more of it the loop does
    the same, since it stops by its own test. *)
Lemma fillWithRetry_from_fuel (E : Env) (page : Page)
    (selector value : string) (retries : Q) :
  ∀ n k i w,
    Qceiling retries ≤ i + Z.of_nat n →
    fillWithRetry_from E page selector value retries (n + k) i w =
    fillWithRetry_from E page selector value retries n i w.
Proof.
  induction n as [|n IH]; intros k i w Hi.
  - assert (num_lt i retries = false) as Hlt.
    { apply not_true_iff_false. rewrite num_lt_ceiling. lia. }
    destruct k as [|k]; [done|]. simpl. by rewrite Hlt.
  - simpl. destruct (num_lt i retries); [|done].
    unfold mbind, M_bind.
    destruct (try_catch _ _ w) as [[e|[]] w1]; try done.
    apply IH. lia.
Qed.

Lemma fillWithRetry_from_gives_up (E : Env) (page : Page)
    (selector value : string) (retries : Q) :
  (∀ w0, throws E (PageFill page selector value 5000) w0 = false) →
  (∀ w0, throws E (PageInputValue page selector) w0 = false) →
  (∀ w0, inputValue E page selector w0 ≠ value) →
  ∀ n i w,
    ((0 < n)%nat → i + Z.of_nat n ≤ Qceiling retries) →
    ∃ w' l,
      fillWithRetry_from E page selector value retries n i w = (inr tt, w') ∧
      only_logs w w' ∧
      trace w' = trace w ++ l ∧
      failed_fills page selector value n l.
Proof.
  intros Hfill Hread Hne. induction n as [|n IH]; intros i w Hi.
  - exists w, []. simpl. unfold ret. rewrite app_nil_r.
    repeat split. constructor.
  - set (w1 := log (PageFill page selector value 5000) Done w).
    set (s := inputValue E page selector w1).
    set (w2 := log (PageInputValue page selector) (Str s) w1).
    destruct (IH (i + 1) w2) as (w' & l & Hrun & Hlogs & Htr & Hl); [lia|].
    exists w', ((PageFill page selector value 5000, Done) ::
                (PageInputValue page selector, Str s) :: l).
    split; [|split; [|split]].
    + simpl. assert (num_lt i retries = true) as ->
        by (apply num_lt_ceiling; lia).
      unfold mbind, M_bind, try_catch, act, pageInputValue, outside.
      rewrite Hfill. fold w1. rewrite Hread. fold s w2. unfold ret.
      assert (String.eqb s value = false) as ->.
      { apply String.eqb_neq. apply Hne. }
      exact Hrun.
    + etransitivity; [|exact Hlogs]. by repeat split.
    + rewrite Htr. unfold w2, w1. simpl. by rewrite <- !app_assoc.
    + constructor; [apply Hne | exact Hl].
Qed.

(** C9. When [page.fill] goes through at every attempt, the field can be
    read back, and what it reads back is never the requested value,
    [fillWithRetry] makes all its attempts, never waits, and returns
    normally: the caller is not told that the field does not hold the
    value.  The attempts are as many as there are integers from 0 below
    [retries]: [retries] of them when it is a non-negative integer. *)
Theorem fillWithRetry_gives_up (E : Env) (page : Page)
    (selector value : string) (retries : Q) (w : World) :
  (∀ w0, throws E (PageFill page selector value 5000) w0 = false) →
  (∀ w0, throws E (PageInputValue page selector) w0 = false) →
  (∀ w0, inputValue E page selector w0 ≠ value) →
  ∃ w' l,
    fillWithRetry E page selector value retries w = (inr tt, w') ∧
    only_logs w w' ∧
    trace w' = trace w ++ l ∧
    failed_fills page selector value (attempts retries) l ∧
    (∀ z, retries = inject_Z z → attempts retries = Z.to_nat z).
Proof.
  intros Hfill Hread Hne.
  destruct (fillWithRetry_from_gives_up E page selector value retries
              Hfill Hread Hne (attempts retries) 0 w)
    as (w' & l & Hrun & Hl & Ht & Hf).
  { unfold attempts. lia. }
  exists w', l. do 4 (split; [done|]).
  intros z ->. apply attempts_integer.
Qed.

Lemma fillWithRetry_gives_up_witness :
  (∃ w', fillWithRetry calm (mkPage 0 0) "#name" "wanted" (inject_Z 3) bare
           = (inr tt, w') ∧
         failed_fills (mkPage 0 0) "#name" "wanted" 3 (trace w')) ∧
  (∃ w', fillWithRetry calm (mkPage 0 0) "#name" "wanted" (5 # 2) bare
           = (inr tt, w') ∧
         failed_fills (mkPage 0 0) "#name" "wanted" 3 (trace w')).
Proof.
  split.
  - destruct (fillWithRetry_gives_up calm (mkPage 0 0) "#name" "wanted"
                (inject_Z 3) bare)
      as (w' & l & H & _ & Htr & Hl & _); try done.
    exists w'. split; [exact H|]. by rewrite Htr.
  - destruct (fillWithRetry_gives_up calm (mkPage 0 0) "#name" "wanted"
                (5 # 2) bare)
      as (w' & l & H & _ & Htr & Hl & _); try done.
    exists w'. split; [exact H|]. by rewrite Htr.
Defined.

(** ** retryUntil *)

Lemma retryUntil_from_shape (E : Env) (maxRetries retryDelay : Z) :
  ∀ n i w,
    ∃ k l,
      retry_outcome maxRetries n
        (retryUntil_from E maxRetries retryDelay n i w).1 k l ∧
      only_logs w (retryUntil_from E maxRetries retryDelay n i w).2 ∧
      trace (retryUntil_from E maxRetries retryDelay n i w).2 =
        trace w ++ failed_attempts maxRetries retryDelay k i ++ l.
Proof.
  induction n as [|n IH]; intros i w.
  - exists 0%nat, []. simpl. rewrite app_nil_r. repeat split. constructor.
  - simpl. unfold mbind, M_bind, act, condition, outside.
    destruct (throws E Action w) eqn:Ha.
    { exists 0%nat, [(Action, Rejected)]. simpl.
      split; [constructor; lia|]. by repeat split. }
    set (w1 := log Action Done w).
    destruct (throws E Condition w1) eqn:Hc.
    { exists 0%nat, [(Action, Done); (Condition, Rejected)]. simpl.
      split; [constructor; lia|]. split; [by repeat split|].
      by rewrite <- app_assoc. }
    destruct (conditionValue E w1) eqn:Hv.
    { exists 0%nat, [(Action, Done); (Condition, Bool true)]. simpl.
      split; [constructor; lia|]. split; [by repeat split|].
      by rewrite <- app_assoc. }
    set (w2 := log Condition (Bool false) w1).
    assert (∃ w3, (if i <? maxRetries - 1 then sleep retryDelay else ret tt) w2
                    = (inr tt, w3) ∧ only_logs w2 w3 ∧
                  trace w3 = trace w2 ++
                    (if i <? maxRetries - 1
                     then [(SetTimeout retryDelay, Done)] else []))
      as (w3 & -> & L3 & T3).
    { destruct (i <? maxRetries - 1); eexists; (split; [reflexivity|]).
      - by repeat split.
      - split; [done|]. by rewrite app_nil_r. }
    destruct (IH (i + 1) w3) as (k & l & Ho & Hl & Ht).
    exists (S k), l. split; [|split].
    + inversion Ho; constructor; lia.
    + etransitivity; [|exact Hl]. etransitivity; [|exact L3]. by repeat split.
    + rewrite Ht, T3. unfold w2, w1. simpl. by rewrite <- !app_assoc.
Qed.

Lemma failed_attempts_quiet (maxRetries retryDelay : Z) (n : nat) (i : Z) :
  Forall (fun ev => ev.2 = Done ∨ ev.2 = Bool false)
         (failed_attempts maxRetries retryDelay n i).
Proof.
  revert i. induction n as [|n IH]; intros i; simpl; [constructor|].
  do 2 (constructor; [simpl; auto|]).
  apply Forall_app. split; [|apply IH].
  destruct (i <? maxRetries - 1); repeat constructor; simpl; auto.
Qed.

(** C10. [retryUntil] never changes anything but the log, and its log is
    a number [k] of failed attempts (the action, then the condition
    answering false, then the delay unless the attempt is the last allowed
    one) followed by the attempt it ends in: it returns normally as soon as
    the condition answers true, right after an action; it raises what the
    action or the condition raised; and it raises "Condition not met after
    N retries" exactly when all the attempts it is allowed were made and
    failed.  When [maxRetries] is not positive it raises that error at
    once, with no call at all. *)
Theorem retryUntil_correct (E : Env) (maxRetries retryDelay : Z) (w : World) :
  let n := Z.to_nat maxRetries in
  ∃ r w' k l,
    retryUntil E maxRetries retryDelay w = (r, w') ∧
    only_logs w w' ∧
    trace w' = trace w ++ failed_attempts maxRetries retryDelay k 0 ++ l ∧
    retry_outcome maxRetries n r k l ∧
    (r = inl (JsError (not_met maxRetries)) ↔
     trace w' = trace w ++ failed_attempts maxRetries retryDelay n 0) ∧
    (maxRetries ≤ 0 → r = inl (JsError (not_met maxRetries)) ∧ w' = w).
Proof.
  intros n.
  destruct (retryUntil_from_shape E maxRetries retryDelay n 0 w)
    as (k & l & Ho & Hl & Ht).
  unfold retryUntil. fold n.
  destruct (retryUntil_from E maxRetries retryDelay n 0 w) as [r w'] eqn:Hrun.
  simpl in *. exists r, w', k, l. do 4 (split; [done|]). split.
  - split.
    + intros ->. inversion Ho; subst. by rewrite app_nil_r in Ht.
    + intros Ht'. rewrite Ht in Ht'. apply app_inv_head in Ht'.
      pose proof (failed_attempts_quiet maxRetries retryDelay n 0) as F.
      rewrite <- Ht' in F. apply Forall_app in F as [_ F].
      inversion Ho; subst; [|done| |].
      * inversion F as [|? ? _ F1]; subst.
        inversion F1 as [|? ? [?|?] _]; by subst.
      * inversion F as [|? ? [?|?] _]; by subst.
      * inversion F as [|? ? _ F1]; subst.
        inversion F1 as [|? ? [?|?] _]; by subst.
  - intros Hle. assert (n = 0%nat) as Hn by (unfold n; lia).
    rewrite Hn in Hrun. simpl in Hrun. unfold throw in Hrun.
    by injection Hrun as <- <-.
Qed.

Lemma retryUntil_correct_witness :
  retryUntil calm 0 1000 bare = (inl (JsError "Condition not met after 0 retries"), bare) ∧
  ∃ w', retryUntil calm 3 1000 bare =
          (inl (JsError "Condition not met after 3 retries"), w') ∧
        trace w' =
          [ (Action, Done); (Condition, Bool false); (SetTimeout 1000, Done);
            (Action, Done); (Condition, Bool false); (SetTimeout 1000, Done);
            (Action, Done); (Condition, Bool false) ].
Proof.
  split.
  - destruct (retryUntil_correct calm 0 1000 bare)
      as (r & w' & k & l & -> & _ & _ & _ & _ & H).
    by destruct H as [-> ->].
  - destruct (retryUntil_correct calm 3 1000 bare)
      as (r & w' & k & l & Hrun & _ & _ & _ & [_ H] & _).
    exists w'.
    assert ((retryUntil calm 3 1000 bare).2 = w') as Hw by (by rewrite Hrun).
    assert (trace w' = [ (Action, Done); (Condition, Bool false); (SetTimeout 1000, Done);
            (Action, Done); (Condition, Bool false); (SetTimeout 1000, Done);
            (Action, Done); (Condition, Bool false) ]) as Ht.
    { rewrite <- Hw. reflexivity. }
    split; [|exact Ht]. rewrite Hrun. f_equal. apply H. rewrite Ht. reflexivity.
Defined.

(** ** More of the code: the page objects' loginWithCredentials *)

Lemma act_log (E : Env) (op : Op) (w : World) :
  act E op w = (if throws E op w then (inl (Thrown op), log op Rejected w)
                else (inr tt, log op Done w)).
Proof. reflexivity. Qed.

(** A chain of awaited page actions leaves the log [acts_log] describes. *)
Lemma acts_chain (E : Env) (ops : list Op) (w : World) :
  ∃ r w' l,
    fold_right (fun op k => act E op;; k) (ret tt) ops w = (r, w') ∧
    only_logs w w' ∧ trace w' = trace w ++ l ∧ acts_log ops r l.
Proof.
  revert w. induction ops as [|op ops IH]; intros w.
  - exists (inr tt), w, []. simpl. rewrite app_nil_r. repeat split. constructor.
  - simpl. unfold mbind, M_bind at 1. rewrite act_log.
    destruct (throws E op w).
    + exists (inl (Thrown op)), (log op Rejected w), [(op, Rejected)].
      repeat split. constructor.
    + destruct (IH (log op Done w)) as (r & w' & l & Hrun & Hl & Ht & Ha).
      exists r, w', ((op, Done) :: l). split; [exact Hrun|].
      split; [etransitivity; [|exact Hl]; by repeat split|].
      split; [rewrite Ht; simpl; by rewrite <- app_assoc|by constructor].
Qed.

Lemma acts_log_ops (ops : list Op) (r : error + unit) (l : list (Op * Res)) :
  acts_log ops r l → ∀ ev, ev ∈ l → ev.1 ∈ ops.
Proof.
  induction 1 as [|op ops|op ops r l H IH]; intros ev Hev.
  - by apply elem_of_nil in Hev.
  - apply list_elem_of_singleton in Hev as ->. left.
  - apply elem_of_cons in Hev as [->|Hev]; [left|right; by apply IH].
Qed.

Lemma acts_log_outside (ops : list Op) (r : error + unit) (l : list (Op * Res))
    (e : error) :
  acts_log ops r l → r = inl e → ∃ op, e = Thrown op ∧ op ∈ ops.
Proof.
  induction 1 as [|op ops|op ops r l H IH]; intros Hr.
  - done.
  - injection Hr as <-. exists op. split; [done|left].
  - destruct (IH Hr) as (op' & -> & Hin). exists op'. split; [done|by right].
Qed.

(** X1. [LoginPage.loginWithCredentials] raises its own error,
    "Credentials not found in environment variables", exactly when the
    user name or the password is missing from [process.env] or empty; it
    then has made no call at all and the world is untouched.  Anything
    else it raises was raised by one of its page actions. *)
Theorem loginWithCredentials_guard (E : Env) (page : Page) (w : World) :
  ∃ r w',
    LoginPage.loginWithCredentials E page w = (r, w') ∧
    (r = inl (JsError "Credentials not found in environment variables") ↔
     credentialsMissing w = true) ∧
    (credentialsMissing w = true → w' = w) ∧
    (∀ e, r = inl e → credentialsMissing w = false →
          ∃ op, e = Thrown op ∧
                op ∈ loginPage_actions page
                       (or_empty (process_env w !! "TEST_USER_ADMIN_PASSWORD"))).
Proof.
  unfold credentialsMissing.
  destruct (falsy _ || falsy _) eqn:Hm.
  - exists (inl (JsError "Credentials not found in environment variables")), w.
    split; [|by repeat split].
    apply loginWithCredentials_refuses. by apply orb_true_iff.
  - destruct (acts_chain E (loginPage_actions page
                (or_empty (process_env w !! "TEST_USER_ADMIN_PASSWORD"))) w)
      as (r & w' & l & Hrun & _ & _ & Ha).
    exists r, w'. split.
    { unfold LoginPage.loginWithCredentials, mbind, M_bind at 1 2, getenv.
      cbv zeta. rewrite Hm, <- Hrun. simpl. unfold mbind, M_bind.
      repeat (match goal with |- context [act E ?op ?w0] =>
                destruct (act E op w0) as [[?|[]] ?] end; try reflexivity). }
    split; [|split; [done|]].
    + split; [|done]. intros ->.
      by destruct (acts_log_outside _ _ _ _ Ha eq_refl) as (op & ? & _).
    + intros e -> _. by apply (acts_log_outside _ _ l _ Ha).
Qed.

Lemma loginWithCredentials_guard_witness :
  (LoginPage.loginWithCredentials calm (mkPage 0 0) bare).1 =
    inl (JsError "Credentials not found in environment variables") ∧
  (LoginPage.loginWithCredentials calm (mkPage 0 0) bare).2 = bare.
Proof.
  destruct (loginWithCredentials_guard calm (mkPage 0 0) bare)
    as (r & w' & -> & [_ Hr] & Hw & _).
  simpl. split; [apply Hr|apply Hw]; reflexivity.
Defined.

Lemma loginPage_chain (E : Env) (page : Page) (w : World) :
  credentialsMissing w = false →
  LoginPage.loginWithCredentials E page w =
    fold_right (fun op k => act E op;; k) (ret tt)
      (loginPage_actions page
         (or_empty (process_env w !! "TEST_USER_ADMIN_PASSWORD"))) w.
Proof.
  unfold credentialsMissing. intros Hm.
  unfold LoginPage.loginWithCredentials, mbind, M_bind at 1 2, getenv.
  cbv zeta. rewrite Hm. simpl. unfold mbind, M_bind.
  repeat (match goal with |- context [act E ?op ?w0] =>
            destruct (act E op w0) as [[?|[]] ?] end; try reflexivity).
Qed.

Lemma cartPage_chain (E : Env) (page : Page) (w : World) :
  credentialsMissing w = false →
  AddRemoveCartPage.loginWithCredentials E page w =
    fold_right (fun op k => act E op;; k) (ret tt) (cartPage_actions page) w.
Proof.
  unfold credentialsMissing. intros Hm.
  unfold AddRemoveCartPage.loginWithCredentials, mbind, M_bind at 1 2, getenv.
  cbv zeta. rewrite Hm. simpl. unfold mbind, M_bind.
  repeat (match goal with |- context [act E ?op ?w0] =>
            destruct (act E op w0) as [[?|[]] ?] end; try reflexivity).
Qed.

(** X2. With both credentials present, [LoginPage.loginWithCredentials]
    changes nothing but the log, and its calls are, in this order and up
    to the first that raises: fill the password field, click the user
    name field, click the login button, click the text 'Swag Labs', wait
    for the network to be idle.  It never fills the user name field: the
    user name it read is used for the guard only. *)
Theorem loginWithCredentials_calls (E : Env) (page : Page) (w : World) :
  credentialsMissing w = false →
  ∃ r w' l,
    LoginPage.loginWithCredentials E page w = (r, w') ∧
    only_logs w w' ∧
    trace w' = trace w ++ l ∧
    acts_log (loginPage_actions page
                (or_empty (process_env w !! "TEST_USER_ADMIN_PASSWORD"))) r l ∧
    Forall (fun ev => ∀ v, ev.1 ≠ LocatorFill page LoginPage.inputLogin v) l.
Proof.
  intros Hm. rewrite (loginPage_chain E page w Hm).
  destruct (acts_chain E (loginPage_actions page
              (or_empty (process_env w !! "TEST_USER_ADMIN_PASSWORD"))) w)
    as (r & w' & l & Hrun & Hl & Ht & Ha).
  exists r, w', l. do 4 (split; [done|]).
  apply Forall_forall. intros ev Hev v Heq.
  pose proof (acts_log_ops _ _ _ Ha ev Hev) as Hin. rewrite Heq in Hin.
  unfold loginPage_actions in Hin.
  repeat (apply elem_of_cons in Hin as [Hin|Hin]; [discriminate Hin|]).
  by apply elem_of_nil in Hin.
Qed.

Lemma loginWithCredentials_calls_witness :
  ∃ w', LoginPage.loginWithCredentials calm (mkPage 0 0) signedIn = (inr tt, w') ∧
        Forall (fun ev => ∀ v, ev.1 ≠ LocatorFill (mkPage 0 0) LoginPage.inputLogin v)
               (trace w').
Proof.
  destruct (loginWithCredentials_calls calm (mkPage 0 0) signedIn)
    as (r & w' & l & Hrun & _ & Ht & _ & Hf); [reflexivity|].
  exists w'. split; [|by rewrite Ht].
  assert ((LoginPage.loginWithCredentials calm (mkPage 0 0) signedIn).1 = inr tt)
    as Hok by reflexivity.
  rewrite Hrun in Hok. simpl in Hok. by rewrite Hrun, Hok.
Defined.

(** X3. [AddRemoveCartPage.loginWithCredentials] has the same guard as
    the login page's, and never uses the credentials it checked: it fills no
    field.  When a credential is missing it raises "Credentials not found in
    environment variables" without any call; otherwise its calls are four
    clicks (add and remove the backpack, add and remove the bike light) and
    a wait, up to the first that raises. *)
Theorem cartPage_loginWithCredentials_calls (E : Env) (page : Page) (w : World) :
  ∃ r w' l,
    AddRemoveCartPage.loginWithCredentials E page w = (r, w') ∧
    only_logs w w' ∧
    trace w' = trace w ++ l ∧
    (credentialsMissing w = true →
     r = inl (JsError "Credentials not found in environment variables") ∧ l = []) ∧
    (credentialsMissing w = false → acts_log (cartPage_actions page) r l) ∧
    Forall (fun ev => isFill ev.1 = false) l.
Proof.
  destruct (credentialsMissing w) eqn:Hm.
  - exists (inl (JsError "Credentials not found in environment variables")), w, [].
    split.
    { unfold credentialsMissing in Hm.
      unfold AddRemoveCartPage.loginWithCredentials, mbind, M_bind, getenv.
      cbv zeta. by rewrite Hm. }
    rewrite app_nil_r. by repeat split.
  - rewrite (cartPage_chain E page w Hm).
    destruct (acts_chain E (cartPage_actions page) w)
      as (r & w' & l & Hrun & Hl & Ht & Ha).
    exists r, w', l. do 3 (split; [done|]). split; [done|]. split; [done|].
    apply Forall_forall. intros ev Hev.
    pose proof (acts_log_ops _ _ _ Ha ev Hev) as Hin.
    unfold cartPage_actions in Hin.
    repeat (apply elem_of_cons in Hin as [->|Hin]; [reflexivity|]).
    by apply elem_of_nil in Hin.
Qed.

Lemma cartPage_loginWithCredentials_calls_witness :
  (AddRemoveCartPage.loginWithCredentials calm (mkPage 0 0) bare).1 =
    inl (JsError "Credentials not found in environment variables") ∧
  (AddRemoveCartPage.loginWithCredentials calm (mkPage 0 0) signedIn).1 = inr tt.
Proof.
  split.
  - destruct (cartPage_loginWithCredentials_calls calm (mkPage 0 0) bare)
      as (r & w' & l & -> & _ & _ & H & _).
    simpl. apply H. reflexivity.
  - destruct (cartPage_loginWithCredentials_calls calm (mkPage 0 0) signedIn)
      as (r & w' & l & Hrun & _ & _ & _ & H & _).
    specialize (H eq_refl). rewrite Hrun. simpl.
    assert ((AddRemoveCartPage.loginWithCredentials calm (mkPage 0 0) signedIn).1
              = inr tt) as Hok by reflexivity.
    by rewrite Hrun in Hok.
Defined.

(** ** More of the code: fillWithRetry, every way it ends *)

Lemma fillWithRetry_from_step (E : Env) (page : Page)
    (selector value : string) (retries : Q) (n : nat) (i : Z) (w : World) :
  let fill := PageFill page selector value 5000 in
  let read := PageInputValue page selector in
  let wait := PageWaitForTimeout page 1000 in
  let after_raise (op : Op) (w1 : World) :=
    if num_eq i (retries - 1)%Q then (inl (Thrown op), w1)
    else if throws E wait w1
         then (inl (Thrown wait), log wait Rejected w1)
         else fillWithRetry_from E page selector value retries n (i + 1)
                (log wait Done w1) in
  num_lt i retries = true →
  fillWithRetry_from E page selector value retries (S n) i w =
    if throws E fill w then after_raise fill (log fill Rejected w)
    else
      let w1 := log fill Done w in
      if throws E read w1 then after_raise read (log read Rejected w1)
      else
        let s := inputValue E page selector w1 in
        if String.eqb s value then (inr tt, log read (Str s) w1)
        else fillWithRetry_from E page selector value retries n (i + 1)
               (log read (Str s) w1).
Proof.
  cbv zeta. intros Hlt. simpl. rewrite Hlt.
  unfold mbind, M_bind, try_catch, pageInputValue, outside.
  rewrite !act_log.
  destruct (throws E (PageFill page selector value 5000) w).
  - destruct (num_eq i (retries - 1)%Q); [reflexivity|].
    unfold mbind, M_bind. rewrite act_log. by destruct (throws E _ _).
  - destruct (throws E (PageInputValue page selector) _).
    + destruct (num_eq i (retries - 1)%Q); [reflexivity|].
      unfold mbind, M_bind. rewrite act_log. by destruct (throws E _ _).
    + unfold ret. by destruct (String.eqb _ _).
Qed.

(** An ending with one more attempt before it. *)
Lemma fill_end_later (page : Page) (selector value : string)
    (integral : bool) (n k : nat) (r : error + unit) (last : list (Op * Res)) :
  (0 < n)%nat →
  fill_end page selector value integral n r k last →
  fill_end page selector value integral (S n) r (S k) last.
Proof.
  intros Hn He. destruct He.
  - apply fill_ok. lia.
  - lia.
  - replace (S (pred n)) with (pred (S n)) by lia. apply fill_gave_up; [done|lia].
  - replace (S (pred n)) with (pred (S n)) by lia. apply fill_last_raised; [done|lia].
  - replace (S (pred n)) with (pred (S n)) by lia. apply read_last_raised; [done|lia].
  - replace (S (pred n)) with (pred (S n)) by lia. apply fill_last_swallowed; [done|lia].
  - replace (S (pred n)) with (pred (S n)) by lia. apply read_last_swallowed; [done|lia].
  - apply wait_raised_after_fill. destruct integral; lia.
  - apply wait_raised_after_read. destruct integral; lia.
Qed.

Lemma fillWithRetry_from_shape (E : Env) (page : Page)
    (selector value : string) (retries : Q) :
  ∀ n i w,
    (0 < n)%nat → i + Z.of_nat n = Qceiling retries →
    ∃ rounds last,
      fill_end page selector value (whole retries) n
        (fillWithRetry_from E page selector value retries n i w).1
        (length rounds) last ∧
      only_logs w (fillWithRetry_from E page selector value retries n i w).2 ∧
      trace (fillWithRetry_from E page selector value retries n i w).2 =
        trace w ++ concat rounds ++ last ∧
      Forall (fill_miss page selector value) rounds.
Proof.
  induction n as [|n IH]; intros i w Hpos Hi; [lia|].
  set (fill := PageFill page selector value 5000).
  set (read := PageInputValue page selector).
  set (wait := PageWaitForTimeout page 1000).
  assert (num_lt i retries = true) as Hlt by (apply num_lt_ceiling; lia).
  (* the attempt is the one with the loop variable at [retries - 1] *)
  assert (num_eq i (retries - 1)%Q = true → whole retries = true ∧ n = 0%nat)
    as Hlast.
  { intros [Hw Hn]%num_eq_last. split; [done|lia]. }
  assert (num_eq i (retries - 1)%Q = false → n = 0%nat → whole retries = false)
    as Hfrac.
  { intros Hne Hn. apply not_true_iff_false. intros Hw.
    apply not_true_iff_false in Hne. apply Hne, num_eq_last. split; [done|lia]. }
  assert (num_eq i (retries - 1)%Q = false →
          (if whole retries then 1 < S n else 0 < S n)%nat) as Hwait.
  { intros Hne. destruct (whole retries) eqn:Hw; [|lia].
    destruct n; [|lia]. specialize (Hfrac Hne eq_refl). congruence. }
  (* what is left after an attempt that missed, with the log [round] *)
  assert (∀ w1 round,
            only_logs w w1 → trace w1 = trace w ++ round →
            fill_miss page selector value round →
            (0 < n)%nat →
            ∃ rounds last,
              fill_end page selector value (whole retries) (S n)
                (fillWithRetry_from E page selector value retries n (i + 1) w1).1
                (length rounds) last ∧
              only_logs w (fillWithRetry_from E page selector value retries n (i + 1) w1).2 ∧
              trace (fillWithRetry_from E page selector value retries n (i + 1) w1).2 =
                trace w ++ concat rounds ++ last ∧
              Forall (fill_miss page selector value) rounds) as Hnext.
  { intros w1 round Hl1 Ht1 Hmiss Hn.
    destruct (IH (i + 1) w1 Hn ltac:(lia)) as (rounds & last & He & Hl & Ht & Hf).
    exists (round :: rounds), last. split; [|split; [|split]].
    - simpl length. by apply fill_end_later.
    - etransitivity; [exact Hl1|exact Hl].
    - rewrite Ht, Ht1. simpl. by rewrite <- !app_assoc.
    - by constructor. }
  rewrite (fillWithRetry_from_step E page selector value retries n i w Hlt).
  cbv zeta. fold fill read wait.
  destruct (throws E fill w) eqn:Hf.
  - (* fill raised *)
    destruct (num_eq i (retries - 1)%Q) eqn:Heq.
    + destruct (Hlast eq_refl) as [Hw ->].
      exists [], [(fill, Rejected)]. simpl. split; [|by repeat split].
      apply (fill_last_raised _ _ _ _ 1); [done|lia].
    + destruct (throws E wait (log fill Rejected w)) eqn:Hw.
      * exists [], [(fill, Rejected); (wait, Rejected)]. simpl.
        split; [apply wait_raised_after_fill; by apply Hwait|].
        split; [by repeat split|]. by rewrite <- app_assoc.
      * destruct n as [|n'].
        -- exists [], [(fill, Rejected); (wait, Done)]. simpl.
           split; [apply (fill_last_swallowed _ _ _ _ 1); [by apply Hfrac|lia]|].
           split; [by repeat split|]. by rewrite <- app_assoc.
        -- apply (Hnext _ [(fill, Rejected); (wait, Done)]);
             [by repeat split| |constructor|lia].
           simpl. by rewrite <- app_assoc.
  - set (w1 := log fill Done w).
    destruct (throws E read w1) eqn:Hr.
    + (* inputValue raised *)
      destruct (num_eq i (retries - 1)%Q) eqn:Heq.
      * destruct (Hlast eq_refl) as [Hw ->].
        exists [], [(fill, Done); (read, Rejected)]. simpl.
        split; [apply (read_last_raised _ _ _ _ 1); [done|lia]|].
        split; [by repeat split|]. by rewrite <- app_assoc.
      * destruct (throws E wait (log read Rejected w1)) eqn:Hw.
        -- exists [], [(fill, Done); (read, Rejected); (wait, Rejected)]. simpl.
           split; [apply wait_raised_after_read; by apply Hwait|].
           split; [by repeat split|]. by rewrite <- !app_assoc.
        -- destruct n as [|n'].
           ++ exists [], [(fill, Done); (read, Rejected); (wait, Done)]. simpl.
              split; [apply (read_last_swallowed _ _ _ _ 1); [by apply Hfrac|lia]|].
              split; [by repeat split|]. by rewrite <- !app_assoc.
           ++ apply (Hnext _ [(fill, Done); (read, Rejected); (wait, Done)]);
                [by repeat split| |constructor|lia].
              simpl. by rewrite <- !app_assoc.
    + destruct (String.eqb (inputValue E page selector w1) value) eqn:Heq.
      * apply String.eqb_eq in Heq.
        exists [], [(fill, Done); (read, Str value)]. simpl.
        split; [apply fill_ok; lia|]. split; [by repeat split|].
        rewrite Heq. by rewrite <- app_assoc.
      * apply String.eqb_neq in Heq.
        destruct n as [|n'].
        -- exists [], [(fill, Done); (read, Str (inputValue E page selector w1))].
           simpl. split; [apply (fill_gave_up _ _ _ _ 1); [done|lia]|].
           split; [by repeat split|]. by rewrite <- app_assoc.
        -- apply (Hnext _ [(fill, Done); (read, Str (inputValue E page selector w1))]);
             [by repeat split| |by constructor|lia].
           simpl. by rewrite <- app_assoc.
Qed.

(** X4. Every way [fillWithRetry] ends, for [retries] an integer or a
    fraction.  It changes nothing but the log, and its log is a number of
    attempts after which the loop went on (a read-back other than the value,
    or an error of [fill] or [inputValue] swallowed and followed by a wait
    of one second), then the attempt it ends in.  It returns normally right
    after a read-back equal to the value, or after its last attempt read
    back something else, or at once and with no call when [retries] is not
    positive.  When [retries] is an integer it raises what [fill] or
    [inputValue] raised at the last attempt; when [retries] is a fraction
    that error is swallowed too, and the function waits and returns
    normally.  Otherwise it raises only what [waitForTimeout] raised.  The
    loop stops by its own test: more fuel changes nothing. *)
Theorem fillWithRetry_outcomes (E : Env) (page : Page)
    (selector value : string) (retries : Q) (w : World) :
  ∃ r w' rounds last,
    fillWithRetry E page selector value retries w = (r, w') ∧
    (∀ k, fillWithRetry_from E page selector value retries
            (attempts retries + k) 0 w = (r, w')) ∧
    only_logs w w' ∧
    trace w' = trace w ++ concat rounds ++ last ∧
    Forall (fill_miss page selector value) rounds ∧
    fill_end page selector value (whole retries) (attempts retries) r
      (length rounds) last ∧
    ((retries <= 0)%Q → r = inr tt ∧ w' = w).
Proof.
  assert (∀ k, fillWithRetry_from E page selector value retries
                 (attempts retries + k) 0 w =
               fillWithRetry E page selector value retries w) as Hfuel.
  { intros k. apply fillWithRetry_from_fuel. unfold attempts. lia. }
  unfold fillWithRetry in *.
  destruct (attempts retries) as [|n] eqn:Hn.
  - exists (inr tt), w, [], []. simpl. rewrite app_nil_r.
    split; [done|]. split; [exact Hfuel|]. split; [done|]. split; [done|].
    split; [constructor|]. split; [by apply fill_none|done].
  - destruct (fillWithRetry_from_shape E page selector value retries (S n) 0 w)
      as (rounds & last & He & Hl & Ht & Hf); [lia|unfold attempts in Hn; lia|].
    destruct (fillWithRetry_from E page selector value retries (S n) 0 w)
      as [r w'].
    exists r, w', rounds, last. simpl in *. do 6 (split; [done|]).
    intros H%attempts_none. congruence.
Qed.

Lemma fillWithRetry_outcomes_witness :
  fillWithRetry calm (mkPage 0 0) "#name" "wanted" (inject_Z 0) bare
    = (inr tt, bare) ∧
  fillWithRetry calm (mkPage 0 0) "#name" "wanted" (-5 # 2) bare
    = (inr tt, bare) ∧
  fillWithRetry_from frozen (mkPage 0 0) "#name" "wanted" (5 # 2) 10 0 bare =
    fillWithRetry frozen (mkPage 0 0) "#name" "wanted" (5 # 2) bare.
Proof.
  split; [|split].
  - destruct (fillWithRetry_outcomes calm (mkPage 0 0) "#name" "wanted"
                (inject_Z 0) bare)
      as (r & w' & rounds & last & -> & _ & _ & _ & _ & _ & H).
    by destruct H as [-> ->].
  - destruct (fillWithRetry_outcomes calm (mkPage 0 0) "#name" "wanted"
                (-5 # 2) bare)
      as (r & w' & rounds & last & -> & _ & _ & _ & _ & _ & H).
    by destruct H as [-> ->].
  - destruct (fillWithRetry_outcomes frozen (mkPage 0 0) "#name" "wanted"
                (5 # 2) bare)
      as (r & w' & rounds & last & Hrun & Hfuel & _).
    rewrite Hrun. exact (Hfuel 7%nat).
Defined.

Lemma fillWithRetry_from_always_raises (E : Env) (page : Page)
    (selector value : string) (retries : Q) :
  let fill := PageFill page selector value 5000 in
  let wait := PageWaitForTimeout page 1000 in
  (∀ w0, throws E fill w0 = true) →
  (∀ w0, throws E wait w0 = false) →
  ∀ n i w,
    i + Z.of_nat (S n) = Qceiling retries →
    ∃ w',
      fillWithRetry_from E page selector value retries (S n) i w =
        (if whole retries then inl (Thrown fill) else inr tt, w') ∧
      trace w' =
        trace w ++ concat (replicate n [(fill, Rejected); (wait, Done)]) ++
        (fill, Rejected) :: (if whole retries then [] else [(wait, Done)]).
Proof.
  intros fill wait Hfill Hwait. induction n as [|n IH]; intros i w Hi.
  - rewrite fillWithRetry_from_step by (apply num_lt_ceiling; lia).
    cbv zeta. fold fill wait. rewrite Hfill.
    destruct (whole retries) eqn:Hw.
    + assert (num_eq i (retries - 1)%Q = true) as ->
        by (apply num_eq_last; split; [done|lia]).
      eexists. split; [reflexivity|]. done.
    + assert (num_eq i (retries - 1)%Q = false) as ->.
      { apply not_true_iff_false. intros [? _]%num_eq_last. congruence. }
      rewrite Hwait. eexists. split; [reflexivity|]. simpl.
      by rewrite <- app_assoc.
  - rewrite fillWithRetry_from_step by (apply num_lt_ceiling; lia).
    cbv zeta. fold fill wait. rewrite Hfill, Hwait.
    assert (num_eq i (retries - 1)%Q = false) as ->.
    { apply not_true_iff_false. intros [_ ?]%num_eq_last. lia. }
    destruct (IH (i + 1) (log wait Done (log fill Rejected w))) as (w' & Hrun & Ht);
      [lia|].
    exists w'. split; [exact Hrun|]. rewrite Ht. simpl. by rewrite <- !app_assoc.
Qed.

(** X5. When [page.fill] raises at every attempt and the waits go through,
    [fillWithRetry] with a positive [retries] makes as many attempts as
    there are integers from 0 below [retries].  When [retries] is an integer
    it waits one second after each attempt but the last and raises what the
    last [fill] raised.  When [retries] is a fraction it waits after every
    attempt, the last included, and returns normally: the caller is not
    told that the field was never filled. *)
Theorem fillWithRetry_fill_always_raises (E : Env) (page : Page)
    (selector value : string) (retries : Q) (w : World) :
  let fill := PageFill page selector value 5000 in
  let wait := PageWaitForTimeout page 1000 in
  (∀ w0, throws E fill w0 = true) →
  (∀ w0, throws E wait w0 = false) →
  (0 < retries)%Q →
  (0 < attempts retries)%nat ∧
  ∃ w',
    fillWithRetry E page selector value retries w =
      (if whole retries then inl (Thrown fill) else inr tt, w') ∧
    trace w' =
      trace w ++
      concat (replicate (attempts retries - 1) [(fill, Rejected); (wait, Done)]) ++
      (fill, Rejected) :: (if whole retries then [] else [(wait, Done)]).
Proof.
  intros fill wait Hfill Hwait Hpos.
  assert (0 < Qceiling retries) as Hc.
  { destruct (Z_lt_le_dec 0 (Qceiling retries)) as [|Hle]; [done|].
    exfalso. apply (Qlt_irrefl 0). eapply Qlt_le_trans; [exact Hpos|].
    eapply Qle_trans; [apply Qle_ceiling|]. change 0%Q with (inject_Z 0).
    by rewrite <- Zle_Qle. }
  split; [unfold attempts; lia|].
  unfold fillWithRetry.
  destruct (attempts retries) as [|n] eqn:Hn; [unfold attempts in Hn; lia|].
  replace (S n - 1)%nat with n by lia.
  apply (fillWithRetry_from_always_raises E page selector value retries Hfill Hwait).
  unfold attempts in Hn. lia.
Qed.

Lemma fillWithRetry_fill_always_raises_witness :
  (∃ w', fillWithRetry frozen (mkPage 0 0) "#name" "wanted" (inject_Z 3) bare =
           (inl (Thrown (PageFill (mkPage 0 0) "#name" "wanted" 5000)), w') ∧
         length (trace w') = 5%nat) ∧
  (∃ w', fillWithRetry frozen (mkPage 0 0) "#name" "wanted" (5 # 2) bare =
           (inr tt, w') ∧
         length (trace w') = 6%nat).
Proof.
  split.
  - destruct (fillWithRetry_fill_always_raises frozen (mkPage 0 0) "#name" "wanted"
                (inject_Z 3) bare)
      as (_ & w' & H & Ht); [done|done|reflexivity|].
    exists w'. split; [exact H|]. by rewrite Ht.
  - destruct (fillWithRetry_fill_always_raises frozen (mkPage 0 0) "#name" "wanted"
                (5 # 2) bare)
      as (_ & w' & H & Ht); [done|done|reflexivity|].
    exists w'. split; [exact H|]. by rewrite Ht.
Defined.

(** ** More of the code: the cache over time *)

(** X6. Staleness only grows with time: when the check answers [true] at
    some time without having met an access error, it answers [true] at
    every later time, the file system being the same. *)
Theorem isAuthStateStale_monotone (E : Env) (d : Path) (w : World) (t t' : Z) :
  let p := STORAGE_STATE_PATH d in
  t ≤ t' →
  accessDenied E p (set_now t w) = false →
  (isAuthStateStale E d (set_now t w)).1 = inr true →
  (isAuthStateStale E d (set_now t' w)).1 = inr true.
Proof.
  intros p Ht Ha.
  destruct (isAuthStateStale_run E d (set_now t w)) as [w1 ->].
  destruct (isAuthStateStale_run E d (set_now t' w)) as [w2 ->].
  fold p. rewrite Ha. simpl. intros [= Hs]. f_equal.
  apply orb_true_iff. right. unfold isStale in *.
  destruct (fs w !! p) as [n|]; [|done].
  apply Z.ltb_lt in Hs. apply Z.ltb_lt. lia.
Qed.

Lemma isAuthStateStale_monotone_witness :
  (isAuthStateStale calm here (set_now 9000000 (saved 0 4000000))).1 = inr true.
Proof.
  apply (isAuthStateStale_monotone calm here (saved 0 4000000) 4000000 9000000).
  - lia.
  - reflexivity.
  - reflexivity.
Defined.

Lemma newContext_from_file (E : Env) (p : Path) (w w' : World) (c : nat) :
  newContext E (Some p) w = (inr c, w') →
  ∃ t content,
    fs w !! p = Some (File t content) ∧
    contexts w' !! c = Some (Some content).
Proof.
  unfold newContext, outside. repeat case_match; try done.
  intros [= <- <-]. eexists _, _. split; [done|]. simpl. apply lookup_insert_eq.
Qed.

Lemma ensureFresh_leaves_fresh (E : Env) (d : Path) (w w1 : World) :
  ensureFresh E d w = (inr tt, w1) →
  now w1 = now w ∧
  isStale (fs w1 !! STORAGE_STATE_PATH d) AUTH_STATE_MAX_AGE_MS (now w1) = false.
Proof.
  intros Hrun.
  pose proof (steps_run _ _ _ _ _ (ensureFresh_same_clock E d) Hrun) as [N _].
  split; [done|].
  pose proof (ensureFresh_anatomy E d w) as Hr. rewrite Hrun in Hr.
  inversion Hr as [w0 H1|w0 w2 e w3 H1 H2 H3|w0 w2 c w3 e w4 H1 H2 H3 H4
                   |w0 w2 c w3 pg w4 r5 w5 rc w6 H1 H2 H3 H4 Hc H5 H6]; subst.
  - pose proof (steps_run _ _ _ _ _ (missingOrStale_only_logs E d) H1) as (-> & -> & _).
    by eapply missingOrStale_false.
  - destruct rc as [e|[]]; [done|]. subst r5.
    apply setupAuthState_inr in H5 as [w0' H5].
    pose proof (steps_run _ _ _ _ _ (closeContext_same_files E _) H6) as [F6 N6].
    rewrite F6, H5. simpl. apply Z.ltb_ge.
    assert (now w4 = now w) as ->; [|unfold AUTH_STATE_MAX_AGE_MS; lia].
    assert (same_clock w w4) as [? _]; [|done].
    along H1 same_clock_tac. along H2 same_clock_tac. along H3 same_clock_tac.
    along H4 same_clock_tac. reflexivity.
Qed.

Lemma fixture_inr (E : Env) (d : Path) (w w' : World) :
  page_fixture E d w = (inr tt, w') ∨
  authenticatedContext_fixture E d w = (inr tt, w') →
  ∃ w1 c w2,
    ensureFresh E d w = (inr tt, w1) ∧
    newContext E (Some (STORAGE_STATE_PATH d)) w1 = (inr c, w2) ∧
    same_files w1 w'.
Proof.
  intros [Hrun|Hrun].
  - unfold page_fixture, mbind, M_bind in Hrun.
    destruct (ensureFresh E d w) as [[e|[]] w1] eqn:H1; [done|].
    destruct (newContext E _ w1) as [[e|c] w2] eqn:H2; [done|].
    destruct (newPage E c w2) as [[e|pg] w3] eqn:H3; [done|].
    unfold use in Hrun. simpl in Hrun.
    exists w1, c, w2. do 2 (split; [done|]).
    along H2 same_files_tac. along H3 same_files_tac.
    etransitivity; [|eapply steps_run; [|exact Hrun]; steps_by same_files_tac].
    by split.
  - unfold authenticatedContext_fixture, mbind, M_bind in Hrun.
    destruct (ensureFresh E d w) as [[e|[]] w1] eqn:H1; [done|].
    destruct (newContext E _ w1) as [[e|c] w2] eqn:H2; [done|].
    unfold use in Hrun. simpl in Hrun.
    exists w1, c, w2. do 2 (split; [done|]).
    along H2 same_files_tac.
    etransitivity; [|eapply steps_run; [|exact Hrun]; steps_by same_files_tac].
    by split.
Qed.

(** X7. An acquisition that returns normally leaves at the state path a
    file that is not stale.  So a second acquisition, at any time at which
    that file is no older than the maximum age and with no access error in
    its check, is served from the cache: [ensureFresh] returns normally
    without calling [setupAuthState] and without changing anything but the
    log, and the context it then opens is initialized from the very content
    the first acquisition left. *)
Theorem acquisition_reused (E : Env) (d : Path) (w w' : World) :
  let p := STORAGE_STATE_PATH d in
  page_fixture E d w = (inr tt, w') ∨
  authenticatedContext_fixture E d w = (inr tt, w') →
  ∃ t0 content,
    fs w' !! p = Some (File t0 content) ∧
    now w' - t0 ≤ AUTH_STATE_MAX_AGE_MS ∧
    ∀ E' t,
      t - t0 ≤ AUTH_STATE_MAX_AGE_MS →
      (∀ w0, throws E' (ExistsSync p) w0 = false) →
      (∀ w0, throws E' (StatSync p) w0 = false) →
      ∃ w'',
        ensureFresh E' d (set_now t w') = (inr tt, w'') ∧
        only_logs (set_now t w') w'' ∧
        logins (trace w'') = logins (trace w') ∧
        ∀ c w3, newContext E' (Some p) w'' = (inr c, w3) →
                contexts w3 !! c = Some (Some content).
Proof.
  intros p Hrun.
  destruct (fixture_inr E d w w' Hrun) as (w1 & c & w2 & H1 & H2 & [F N]).
  destruct (newContext_from_file E p w1 w2 c H2) as (t0 & content & Hf & _).
  destruct (ensureFresh_leaves_fresh E d w w1 H1) as [_ Hfresh].
  fold p in Hfresh. rewrite Hf in Hfresh. simpl in Hfresh.
  apply Z.ltb_ge in Hfresh.
  exists t0, content. split; [by rewrite F|]. split; [lia|].
  intros E' t Ht He Hs.
  pose proof (missingOrStale_fresh E' d (set_now t w') (File t0 content)) as Hm.
  fold p in Hm. simpl in Hm. rewrite F in Hm. specialize (Hm Hf Ht He Hs).
  eexists. split.
  { unfold ensureFresh, mbind, M_bind at 1. rewrite Hm. reflexivity. }
  split; [done|]. split; [same_logins_tac|].
  intros c' w3 H3.
  destruct (newContext_from_file E' p _ _ _ H3) as (t1 & content' & Hf' & Hc).
  simpl in Hf'. rewrite F, Hf in Hf'. by injection Hf' as <- <-.
Qed.

Lemma acquisition_reused_witness :
  let w' := (page_fixture calm here bare).2 in
  ∃ w'', ensureFresh calm here (set_now 6000 w') = (inr tt, w'') ∧
         logins (trace w'') = 1%nat.
Proof.
  intros w'.
  destruct (acquisition_reused calm here bare w') as (t0 & content & Hf & _ & H).
  - left. unfold w'. vm_compute. reflexivity.
  - assert (t0 = 5000) as ->.
    { unfold w' in Hf. vm_compute in Hf. congruence. }
    destruct (H calm 6000) as (w'' & Hrun & _ & Hl & _); [unfold AUTH_STATE_MAX_AGE_MS; lia|done|done|].
    exists w''. split; [exact Hrun|]. rewrite Hl. unfold w'. vm_compute. reflexivity.
Defined.

(** ** More of the code: a directory at the state path *)

#[local] Instance keeps_dir_preorder (p : Path) (t : Z) : PreOrder (keeps_dir p t).
Proof.
  split.
  - intros w H. exact H.
  - intros w1 w2 w3 H1 H2 H. by apply H2, H1.
Qed.

Ltac keeps_dir_tac :=
  let Hd := fresh "Hd" in
  intros Hd; simpl in *;
  first
    [ exact Hd
    | by rewrite mkdir_all_lookup, Hd
    | by rewrite withDirs_at
    | exfalso;
      match goal with
      | H : canWrite _ _ = true |- _ =>
          unfold canWrite in H; rewrite Hd in H; by rewrite andb_false_r in H
      end
    | rewrite Hd in *; simplify_eq; done ].

Lemma fixtures_keep_dir (E : Env) (d : Path) (t : Z) :
  steps (keeps_dir (STORAGE_STATE_PATH d) t) (ensureFresh E d) ∧
  steps (keeps_dir (STORAGE_STATE_PATH d) t) (page_fixture E d) ∧
  steps (keeps_dir (STORAGE_STATE_PATH d) t) (authenticatedContext_fixture E d) ∧
  (∀ pg, steps (keeps_dir (STORAGE_STATE_PATH d) t) (setupAuthState E d pg)).
Proof. split; [|split; [|split]]; intros; steps_by keeps_dir_tac. Qed.

(** X8. When the entry at the state path is a directory, neither fixture
    ever returns normally, and the directory stays: if it looks fresh the
    context cannot be opened from it, and if it looks stale it can neither
    be unlinked nor overwritten by the regenerated state.  Both fixtures end
    with the same error in the same world. *)
Theorem directory_at_state_path (E : Env) (d : Path) (w : World) (t : Z) :
  let p := STORAGE_STATE_PATH d in
  fs w !! p = Some (Dir t) →
  ∃ e w',
    page_fixture E d w = (inl e, w') ∧
    authenticatedContext_fixture E d w = (inl e, w') ∧
    fs w' !! p = Some (Dir t).
Proof.
  intros p Hd.
  destruct (fixtures_keep_dir E d t) as (K1 & _ & _ & _).
  destruct (ensureFresh E d w) as [[e|[]] w1] eqn:H1;
    pose proof (steps_run _ _ _ _ _ K1 H1 Hd) as Hd1.
  - exists e, w1. destruct (fixtures_after_failure E d w _ _ H1) as [-> ->]. done.
  - assert (newContext E (Some p) w1 =
              (inl (Thrown (NewContext (Some p))),
               log (NewContext (Some p)) Rejected w1)) as H2.
    { unfold newContext, outside. fold p in Hd1. rewrite Hd1.
      by destruct (throws E _ w1). }
    exists (Thrown (NewContext (Some p))), (log (NewContext (Some p)) Rejected w1).
    unfold page_fixture, authenticatedContext_fixture, mbind, M_bind.
    fold p. by rewrite H1, H2.
Qed.

Lemma directory_at_state_path_witness :
  ∃ e w', page_fixture calm here (blocked 0 9000000) = (inl e, w') ∧
          fs w' !! STORAGE_STATE_PATH here = Some (Dir 0).
Proof.
  destruct (directory_at_state_path calm here (blocked 0 9000000) 0)
    as (e & w' & H & _ & Hd); [reflexivity|].
  by exists e, w'.
Defined.

(** X9. Once [clearAuthState] has removed the state file, or found none,
    the state is stale at every time and whatever the oracle says: the
    staleness check answers [true] and the test of the fixtures is true, so
    that the next acquisition regenerates. *)
Theorem clearAuthState_forces_stale (E : Env) (d : Path) (w w1 : World) :
  let p := STORAGE_STATE_PATH d in
  clearAuthState E d w = (inr tt, w1) →
  fs w !! p = None ∨ unlinked E p w = true →
  fs w1 !! p = None ∧
  ∀ E' t,
    (isAuthStateStale E' d (set_now t w1)).1 = inr true ∧
    (missingOrStale E' d (set_now t w1)).1 = inr true.
Proof.
  intros p Hrun Hgone.
  destruct (clearAuthState_run E d w) as (w1' & Hrun' & Hfs). fold p in Hfs.
  rewrite Hrun in Hrun'. injection Hrun' as <-.
  assert (fs w1 !! p = None) as Hn.
  { rewrite Hfs. destruct Hgone as [Hn| ->].
    - destruct (unlinked E p w); by rewrite ?lookup_delete_eq.
    - apply lookup_delete_eq. }
  split; [done|]. intros E' t.
  assert (isStale (fs (set_now t w1) !! p) AUTH_STATE_MAX_AGE_MS
            (now (set_now t w1)) = true) as Hst.
  { simpl. by rewrite Hn. }
  split.
  - destruct (isAuthStateStale_run E' d (set_now t w1)) as [w2 ->].
    fold p. rewrite Hst. simpl. by rewrite orb_true_r.
  - by destruct (missingOrStale_stale E' d (set_now t w1) Hst) as [w2 ->].
Qed.

Lemma clearAuthState_forces_stale_witness :
  (missingOrStale calm here (clearAuthState calm here (saved 4000 5000)).2).1
    = inr true.
Proof.
  destruct (clearAuthState_forces_stale calm here (saved 4000 5000)
              (clearAuthState calm here (saved 4000 5000)).2) as [_ H].
  - reflexivity.
  - right. reflexivity.
  - destruct (H calm 5000) as [_ Hm]. exact Hm.
Defined.

(** ** More of the code: the contexts a fixture leaves open *)

#[local] Instance same_contexts_preorder : PreOrder same_contexts.
Proof.
  split.
  - by intros w.
  - intros w1 w2 w3 [C1 N1] [C2 N2]. split; [congruence|lia].
Qed.

#[local] Instance ids_ok_preorder : PreOrder ids_ok.
Proof.
  split.
  - by intros w.
  - intros w1 w2 w3 [F1 N1] [F2 N2]. split; [auto|lia].
Qed.

Ltac same_contexts_tac := split; simpl; [done|lia].

Ltac ids_ok_tac :=
  split; simpl; [|lia];
  let Hf := fresh "Hf" in let c := fresh "c" in let Hc := fresh "Hc" in
  intros Hf c Hc; simpl in *;
  first
    [ specialize (Hf c Hc); lia
    | apply lookup_insert_is_Some in Hc as [<-|[_ Hc]];
      [lia|specialize (Hf c Hc); lia]
    | apply lookup_delete_is_Some in Hc as [_ Hc]; specialize (Hf c Hc); lia ].

Lemma fixtures_ids_ok (E : Env) (d : Path) :
  steps ids_ok (ensureFresh E d) ∧
  (∀ pg, steps ids_ok (setupAuthState E d pg)) ∧
  (∀ c, steps ids_ok (newPage E c)).
Proof. split; [|split]; intros; steps_by ids_ok_tac. Qed.

Lemma newContext_opens (E : Env) (o : option Path) (w w' : World) (c : nat) :
  newContext E o w = (inr c, w') →
  c = next_id w ∧ next_id w' = S (next_id w) ∧
  ∃ b, contexts w' = <[c := b]> (contexts w).
Proof.
  unfold newContext, outside. repeat case_match; try done;
    intros [= <- <-]; simpl; eauto.
Qed.

Lemma closeContext_inr (E : Env) (c : nat) (w w' : World) :
  closeContext E c w = (inr tt, w') → contexts w' = delete c (contexts w).
Proof. unfold closeContext, outside. case_match; [done|]. by intros [= <-]. Qed.

Lemma fresh_ids_next (w : World) : fresh_ids w → contexts w !! next_id w = None.
Proof.
  intros Hf. destruct (contexts w !! next_id w) eqn:Hc; [|done].
  specialize (Hf (next_id w) ltac:(eauto)). lia.
Qed.

(** What a scope leaves: a context opened, used by a body that opens and
    closes none, and closed. *)
Lemma scope_closed (E : Env) (o : option Path) (w w1 w2 w3 : World) (c : nat) :
  fresh_ids w →
  newContext E o w = (inr c, w1) →
  same_contexts w1 w2 →
  closeContext E c w2 = (inr tt, w3) →
  contexts w3 = contexts w.
Proof.
  intros Hf (-> & _ & b & C1)%newContext_opens [C2 _] C3%closeContext_inr.
  rewrite C3, C2, C1. apply delete_insert_id. by apply fresh_ids_next.
Qed.

Lemma raises_in_ret (P : Op → bool) {A} (a : A) : raises_in P (ret a).
Proof. by intros w e w'. Qed.

Lemma raises_in_bind (P : Op → bool) {A B} (m : M A) (k : A → M B) :
  raises_in P m → (∀ a, raises_in P (k a)) → raises_in P (m ≫= k).
Proof.
  intros Hm Hk w e w'. unfold mbind, M_bind.
  destruct (m w) as [[e1|a] w1] eqn:H1.
  - intros [= <- <-]. eauto.
  - apply Hk.
Qed.

Lemma raises_in_try_catch (P : Op → bool) {A} (m : M A) (h : error → M A) :
  (∀ e, raises_in P (h e)) → raises_in P (try_catch m h).
Proof.
  intros Hh w e w'. unfold try_catch.
  destruct (m w) as [[e1|a] w1]; [apply Hh|done].
Qed.

Ltac raises_in_tac :=
  unfold_programs;
  repeat
    (first
       [ apply raises_in_ret
       | apply raises_in_bind
       | apply raises_in_try_catch
       | match goal with
         | |- raises_in _ (if ?b then _ else _) => destruct b
         end
       | progress cbv zeta ];
     intros);
  intros ? ? ?;
  unfold existsSync, statSync, unlinkSync, mkdirSync, Date_now, getenv,
    newContext, newPage, closeContext, storageState, act, use, entered, outside;
  repeat case_match; intros [= <- <-]; eauto.

Lemma quiet_parts_raise (E : Env) (d : Path) :
  raises_in notScopeCall (missingOrStale E d) ∧
  raises_in notScopeCall (clearAuthState E d) ∧
  (∀ pg, raises_in notScopeCall (setupAuthState E d pg)) ∧
  (∀ o, raises_in notScopeCall (newContext E o)).
Proof. split; [|split; [|split]]; intros; raises_in_tac. Qed.

Lemma quiet_parts_contexts (E : Env) (d : Path) :
  steps same_contexts (missingOrStale E d) ∧
  steps same_contexts (clearAuthState E d) ∧
  (∀ pg, steps same_contexts (setupAuthState E d pg)) ∧
  (∀ c, steps same_contexts (newPage E c)) ∧
  (∀ c pg, steps same_contexts (use E c pg)).
Proof.
  split; [|split; [|split; [|split]]]; intros; steps_by same_contexts_tac.
Qed.

Lemma not_scope_error (e : error) :
  (∃ op, e = Thrown op ∧ notScopeCall op = true) →
  (∀ c, e ≠ Thrown (ContextNewPage c)) ∧ (∀ c, e ≠ Thrown (ContextClose c)).
Proof. intros (op & -> & H). split; intros c [= ->]; done. Qed.

(** The open contexts after [ensureFresh]. *)
Lemma ensureFresh_contexts (E : Env) (d : Path) (w w' : World) (r : error + unit) :
  fresh_ids w →
  ensureFresh E d w = (r, w') →
  ((∀ c, r ≠ inl (Thrown (ContextNewPage c))) →
   (∀ c, r ≠ inl (Thrown (ContextClose c))) →
   contexts w' = contexts w) ∧
  (∀ c, r = inl (Thrown (ContextNewPage c)) →
        contexts w !! c = None ∧ is_Some (contexts w' !! c)).
Proof.
  intros Hf Hrun.
  destruct (quiet_parts_contexts E d) as (Q1 & Q2 & Q3 & Q4 & _).
  destruct (quiet_parts_raise E d) as (_ & _ & R3 & R4).
  pose proof (ensureFresh_anatomy E d w) as Hr. rewrite Hrun in Hr.
  inversion Hr as [w1 H1|w1 w2 e w3 H1 H2 H3|w1 w2 c w3 e w4 H1 H2 H3 H4
                   |w1 w2 c w3 pg w4 r5 w5 rc w6 H1 H2 H3 H4 Hc H5 H6]; subst.
  - destruct (steps_run _ _ _ _ _ Q1 H1) as [C1 _]. split; [done|]. by intros c.
  - destruct (steps_run _ _ _ _ _ Q1 H1) as [C1 _].
    destruct (steps_run _ _ _ _ _ Q2 H2) as [C2 _].
    apply newContext_inl in H3 as H3'. subst e.
    assert (contexts w' = contexts w2) as C3.
    { revert H3. unfold newContext, outside. repeat case_match; by intros [= <-]. }
    split; [intros; congruence|]. by intros c.
  - destruct (steps_run _ _ _ _ _ Q1 H1) as [C1 N1].
    destruct (steps_run _ _ _ _ _ Q2 H2) as [C2 N2].
    apply newContext_opens in H3 as (Hc & N3 & b & C3).
    apply newPage_inl in H4 as H4'. subst e.
    assert (contexts w' = contexts w3) as C4.
    { revert H4. unfold newPage, outside. case_match; by intros [= <-]. }
    split; [intros Hn; by destruct (Hn c)|].
    intros c' [= <-]. split.
    + destruct (contexts w !! c) eqn:Hcc; [|done].
      specialize (Hf c ltac:(eauto)). lia.
    + rewrite C4, C3, lookup_insert_eq. eauto.
  - destruct (steps_run _ _ _ _ _ Q1 H1) as [C1 N1].
    destruct (steps_run _ _ _ _ _ Q2 H2) as [C2 N2].
    destruct (steps_run _ _ _ _ _ (Q4 _) H4) as [C4 N4].
    destruct (steps_run _ _ _ _ _ (Q3 _) H5) as [C5 N5].
    destruct rc as [e|[]].
    + apply closeContext_inl in H6. subst e.
      split; [intros _ Hn; by destruct (Hn (page_context pg))|]. by intros c.
    + assert (contexts w' = contexts w2) as C6.
      { eapply (scope_closed E None w2 w3 w5 w'); [|exact H3| |exact H6].
        - intros c Hc. rewrite C2, C1 in Hc. specialize (Hf c Hc). lia.
        - split; [congruence|lia]. }
      split; [intros; congruence|].
      intros c ->.
      destruct (not_scope_error _ (R3 pg _ _ _ H5)) as [Hn _]. by destruct (Hn c).
Qed.

(** X10. The open browser contexts after an acquisition, starting from a
    world whose context identifiers are fresh.  Unless what the fixture
    raised was raised by [context.newPage()] or by [context.close()], the
    open contexts are exactly those that were open before: in particular
    after a normal return and after a login that raised.  When
    [context.newPage()] raises, in the setup or for the test, the context
    just opened for it is left open: it was not open before and is open
    after. *)
Theorem fixtures_open_contexts (E : Env) (d : Path) (w w' : World)
    (r : error + unit) :
  fresh_ids w →
  page_fixture E d w = (r, w') ∨ authenticatedContext_fixture E d w = (r, w') →
  ((∀ c, r ≠ inl (Thrown (ContextNewPage c))) →
   (∀ c, r ≠ inl (Thrown (ContextClose c))) →
   contexts w' = contexts w) ∧
  (∀ c, r = inl (Thrown (ContextNewPage c)) →
        contexts w !! c = None ∧ is_Some (contexts w' !! c)).
Proof.
  intros Hf Hrun.
  destruct (quiet_parts_contexts E d) as (_ & _ & _ & Q4 & Q5).
  destruct (fixtures_ids_ok E d) as (I1 & _ & _).
  destruct (ensureFresh E d w) as [[e|[]] w1] eqn:H1.
  { destruct (fixtures_after_failure E d w _ _ H1) as [Hp Ha].
    assert ((r, w') = (inl e, w1)) as [= -> ->] by (destruct Hrun; congruence).
    by apply (ensureFresh_contexts E d w w1). }
  destruct (ensureFresh_contexts E d w w1 _ Hf H1) as [C1 _].
  specialize (C1 ltac:(done) ltac:(done)).
  destruct (steps_run _ _ _ _ _ I1 H1) as [F1 N1]. specialize (F1 Hf).
  set (p := STORAGE_STATE_PATH d) in *.
  destruct (newContext E (Some p) w1) as [[e|c] w2] eqn:H2.
  { assert ((r, w') = (inl e, w2)) as [= -> ->].
    { destruct Hrun as [<-|<-];
        unfold page_fixture, authenticatedContext_fixture, mbind, M_bind;
        fold p; by rewrite H1, H2. }
    apply newContext_inl in H2 as H2'. subst e.
    assert (contexts w2 = contexts w1) as C2.
    { revert H2. unfold newContext, outside. repeat case_match; by intros [= <-]. }
    split; [intros; congruence|]. by intros c. }
  pose proof H2 as (Hc & N2 & b & C2)%newContext_opens.
  assert (contexts w !! c = None) as Hnew.
  { destruct (contexts w !! c) eqn:Hcc; [|done].
    specialize (Hf c ltac:(eauto)). lia. }
  destruct Hrun as [Hrun|Hrun].
  - unfold page_fixture, mbind, M_bind in Hrun. fold p in Hrun.
    rewrite H1, H2 in Hrun.
    destruct (newPage E c w2) as [[e|pg] w3] eqn:H3.
    { injection Hrun as <- <-. apply newPage_inl in H3 as H3'. subst e.
      assert (contexts w3 = contexts w2) as C3.
      { revert H3. unfold newPage, outside. case_match; by intros [= <-]. }
      split; [intros Hn; by destruct (Hn c)|].
      intros c' [= <-]. split; [done|].
      rewrite C3, C2, lookup_insert_eq. eauto. }
    destruct (steps_run _ _ _ _ _ (Q4 _) H3) as [C3 N3].
    unfold use in Hrun. simpl in Hrun.
    destruct r as [e|[]].
    + apply closeContext_inl in Hrun. subst e.
      split; [intros _ Hn; by destruct (Hn c)|]. by intros c'.
    + split; [|by intros c'].
      intros _ _. rewrite <- C1.
      eapply (scope_closed E (Some p) w1 w2 _ w'); [done|exact H2| |exact Hrun].
      split; [simpl; congruence|simpl; lia].
  - unfold authenticatedContext_fixture, mbind, M_bind in Hrun. fold p in Hrun.
    rewrite H1, H2 in Hrun. unfold use in Hrun. simpl in Hrun.
    destruct r as [e|[]].
    + apply closeContext_inl in Hrun. subst e.
      split; [intros _ Hn; by destruct (Hn c)|]. by intros c'.
    + split; [|by intros c'].
      intros _ _. rewrite <- C1.
      eapply (scope_closed E (Some p) w1 w2 _ w'); [done|exact H2| |exact Hrun].
      split; [done|simpl; lia].
Qed.

Lemma fixtures_open_contexts_witness :
  contexts (page_fixture calm here bare).2 = contexts bare ∧
  is_Some (contexts (page_fixture pageless here bare).2 !! 0%nat).
Proof.
  assert (fresh_ids bare) as Hf.
  { intros c Hc. change (contexts bare) with (∅ : gmap nat (option Blob)) in Hc.
    rewrite lookup_empty in Hc. by destruct Hc. }
  split.
  - destruct (fixtures_open_contexts calm here bare (page_fixture calm here bare).2
                (page_fixture calm here bare).1 Hf) as [H _].
    + left. by destruct (page_fixture calm here bare).
    + apply H; intros c; vm_compute; discriminate.
  - destruct (fixtures_open_contexts pageless here bare
                (page_fixture pageless here bare).2
                (page_fixture pageless here bare).1 Hf) as [_ H].
    + left. by destruct (page_fixture pageless here bare).
    + apply (H 0%nat). vm_compute. reflexivity.
Defined.

(** ** More of the code: clearAuthStates *)

Lemma Forall_plain_removelast (l : Path) :
  Forall plain l → Forall plain (removelast l).
Proof.
  induction 1 as [|a l Ha Hl IH]; simpl; [constructor|].
  destruct l; [constructor|]. by constructor.
Qed.

Lemma normalize_step_plain (acc : Path) (seg : string) :
  Forall plain acc → Forall plain (normalize_step acc seg).
Proof.
  intros Hacc. unfold normalize_step.
  destruct (String.eqb seg "..") eqn:H1; [by apply Forall_plain_removelast|].
  destruct (String.eqb seg ".") eqn:H2; [done|].
  apply String.eqb_neq in H1, H2. apply Forall_app. split; [done|].
  by repeat constructor.
Qed.

Lemma normalize_plain (l acc : Path) :
  Forall plain acc → Forall plain (fold_left normalize_step l acc).
Proof.
  revert acc. induction l as [|a l IH]; intros acc Hacc; simpl; [done|].
  by apply IH, normalize_step_plain.
Qed.

Lemma normalize_id (l acc : Path) :
  Forall plain l → fold_left normalize_step l acc = acc ++ l.
Proof.
  intros Hl. revert acc. induction Hl as [|a l [H1 H2] Hl IH]; intros acc; simpl.
  - by rewrite app_nil_r.
  - rewrite IH. unfold normalize_step.
    apply String.eqb_neq in H1, H2. rewrite H1, H2. by rewrite <- app_assoc.
Qed.

Lemma authDir_join (d : Path) :
  path_join d [".."; ".auth"] = path_dirname (STORAGE_STATE_PATH d).
Proof.
  rewrite authDir_eq. unfold path_join. simpl. by unfold normalize_step at 1 2.
Qed.

Lemma authDir_plain (d : Path) :
  Forall plain (path_dirname (STORAGE_STATE_PATH d)).
Proof.
  rewrite <- authDir_join. unfold path_join. do 2 apply normalize_plain.
  constructor.
Qed.

Lemma child_join (d : Path) (name : string) :
  plain name →
  path_join (path_join d [".."; ".auth"]) [name] =
    path_dirname (STORAGE_STATE_PATH d) ++ [name].
Proof.
  intros Hn. rewrite authDir_join. unfold path_join at 1.
  rewrite (normalize_id [name]) by (constructor; [done|constructor]).
  by rewrite (normalize_id _ []) by apply authDir_plain.
Qed.

Lemma state_path_child (d : Path) :
  STORAGE_STATE_PATH d = path_dirname (STORAGE_STATE_PATH d) ++ ["user.json"].
Proof. rewrite authDir_eq, STORAGE_STATE_PATH_eq. by rewrite <- app_assoc. Qed.

Section Sweep.

Context (E : Env) (d : Path).

#[local] Abbreviation A := (path_dirname (STORAGE_STATE_PATH d)).

#[local] Abbreviation sweep :=
  (clearAuthStates_each E (path_join d [".."; ".auth"])).

Lemma sweep_run (name : string) (w : World) :
  plain name →
  let q := A ++ [name] in
  sweep name w =
    if throws E (StatSync q) w
    then (inl (Thrown (StatSync q)), log (StatSync q) Rejected w)
    else match fs w !! q with
         | None => (inl (Thrown (StatSync q)), log (StatSync q) Rejected w)
         | Some n =>
             let w1 := log (StatSync q) (Num (mtimeMs n)) w in
             if isFile (Some n)
             then if throws E (UnlinkSync q) w1
                  then (inl (Thrown (UnlinkSync q)), log (UnlinkSync q) Rejected w1)
                  else (inr tt, log (UnlinkSync q) Done (set_fs (delete q) w1))
             else (inr tt, w1)
         end.
Proof.
  intros Hn q. unfold clearAuthStates_each. cbv zeta.
  rewrite (child_join d name Hn). fold q.
  unfold mbind, M_bind, statSync, unlinkSync, outside.
  destruct (throws E (StatSync q) w); [done|].
  destruct (fs w !! q) as [n|] eqn:Hq; [|done].
  destruct (isFile (Some n)) eqn:Hf; [|done].
  destruct (throws E (UnlinkSync q) _); [done|].
  simpl. by rewrite Hq, Hf.
Qed.

Lemma sweep_inr (name : string) (w w1 : World) :
  plain name →
  sweep name w = (inr tt, w1) →
  let q := A ++ [name] in
  is_Some (fs w !! q) ∧
  fs w1 = (if isFile (fs w !! q) then delete q (fs w) else fs w).
Proof.
  intros Hn Hrun q. rewrite (sweep_run name w Hn) in Hrun. fold q in Hrun.
  cbv zeta in Hrun.
  destruct (throws E (StatSync q) w); [done|].
  destruct (fs w !! q) as [n|] eqn:Hq; [|done]. split; [eauto|].
  destruct (isFile (Some n)); [|by injection Hrun as <-].
  destruct (throws E (UnlinkSync q) _); [done|]. by injection Hrun as <-.
Qed.

Lemma forEach_sweep_inr (names : list string) (w w' : World) :
  Forall plain names →
  forEach sweep names w = (inr tt, w') →
  (∀ name, name ∈ names → isFile (fs w !! (A ++ [name])) = true →
           fs w' !! (A ++ [name]) = None) ∧
  (∀ q, fs w' !! q = fs w !! q ∨
        (fs w' !! q = None ∧ isFile (fs w !! q) = true ∧
         ∃ name, name ∈ names ∧ q = A ++ [name])).
Proof.
  intros Hp. revert w. induction Hp as [|a names Ha Hp IH]; intros w Hrun.
  - injection Hrun as <-. split; [by intros name ?%elem_of_nil|]. by left.
  - simpl in Hrun. unfold mbind, M_bind in Hrun.
    destruct (sweep a w) as [[e|[]] w1] eqn:Ha1; [done|].
    destruct (sweep_inr a w w1 Ha Ha1) as [_ F1].
    destruct (IH w1 Hrun) as [IH1 IH2].
    assert (∀ q, fs w1 !! q = fs w !! q ∨
                 (fs w1 !! q = None ∧ isFile (fs w !! q) = true ∧ q = A ++ [a]))
      as Hstep.
    { intros q. rewrite F1. destruct (isFile (fs w !! (A ++ [a]))) eqn:Hf; [|by left].
      destruct (decide (q = A ++ [a])) as [->|Hne].
      - right. by rewrite lookup_delete_eq.
      - left. by rewrite lookup_delete_ne. }
    assert (∀ q, fs w' !! q = fs w !! q ∨
                 (fs w' !! q = None ∧ isFile (fs w !! q) = true ∧
                  ∃ name, name ∈ a :: names ∧ q = A ++ [name])) as H2.
    { intros q.
      destruct (IH2 q) as [E2|(E2 & Hf & name & Hin & Hq2)];
        destruct (Hstep q) as [E1|(E1 & Hf1 & Hq)].
      - left. congruence.
      - right. split; [congruence|]. split; [done|].
        exists a. split; [left|done].
      - right. split; [done|]. split; [by rewrite <- E1|].
        exists name. split; [by right|done].
      - by rewrite E1 in Hf. }
    split; [|exact H2].
    intros name [->|Hin]%elem_of_cons Hf.
    + assert (fs w1 !! (A ++ [a]) = None) as E1.
      { rewrite F1, Hf. apply lookup_delete_eq. }
      destruct (IH2 (A ++ [a])) as [E2|[E2 _]]; congruence.
    + destruct (Hstep (A ++ [name])) as [E1|(E1 & _)].
      * apply IH1; [done|]. by rewrite E1.
      * destruct (IH2 (A ++ [name])) as [E2|[E2 _]]; congruence.
Qed.

Lemma forEach_sweep_returns (names : list string) (w : World) :
  cooperative E →
  NoDup names → Forall plain names →
  (∀ name, name ∈ names → is_Some (fs w !! (A ++ [name]))) →
  ∃ w', forEach sweep names w = (inr tt, w').
Proof.
  intros C Hnd Hp. revert w.
  induction Hnd as [|a names Hnotin Hnd IH]; intros w Hex; simpl.
  - unfold ret. eauto.
  - apply Forall_cons in Hp as [Ha Hp].
    assert (∃ w1, sweep a w = (inr tt, w1)) as [w1 H1].
    { rewrite (sweep_run a w Ha). cbv zeta. rewrite C.
      destruct (Hex a ltac:(left)) as [n ->].
      destruct (isFile (Some n)); [rewrite C|]; eauto. }
    unfold mbind, M_bind. rewrite H1. apply (IH Hp).
    intros name Hin. destruct (sweep_inr a w w1 Ha H1) as [_ ->].
    destruct (isFile _); [|by apply Hex; right].
    rewrite lookup_delete_ne; [by apply Hex; right|].
    intros [= ->]%app_inv_head. done.
Qed.

End Sweep.

Lemma clearAuthStates_run (E : Env) (readdir : gmap Path Node → Path → list string)
    (d : Path) (w : World) :
  let A := path_dirname (STORAGE_STATE_PATH d) in
  let w1 := log (ExistsSync A)
              (Bool (negb (throws E (ExistsSync A) w) &&
                     bool_decide (is_Some (fs w !! A)))) w in
  clearAuthStates E readdir d w =
    if negb (throws E (ExistsSync A) w) && bool_decide (is_Some (fs w !! A))
    then if throws E (Invoke "fs.readdirSync") w1
         then (inl (Thrown (Invoke "fs.readdirSync")),
               log (Invoke "fs.readdirSync") Rejected w1)
         else match fs w !! A with
              | Some (Dir _) =>
                  forEach (clearAuthStates_each E (path_join d [".."; ".auth"]))
                    (readdir (fs w) A) (log (Invoke "fs.readdirSync") Done w1)
              | _ => (inl (Thrown (Invoke "fs.readdirSync")),
                      log (Invoke "fs.readdirSync") Rejected w1)
              end
    else (inr tt, w1).
Proof.
  intros A w1. unfold clearAuthStates. cbv zeta. rewrite !authDir_join. fold A.
  unfold mbind, M_bind at 1. unfold existsSync at 1. fold w1.
  destruct (negb _ && _); [|done].
  unfold mbind, M_bind, readdirSync, outside.
  destruct (throws E (Invoke "fs.readdirSync") w1); [done|].
  change (fs w1) with (fs w). by destruct (fs w !! A) as [[]|].
Qed.

(** X11. What [clearAuthStates] does when it returns normally, for a
    listing of plain names.  Every entry of the file system is as it was or
    is gone, and the ones that are gone were files directly under the
    directory of the state path, which is the directory [clearAuthStates]
    computes.  When the directory was seen, every listed file is gone; the
    entries that are not files, and everything elsewhere, are untouched.  It
    does return normally when no outside call raises, the listing lists the
    entries of the directory, and the directory is absent or is a
    directory. *)
Theorem clearAuthStates_clears (E : Env)
    (readdir : gmap Path Node → Path → list string) (d : Path) (w : World) :
  let A := path_dirname (STORAGE_STATE_PATH d) in
  let names := readdir (fs w) A in
  path_join d [".."; ".auth"] = A ∧
  (∀ w', Forall plain names →
     clearAuthStates E readdir d w = (inr tt, w') →
     (∀ q, fs w' !! q = fs w !! q ∨
           (fs w' !! q = None ∧ isFile (fs w !! q) = true ∧
            ∃ name, name ∈ names ∧ q = A ++ [name])) ∧
     (throws E (ExistsSync A) w = false → is_Some (fs w !! A) →
      ∀ name, name ∈ names → isFile (fs w !! (A ++ [name])) = true →
              fs w' !! (A ++ [name]) = None)) ∧
  (cooperative E → lists_children names (fs w) A →
   fs w !! A = None ∨ (∃ t, fs w !! A = Some (Dir t)) →
   ∃ w', clearAuthStates E readdir d w = (inr tt, w')).
Proof.
  intros A names. split; [apply authDir_join|]. split.
  - intros w' Hp. rewrite clearAuthStates_run. cbv zeta. fold A names.
    destruct (throws E (ExistsSync A) w) eqn:He; simpl.
    { intros [= <-]. split; [by left|done]. }
    destruct (bool_decide (is_Some (fs w !! A))) eqn:Hd.
    2:{ intros [= <-]. apply bool_decide_eq_false in Hd. split; [by left|done]. }
    destruct (throws E (Invoke "fs.readdirSync") _); [done|].
    destruct (fs w !! A) as [[|t]|]; [done| |done].
    intros Hrun.
    destruct (forEach_sweep_inr E d names _ w' Hp Hrun) as [H1 H2].
    split; [exact H2|]. intros _ _. exact H1.
  - intros C (Hnd & Hp & Hl) HA. rewrite clearAuthStates_run. cbv zeta.
    fold A names. rewrite !C. simpl.
    destruct HA as [->|[t ->]].
    + rewrite bool_decide_eq_false_2 by (by intros [? ?]). eauto.
    + rewrite bool_decide_eq_true_2 by eauto.
      apply forEach_sweep_returns; [done|done|done|].
      intros name Hin. by apply Hl.
Qed.

Lemma clearAuthStates_clears_witness :
  ∃ w', clearAuthStates calm only_user_json here (housed 0 5000) = (inr tt, w') ∧
        fs w' !! STORAGE_STATE_PATH here = None.
Proof.
  destruct (clearAuthStates_clears calm only_user_json here (housed 0 5000))
    as (_ & Heff & Hret).
  destruct Hret as [w' Hrun].
  - by intros op w.
  - split; [repeat constructor; by intros ?%elem_of_nil|].
    split; [by repeat constructor|].
    intros name. split.
    + intros ->%list_elem_of_singleton. eexists. vm_compute. reflexivity.
    + intros [n Hn]. apply list_elem_of_singleton.
      change (fs (housed 0 5000)) with
        ({[ path_dirname (STORAGE_STATE_PATH here) := Dir 0;
            STORAGE_STATE_PATH here := File 0 "old" ]} : gmap Path Node) in Hn.
      apply lookup_insert_Some in Hn as [[Heq _]|[_ Hn]].
      * apply (f_equal length) in Heq. rewrite length_app in Heq.
        vm_compute in Heq. lia.
      * apply lookup_singleton_Some in Hn as [Heq _].
        rewrite (state_path_child here) in Heq.
        by apply app_inv_head in Heq as [= ->].
  - right. exists 0. reflexivity.
  - exists w'. split; [exact Hrun|].
    destruct (Heff w') as [_ H]; [by repeat constructor|exact Hrun|].
    rewrite (state_path_child here). apply H; try reflexivity.
    + eexists. vm_compute. reflexivity.
    + apply list_elem_of_singleton. reflexivity.
Defined.

Lemma forEach_sweep_raises (E : Env) (d : Path) (names : list string) (w : World) :
  let A := path_dirname (STORAGE_STATE_PATH d) in
  (∀ q w0, throws E (StatSync q) w0 = false) →
  (∀ q w0, throws E (UnlinkSync q) w0 = true) →
  Forall plain names →
  (∀ name, name ∈ names → is_Some (fs w !! (A ++ [name]))) →
  (∃ name, name ∈ names ∧ isFile (fs w !! (A ++ [name])) = true) →
  ∃ name w',
    name ∈ names ∧ isFile (fs w !! (A ++ [name])) = true ∧
    forEach (clearAuthStates_each E (path_join d [".."; ".auth"])) names w =
      (inl (Thrown (UnlinkSync (A ++ [name]))), w') ∧
    fs w' = fs w.
Proof.
  intros A Hstat Hunlink Hp. revert w.
  induction Hp as [|a names Ha Hp IH]; intros w Hex (name & Hin & Hf).
  - by apply elem_of_nil in Hin.
  - simpl. unfold mbind, M_bind. rewrite (sweep_run E d a w Ha). cbv zeta.
    fold A. rewrite Hstat.
    destruct (Hex a ltac:(left)) as [n Hn]. rewrite Hn.
    destruct (isFile (Some n)) eqn:Hfa.
    + rewrite Hunlink. exists a. eexists. split; [left|].
      split; [by rewrite Hn|]. split; [reflexivity|done].
    + apply elem_of_cons in Hin as [->|Hin]; [congruence|].
      destruct (IH (log (StatSync (A ++ [a])) (Num (mtimeMs n)) w))
        as (name' & w' & Hin' & Hf' & Hrun & Hfs).
      * intros name0 Hin0. apply Hex. by right.
      * exists name. done.
      * exists name', w'. split; [by right|]. done.
Qed.

(** X12. [clearAuthStates] does not swallow errors, unlike
    [clearAuthState].  When the directory of the state path is a directory
    that holds a file, the listing lists its entries, and every
    [unlinkSync] raises while the other calls go through,
    [clearAuthStates] raises what [unlinkSync] raised on a listed file and
    removes nothing, while [clearAuthState] on the same world returns
    normally. *)
Theorem clearAuthStates_propagates (E : Env)
    (readdir : gmap Path Node → Path → list string) (d : Path) (w : World)
    (t : Z) :
  let A := path_dirname (STORAGE_STATE_PATH d) in
  let names := readdir (fs w) A in
  throws E (ExistsSync A) w = false →
  (∀ w0, throws E (Invoke "fs.readdirSync") w0 = false) →
  (∀ q w0, throws E (StatSync q) w0 = false) →
  (∀ q w0, throws E (UnlinkSync q) w0 = true) →
  fs w !! A = Some (Dir t) →
  lists_children names (fs w) A →
  (∃ name, name ∈ names ∧ isFile (fs w !! (A ++ [name])) = true) →
  (∃ name w',
     name ∈ names ∧ isFile (fs w !! (A ++ [name])) = true ∧
     clearAuthStates E readdir d w =
       (inl (Thrown (UnlinkSync (A ++ [name]))), w') ∧
     fs w' = fs w) ∧
  (clearAuthState E d w).1 = inr tt.
Proof.
  intros A names He Hread Hstat Hunlink HA (Hnd & Hp & Hl) Hfile. split.
  - rewrite clearAuthStates_run. cbv zeta. fold A names.
    rewrite He, Hread, HA. rewrite bool_decide_eq_true_2 by eauto. simpl.
    match goal with |- context [forEach _ names ?W] =>
      destruct (forEach_sweep_raises E d names W Hstat Hunlink Hp)
        as (name & w' & Hin & Hf & Hrun & Hfs) end.
    + intros name Hin. simpl. by apply Hl.
    + exact Hfile.
    + exists name, w'. done.
  - by destruct (clearAuthState_run E d w) as (w1 & -> & _).
Qed.

Lemma clearAuthStates_propagates_witness :
  ∃ e w', clearAuthStates locked only_user_json here (housed 0 5000) = (inl e, w') ∧
          fs w' = fs (housed 0 5000).
Proof.
  destruct (clearAuthStates_propagates locked only_user_json here (housed 0 5000) 0)
    as [(name & w' & _ & _ & Hrun & Hfs) _]; try done.
  - split; [repeat constructor; by intros ?%elem_of_nil|].
    split; [by repeat constructor|].
    intros name. split.
    + intros ->%list_elem_of_singleton. eexists. vm_compute. reflexivity.
    + intros [n Hn]. apply list_elem_of_singleton.
      change (fs (housed 0 5000)) with
        ({[ path_dirname (STORAGE_STATE_PATH here) := Dir 0;
            STORAGE_STATE_PATH here := File 0 "old" ]} : gmap Path Node) in Hn.
      apply lookup_insert_Some in Hn as [[Heq _]|[_ Hn]].
      * apply (f_equal length) in Heq. rewrite length_app in Heq.
        vm_compute in Heq. lia.
      * apply lookup_singleton_Some in Hn as [Heq _].
        rewrite (state_path_child here) in Heq.
        by apply app_inv_head in Heq as [= ->].
  - exists "user.json". split; [apply list_elem_of_singleton; reflexivity|].
    reflexivity.
  - eauto.
Defined.

(** ** More of the code: formatDate and isAuthenticated *)

Lemma lacks_app (c : ascii) (s1 s2 : string) :
  lacks c (s1 +:+ s2) = lacks c s1 && lacks c s2.
Proof.
  induction s1 as [|a s1 IH]; simpl; [done|].
  by rewrite IH, andb_assoc.
Qed.

Lemma lacks_prefix (c : ascii) (p s : string) :
  JsString.startsWith p s = true → lacks c s = true → lacks c p = true.
Proof.
  revert s. induction p as [|a p IH]; intros [|b s]; simpl; try done.
  intros [->%Ascii.eqb_eq Hp]%andb_true_iff [Hb Hs]%andb_true_iff.
  rewrite Hb. simpl. by apply (IH s).
Qed.

Lemma replace_skips (c : ascii) (p r pre s : string) :
  lacks c pre = true →
  JsString.replace (String c p) r (pre +:+ s) =
  pre +:+ JsString.replace (String c p) r s.
Proof.
  induction pre as [|a pre IH]; [done|].
  intros [Ha Hpre]%andb_true_iff.
  change (String a pre +:+ s) with (String a (pre +:+ s)).
  cbn [JsString.replace JsString.startsWith].
  apply negb_true_iff in Ha. rewrite Ha. cbn [andb].
  by rewrite (IH Hpre).
Qed.

Lemma includes_lacks (c : ascii) (p s : string) :
  lacks c s = true → lacks c p = false → JsString.includes p s = false.
Proof.
  intros Hs Hp.
  assert (Hpre : ∀ s0, lacks c s0 = true → JsString.startsWith p s0 = false).
  { intros s0 H0. destruct (JsString.startsWith p s0) eqn:Hpr; [|done].
    by rewrite (lacks_prefix c p s0 Hpr H0) in Hp. }
  induction s as [|a s IH]; cbn [JsString.includes].
  - by rewrite (Hpre EmptyString).
  - rewrite (Hpre (String a s) Hs). simpl. apply IH.
    simpl in Hs. by apply andb_true_iff in Hs as [_ ?].
Qed.

Lemma lacks_zeros (c : ascii) (n : nat) :
  lacks c "-0123456789" = true →
  lacks c (string_of_list_ascii (replicate n "0"%char)) = true.
Proof.
  intros H. simpl in H. rewrite !andb_true_iff in H. destruct_and!.
  induction n as [|n IH]; simpl; [done|]. by rewrite IH, andb_true_r.
Qed.

Lemma lacks_pretty_N_go (c : ascii) (x : N) (s : string) :
  lacks c "-0123456789" = true → lacks c s = true →
  lacks c (pretty_N_go x s) = true.
Proof.
  intros H. revert s. induction (N.lt_wf_0 x) as [x _ IH]; intros s Hs.
  destruct (decide (x = 0)%N) as [->|Hx]; [done|].
  rewrite pretty_N_go_step by lia. apply IH; [apply N.div_lt; lia|].
  simpl in H. rewrite !andb_true_iff in H. destruct_and!.
  assert (Hk : (x `mod` 10 < 10)%N) by (apply N.mod_lt; lia).
  simpl. rewrite Hs, andb_true_r.
  destruct (x `mod` 10)%N as [|k]; [done|].
  do 4 (destruct k as [k|k|]; try done; try lia).
Qed.

Lemma lacks_pretty (c : ascii) (z : Z) :
  lacks c "-0123456789" = true → lacks c (pretty z) = true.
Proof.
  intros H.
  assert (HN : ∀ x : N, lacks c (pretty x) = true).
  { intros x. unfold pretty, pretty_N. case_decide; [|by apply lacks_pretty_N_go].
    simpl in H. rewrite !andb_true_iff in H. destruct_and!. simpl.
    by rewrite andb_true_r. }
  destruct z as [|x|x]; unfold pretty, pretty_Z.
  - apply (HN 0%N).
  - apply (HN (N.pos x)).
  - rewrite lacks_app. apply andb_true_iff. split; [|apply (HN (N.pos x))].
    simpl in H. rewrite !andb_true_iff in H. destruct_and!. simpl.
    by rewrite andb_true_r.
Qed.

Lemma lacks_padStart (c : ascii) (z : Z) :
  lacks c "-0123456789" = true →
  lacks c (JsString.padStart 2 "0" (pretty z)) = true.
Proof.
  intros H. unfold JsString.padStart.
  by rewrite lacks_app, lacks_zeros, lacks_pretty.
Qed.

Lemma padStart_two (lo len z : Z) :
  Forall (fun z => String.length (JsString.padStart 2 "0" (pretty z)) = 2%nat)
         (seqZ lo len) →
  lo ≤ z < lo + len →
  String.length (JsString.padStart 2 "0" (pretty z)) = 2%nat.
Proof.
  intros H Hz. rewrite Forall_forall in H. apply H, elem_of_seqZ. lia.
Qed.

(** X13. [formatDate] on a format that holds the three fields in the order
    year, month, day: when no 'Y' comes before [YYYY], no 'M' before [MM]
    and no 'D' before [DD], the three are replaced by the decimal year, the
    month counted from 1 and the day, the latter two padded with a zero to
    two characters, and everything after [DD] is left as it is, further
    occurrences of the fields included: a field is replaced once.  For a
    month in 0..11 and a day in 1..31 the month and day parts have exactly
    two characters; the year is not padded. *)
Theorem formatDate_fields (date : JsDate) (pre a b rest : string) :
  let year := pretty (getFullYear date) in
  let month := JsString.padStart 2 "0" (pretty (getMonth date + 1)) in
  let day := JsString.padStart 2 "0" (pretty (getDate date)) in
  lacks "Y" pre = true →
  lacks "M" (pre +:+ a) = true →
  lacks "D" (pre +:+ a +:+ b) = true →
  formatDate date (pre +:+ "YYYY" +:+ a +:+ "MM" +:+ b +:+ "DD" +:+ rest) =
    pre +:+ year +:+ a +:+ month +:+ b +:+ day +:+ rest ∧
  (0 ≤ getMonth date ≤ 11 → String.length month = 2%nat) ∧
  (1 ≤ getDate date ≤ 31 → String.length day = 2%nat).
Proof.
  intros year month day HY HM HD.
  rewrite lacks_app in HM. apply andb_true_iff in HM as [HM1 HM2].
  rewrite !lacks_app in HD.
  apply andb_true_iff in HD as [HD1 [HD2 HD3]%andb_true_iff].
  split; [|split].
  - unfold formatDate. fold year month day.
    rewrite (replace_skips "Y" "YYY" year pre _ HY).
    replace (JsString.replace "YYYY" year
               ("YYYY" +:+ a +:+ "MM" +:+ b +:+ "DD" +:+ rest))
      with (year +:+ a +:+ "MM" +:+ b +:+ "DD" +:+ rest) by reflexivity.
    rewrite (replace_skips "M" "M" month pre _ HM1).
    rewrite (replace_skips "M" "M" month year _
               (lacks_pretty "M" _ eq_refl)).
    rewrite (replace_skips "M" "M" month a _ HM2).
    replace (JsString.replace "MM" month ("MM" +:+ b +:+ "DD" +:+ rest))
      with (month +:+ b +:+ "DD" +:+ rest) by reflexivity.
    rewrite (replace_skips "D" "D" day pre _ HD1).
    rewrite (replace_skips "D" "D" day year _ (lacks_pretty "D" _ eq_refl)).
    rewrite (replace_skips "D" "D" day a _ HD2).
    rewrite (replace_skips "D" "D" day month _ (lacks_padStart "D" _ eq_refl)).
    rewrite (replace_skips "D" "D" day b _ HD3).
    reflexivity.
  - intros Hm. apply (padStart_two 1 12); [|lia].
    vm_compute. repeat constructor.
  - intros Hd. apply (padStart_two 1 31); [|lia].
    vm_compute. repeat constructor.
Qed.

Lemma formatDate_fields_witness :
  formatDate {| getFullYear := 2026; getMonth := 0; getDate := 5 |}
             "on YYYY-MM-DD (DD.MM.YYYY)" =
  "on 2026-01-05 (DD.MM.YYYY)".
Proof.
  pose proof (formatDate_fields
                {| getFullYear := 2026; getMonth := 0; getDate := 5 |}
                "on " "-" "-" " (DD.MM.YYYY)" eq_refl eq_refl eq_refl)
    as [H _].
  exact H.
Defined.

(** X14. [isAuthenticated] answers [true] on the login page itself, and on
    every address that is the login page's followed by a text without a
    colon: the text it looks for is the login page's address after a slash,
    and no such address holds a slash before a scheme. *)
Theorem isAuthenticated_on_site (rest : string) :
  lacks ":" rest = true →
  isAuthenticated (Some (LoginPage.url +:+ rest)) = true.
Proof.
  intros Hrest. unfold isAuthenticated, LoginPage.url.
  apply negb_true_iff. unfold String.app. cbn.
  rewrite (includes_lacks ":" "/https://www.saucedemo.com/" rest Hrest eq_refl), orb_false_r.
  destruct (JsString.startsWith "https://www.saucedemo.com/" rest) eqn:Hp; [|done].
  by pose proof (lacks_prefix ":" _ rest Hp Hrest).
Qed.

Lemma isAuthenticated_on_site_witness :
  isAuthenticated (Some LoginPage.url) = true.
Proof. exact (isAuthenticated_on_site EmptyString eq_refl). Defined.
